(** * rs_bindings_from_cc/ast_visitor.cc: the AST-to-IR lowering engine

    A shallow embedding of [AstVisitor] (type mapper, declaration importers,
    traversal driver, comment manager and emitter) together with the
    properties of the specification that are checked against it.

    The Clang AST is data here: every query the visitor makes on a
    declaration or a type ([getBeginLoc], [getAccess], [getCanonicalDecl],
    [getAsString], ...) reads a field of the node.  A [CHECK] or
    [LOG(FATAL)] that fires aborts the process; computations that can abort
    live in [Checked] ([None] is the abort). *)

From Stdlib Require Import NArith ZArith Lia.
From Stdlib Require Import Ascii String.
From stdpp Require Import base option list strings gmap pretty sorting.

Set Warnings "-register-all,-clear-no-such-hyp".
Local Open Scope N_scope.

(** ** Clang: names, declarations referenced from types *)

Inductive AccessSpecifier := AS_public | AS_protected | AS_private | AS_none.

(** [clang::DeclarationName::NameKind]. *)
Inductive NameKind :=
| NK_Identifier
| NK_ObjCZeroArgSelector
| NK_ObjCOneArgSelector
| NK_ObjCMultiArgSelector
| NK_CXXConstructorName
| NK_CXXDestructorName
| NK_CXXConversionFunctionName
| NK_CXXOperatorName
| NK_CXXDeductionGuideName
| NK_CXXLiteralOperatorName
| NK_CXXUsingDirective.

(** What the visitor reads from the name of a [clang::NamedDecl]: its
    [DeclarationName] and, for a [ParmVarDecl], its position in the
    parameter list. *)
Record NamedDecl := mkNamedDecl {
  getNameKind : NameKind;
  getName : string;
  getQualifiedNameAsString : string;
  getFunctionScopeIndex : option N (* [Some i] exactly for a ParmVarDecl *)
}.

Module BuiltinType.
(** [clang::BuiltinType::Kind], in Clang's order. *)
Inductive Kind :=
| Void | Bool
| Char_U | UChar | WChar_U | Char8 | Char16 | Char32
| UShort | UInt | ULong | ULongLong | UInt128
| Char_S | SChar | WChar_S
| Short | Int | Long | LongLong | Int128
| Half | Float | Double | LongDouble | Float128
| NullPtr.

(** [BuiltinType::isInteger]: the kinds from [Bool] to [Int128]. *)
Definition isIntegerType (k : Kind) : bool :=
  match k with
  | Bool | Char_U | UChar | WChar_U | Char8 | Char16 | Char32
  | UShort | UInt | ULong | ULongLong | UInt128
  | Char_S | SChar | WChar_S | Short | Int | Long | LongLong | Int128 => true
  | _ => false
  end.

(** [BuiltinType::isSignedInteger]: the kinds from [Char_S] to [Int128]. *)
Definition isSignedInteger (k : Kind) : bool :=
  match k with
  | Char_S | SChar | WChar_S | Short | Int | Long | LongLong | Int128 => true
  | _ => false
  end.

(** [BuiltinType::getName] under the C++ printing policy. *)
Definition getName (k : Kind) : string :=
  match k with
  | Void => "void" | Bool => "bool"
  | Char_U | Char_S => "char"
  | UChar => "unsigned char" | SChar => "signed char"
  | WChar_U | WChar_S => "wchar_t"
  | Char8 => "char8_t" | Char16 => "char16_t" | Char32 => "char32_t"
  | UShort => "unsigned short" | UInt => "unsigned int"
  | ULong => "unsigned long" | ULongLong => "unsigned long long"
  | UInt128 => "unsigned __int128"
  | Short => "short" | Int => "int" | Long => "long"
  | LongLong => "long long" | Int128 => "__int128"
  | Half => "__fp16" | Float => "float" | Double => "double"
  | LongDouble => "long double" | Float128 => "__float128"
  | NullPtr => "std::nullptr_t"
  end.
End BuiltinType.

(** A [TagDecl] as a type refers to it ([TagType::getDecl]). *)
Record TagDecl := mkTagDecl {
  tag_ptr : N;                 (* the [TagDecl*] itself *)
  tag_canonical_ptr : N;       (* its [getCanonicalDecl()] *)
  tag_named : NamedDecl;
  tag_spelling : string;       (* how a type naming it is printed *)
  tag_is_record : bool;        (* RecordDecl (struct/class/union), not EnumDecl *)
  canPassInRegisters : bool
}.

Record Qualifiers := mkQualifiers { q_const : bool; q_volatile : bool }.
Definition hasQualifiers (quals : Qualifiers) : bool := q_const quals || q_volatile quals.

(** One level of typedef sugar: the [TypedefNameDecl] a [TypedefType] names
    and the local qualifiers of the type it abbreviates. *)
Record TypedefSugar := mkTypedefSugar {
  typedef_ptr : N;
  typedef_canonical_ptr : N;
  typedef_named : NamedDecl;
  typedef_spelling : string;
  underlying_quals : Qualifiers
}.

(** ** Clang: qualified types

    A [QualType] is its local qualifiers, the typedef sugar written around
    it (outermost first) and the node under the sugar.  [getAs<T>] looks
    through the sugar, [getAsAdjusted<T>] and [dyn_cast<T>] do not look
    through typedefs. *)
Inductive QualType :=
| mkQualType (quals : Qualifiers) (sugar : list TypedefSugar) (node : TypeNode)
with TypeNode :=
| Builtin (k : BuiltinType.Kind)
| Pointer (pointee : QualType)
| LValueReference (pointee : QualType)
| RValueReference (pointee : QualType)
| Tag (d : TagDecl)
| Other (spelling : string).

Scheme QualType_mut_ind := Induction for QualType Sort Prop
  with TypeNode_mut_ind := Induction for TypeNode Sort Prop.

Definition getLocalQualifiers (q : QualType) : Qualifiers :=
  match q with mkQualType quals _ _ => quals end.
Definition getSugar (q : QualType) : list TypedefSugar :=
  match q with mkQualType _ sugar _ => sugar end.
Definition getNode (q : QualType) : TypeNode :=
  match q with mkQualType _ _ node => node end.

(** The sugar left by [getSplitUnqualifiedTypeImpl]: typedefs are desugared
    down to the innermost level that carries qualifiers, and the type under
    those qualifiers is kept with its own sugar. *)
Fixpoint unqualified_sugar (sugar : list TypedefSugar) : list TypedefSugar :=
  match sugar with
  | [] => []
  | s :: rest =>
      if existsb (λ s', hasQualifiers (underlying_quals s')) rest
      then unqualified_sugar rest
      else if hasQualifiers (underlying_quals s) then rest
      else s :: rest
  end.

(** [QualType::getUnqualifiedType]. *)
Definition getUnqualifiedType (q : QualType) : QualType :=
  mkQualType (mkQualifiers false false) (unqualified_sugar (getSugar q)) (getNode q).

(** [QualType::isConstQualified]: const locally or on the canonical type,
    that is at any level of the sugar. *)
Definition isConstQualified (q : QualType) : bool :=
  q_const (getLocalQualifiers q)
  || existsb (λ s, q_const (underlying_quals s)) (getSugar q).

Definition getAs_PointerType (q : QualType) : option QualType :=
  match getNode q with Pointer pointee => Some pointee | _ => None end.
Definition getAs_LValueReferenceType (q : QualType) : option QualType :=
  match getNode q with LValueReference pointee => Some pointee | _ => None end.
Definition getAsAdjusted_BuiltinType (q : QualType) : option BuiltinType.Kind :=
  match getSugar q, getNode q with [], Builtin k => Some k | _, _ => None end.
Definition getAsAdjusted_TagType (q : QualType) : option TagDecl :=
  match getSugar q, getNode q with [], Tag d => Some d | _, _ => None end.
Definition getAsAdjusted_TypedefType (q : QualType) : option TypedefSugar :=
  match getSugar q with s :: _ => Some s | [] => None end.
(** [llvm::dyn_cast<clang::RecordType>(qual_type)] followed by
    [dyn_cast<RecordDecl>(record_type->getDecl())]. *)
Definition dyn_cast_RecordType (q : QualType) : option TagDecl :=
  match getSugar q, getNode q with
  | [], Tag d => if tag_is_record d then Some d else None
  | _, _ => None
  end.

Definition print_quals_prefix (quals : Qualifiers) : string :=
  (if q_const quals then "const " else "") +:+
  (if q_volatile quals then "volatile " else "").
Definition print_quals_suffix (quals : Qualifiers) : string :=
  (if q_const quals then "const" else "") +:+
  (if q_volatile quals then " volatile" else "").

(** [QualType::getAsString]: a typedef prints as its name, a builtin as
    [BuiltinType::getName], a pointer or reference as its pointee followed by
    the declarator; qualifiers go before a name and after a declarator.
    Declarators are printed one by one ([int * *] where Clang prints
    [int **]); the spelling of a pointer or reference is no key of the
    well-known table either way. *)
Fixpoint getAsString (q : QualType) : string :=
  match q with
  | mkQualType quals sugar node =>
    match sugar with
    | s :: _ => print_quals_prefix quals +:+ typedef_spelling s
    | [] =>
      match node with
      | Builtin k => print_quals_prefix quals +:+ BuiltinType.getName k
      | Pointer pointee => getAsString pointee +:+ " *" +:+ print_quals_suffix quals
      | LValueReference pointee => getAsString pointee +:+ " &"
      | RValueReference pointee => getAsString pointee +:+ " &&"
      | Tag d => print_quals_prefix quals +:+ tag_spelling d
      | Other spelling => print_quals_prefix quals +:+ spelling
      end
    end
  end.

(** Number of pointer and lvalue-reference layers of a type, outermost
    inwards (typedef sugar is looked through, as [getAs] does). *)
Fixpoint pointer_layers (q : QualType) : nat :=
  match q with
  | mkQualType _ _ node =>
    match node with
    | Pointer pointee | LValueReference pointee => S (pointer_layers pointee)
    | _ => 0%nat
    end
  end.

(** ** Lifetime annotations (the [devtools_rust] lifetime tool) *)

Module devtools_rust.
Record Lifetime := mkLifetime { Id : Z }.
(** Lifetimes of the pointer layers of one type; the back of the vector
    belongs to the outermost layer. *)
Abbreviation TypeLifetimes := (list Lifetime).
Record FunctionLifetimes := mkFunctionLifetimes {
  param_lifetimes : list TypeLifetimes;
  return_lifetimes : TypeLifetimes;
  this_lifetimes : TypeLifetimes
}.
(** [LifetimeSymbolTable::LookupLifetime], as the table it reads. *)
Definition LifetimeSymbolTable := list (Lifetime * string).
End devtools_rust.

Global Instance Lifetime_eq_dec : EqDecision devtools_rust.Lifetime.
Proof. solve_decision. Defined.

(** ** absl::Status *)

Inductive StatusCode := kUnimplemented.
Record Status := mkStatus {
  status_code : StatusCode;
  status_message : string;
  status_payloads : list (string * string)
}.
Definition UnimplementedError (message : string) : Status :=
  mkStatus kUnimplemented message [].
Definition SetPayload (url payload : string) (s : Status) : Status :=
  mkStatus (status_code s) (status_message s) (status_payloads s ++ [(url, payload)]).
(** [Status::ToString]: code name, message, then every payload. *)
Definition Status_ToString (s : Status) : string :=
  "UNIMPLEMENTED: " +:+ status_message s +:+
  String.concat "" (map (λ p, " [" +:+ p.1 +:+ "='" +:+ p.2 +:+ "']") (status_payloads s)).

(** [absl::StatusOr<T>]: an error status or a value. *)
Definition StatusOr (A : Type) : Type := Status + A.
Definition ok {A} (r : StatusOr A) : bool :=
  match r with inl _ => false | inr _ => true end.

(** A computation that a failed [CHECK] aborts. *)
Definition Checked (A : Type) : Type := option A.
Definition CHECK (b : bool) : Checked unit := if b then Some tt else None.

(** ** The IR (ir.h)

    The structs below are written as the designated initialisers of
    ast_visitor.cc fill them. *)

Definition BlazeLabel := string.
Definition HeaderName := string.

Record DeclId := mkDeclId { decl_id_value : N }.
Record LifetimeId := mkLifetimeId { lifetime_id_value : Z }.
Record Identifier := mkIdentifier { Ident : string }.
Inductive SpecialName := kConstructor | kDestructor.
Inductive UnqualifiedIdentifier :=
| UI_Identifier (i : Identifier)
| UI_SpecialName (s : SpecialName).

Global Instance DeclId_eq_dec : EqDecision DeclId.
Proof. solve_decision. Defined.

Record SourceLoc := mkSourceLoc {
  sl_filename : string; sl_line : N; sl_column : N
}.

Module MappedType.
(** Modelled from the spec: ir.h, which declares [MappedType] and its
    factory functions, is absent.  A [MappedType] is represented by the
    factory calls of ast_visitor.cc that build it ([Simple], [Void],
    [PointerTo], [LValueReferenceTo], [WithDeclIds]) and by the assignment
    [type->cc_type.is_const = b] ([SetCcIsConst]); [cc_type] and [rs_type]
    below read the two sides off as section 3 of the spec describes them. *)
Inductive t :=
| Simple (rs_name cc_name : string)
| Void
| PointerTo (pointee_type : t) (lifetime : option LifetimeId) (nullable : bool)
| LValueReferenceTo (pointee_type : t) (lifetime : option LifetimeId)
| WithDeclIds (rs_name : string) (rs_decl_id : DeclId)
              (cc_name : string) (cc_decl_id : DeclId)
| SetCcIsConst (b : bool) (type : t).
End MappedType.

(** Modelled from the spec: [CcType] and [RsType] of the absent ir.h, with the
    fields section 3 lists: [{ name, is_const (cc only), type_params,
    decl_id }]. *)
Inductive CcType :=
| mkCcType (name : string) (is_const : bool) (type_params : list CcType)
           (decl_id : option DeclId).
Inductive RsType :=
| mkRsType (name : string) (type_params : list RsType) (decl_id : option DeclId).

Definition cc_name (c : CcType) := match c with mkCcType n _ _ _ => n end.
Definition cc_is_const (c : CcType) := match c with mkCcType _ b _ _ => b end.
Definition cc_type_params (c : CcType) := match c with mkCcType _ _ ps _ => ps end.
Definition cc_decl_id (c : CcType) := match c with mkCcType _ _ _ d => d end.
Definition rs_name (r : RsType) := match r with mkRsType n _ _ => n end.
Definition rs_type_params (r : RsType) := match r with mkRsType _ ps _ => ps end.
Definition rs_decl_id (r : RsType) := match r with mkRsType _ _ d => d end.

(** Modelled from the spec: the cc side of a [MappedType].  "Pointers use
    ["*"] on the cc side ... with a single pointee child; references
    likewise" (with ["&"]); a simple type has its cc name and no parameters;
    a record reference "carries the same DeclId on both sides". *)
Fixpoint cc_type (m : MappedType.t) : CcType :=
  match m with
  | MappedType.Simple _ cc => mkCcType cc false [] None
  | MappedType.Void => mkCcType "void" false [] None
  | MappedType.PointerTo p _ _ => mkCcType "*" false [cc_type p] None
  | MappedType.LValueReferenceTo p _ => mkCcType "&" false [cc_type p] None
  | MappedType.WithDeclIds _ _ cc cc_id => mkCcType cc false [] (Some cc_id)
  | MappedType.SetCcIsConst b m' =>
      let c := cc_type m' in
      mkCcType (cc_name c) b (cc_type_params c) (cc_decl_id c)
  end.

(** Modelled from the spec: the rs side; a pointer or reference is ["*mut"],
    or ["*const"] when its pointee is const on the cc side, "with a single
    pointee child". *)
Fixpoint rs_type (m : MappedType.t) : RsType :=
  match m with
  | MappedType.Simple rs _ => mkRsType rs [] None
  | MappedType.Void => mkRsType "()" [] None
  | MappedType.PointerTo p _ _
  | MappedType.LValueReferenceTo p _ =>
      mkRsType (if cc_is_const (cc_type p) then "*const" else "*mut")
               [rs_type p] None
  | MappedType.WithDeclIds rs rs_id _ _ => mkRsType rs [] (Some rs_id)
  | MappedType.SetCcIsConst _ m' => rs_type m'
  end.

(** Modelled from the spec: [MappedType::IsVoid]. *)
Fixpoint IsVoid (m : MappedType.t) : bool :=
  match m with
  | MappedType.Void => true
  | MappedType.SetCcIsConst _ m' => IsVoid m'
  | _ => false
  end.

Record Lifetime := mkIrLifetime { lifetime_name : string; lifetime_id : LifetimeId }.

Record FuncParam := mkFuncParam {
  param_type : MappedType.t;
  param_identifier : Identifier
}.

Inductive ReferenceQualification := kLValue | kRValue | kUnqualified.
Record InstanceMethodMetadata := mkInstanceMethodMetadata {
  imm_reference : ReferenceQualification;
  imm_is_const : bool;
  imm_is_virtual : bool
}.
Record MemberFuncMetadata := mkMemberFuncMetadata {
  mfm_record_id : DeclId;
  mfm_instance_method_metadata : option InstanceMethodMetadata
}.

Module Func.
Record t := mk {
  name : UnqualifiedIdentifier;
  owning_target : BlazeLabel;
  doc_comment : option string;
  mangled_name : string;
  return_type : MappedType.t;
  params : list FuncParam;
  lifetime_params : list Lifetime;
  is_inline : bool;
  member_func_metadata : option MemberFuncMetadata;
  source_loc : SourceLoc
}.
End Func.

Inductive IrAccessSpecifier := kPublic | kProtected | kPrivate.

Module Field.
Record t := mk {
  identifier : Identifier;
  doc_comment : option string;
  type : MappedType.t;
  access : IrAccessSpecifier;
  offset : N
}.
End Field.

Inductive SpecialMemberDefinition := kTrivial | kNontrivial | kDeleted.
Record SpecialMemberFunc := mkSpecialMemberFunc {
  smf_definition : SpecialMemberDefinition;
  smf_access : IrAccessSpecifier
}.

Module Record_.
Record t := mk {
  identifier : Identifier;
  id : DeclId;
  owning_target : BlazeLabel;
  doc_comment : option string;
  fields : list Field.t;
  size : N;
  alignment : N;
  copy_constructor : SpecialMemberFunc;
  move_constructor : SpecialMemberFunc;
  destructor : SpecialMemberFunc;
  is_trivial_abi : bool;
  is_final : bool
}.
End Record_.

Module TypeAlias.
Record t := mk {
  identifier : Identifier;
  id : DeclId;
  owning_target : BlazeLabel;
  underlying_type : MappedType.t
}.
End TypeAlias.

Record Comment := mkComment { comment_text : string }.

Module UnsupportedItem.
Record t := mk {
  name : string;
  message : string;
  source_loc : SourceLoc
}.
End UnsupportedItem.

Module IR.
Inductive Item :=
| ItemFunc (f : Func.t)
| ItemRecord (r : Record_.t)
| ItemTypeAlias (a : TypeAlias.t)
| ItemComment (c : Comment)
| ItemUnsupported (u : UnsupportedItem.t).

Record t := mk {
  used_headers : list HeaderName;
  current_target : BlazeLabel;
  items : list Item
}.
End IR.

Definition is_Func (i : IR.Item) : bool :=
  match i with IR.ItemFunc _ => true | _ => false end.
Definition is_Record (i : IR.Item) : bool :=
  match i with IR.ItemRecord _ => true | _ => false end.
Definition is_TypeAlias (i : IR.Item) : bool :=
  match i with IR.ItemTypeAlias _ => true | _ => false end.
Definition is_UnsupportedItem (i : IR.Item) : bool :=
  match i with IR.ItemUnsupported _ => true | _ => false end.

(** ** Clang: source manager, comments, declarations *)

(** A [clang::SourceLocation] is its raw encoding; 0 is the invalid one.
    [operator<] on locations compares raw encodings. *)
Definition SourceLocation := N.
Definition isValid (loc : SourceLocation) : bool := negb (loc =? 0).
Definition FileID := N.
Definition FileID_isInvalid (f : FileID) : bool := f =? 0.

Record SourceManager := mkSourceManager {
  isBeforeInTranslationUnit : SourceLocation → SourceLocation → bool;
  getFileID : SourceLocation → FileID;
  getFilename : SourceLocation → string;
  getSpellingLineNumber : SourceLocation → N;
  getSpellingColumnNumber : SourceLocation → N
}.

Record RawComment := mkRawComment {
  comment_ptr : N;
  comment_getBeginLoc : SourceLocation;
  getFormattedText : string
}.

Record ASTContext := mkASTContext {
  getSourceManager : SourceManager;
  getTypeSize : BuiltinType.Kind → N;
  getCommentsInFile : FileID → option (list RawComment)
}.

Inductive DeclContextKind :=
| DC_TranslationUnit | DC_Namespace | DC_Record | DC_FunctionOrMethod | DC_Other.
Definition isNamespace (c : DeclContextKind) : bool :=
  match c with DC_Namespace => true | _ => false end.
Definition isRecord (c : DeclContextKind) : bool :=
  match c with DC_Record => true | _ => false end.
Definition isFunctionOrMethod (c : DeclContextKind) : bool :=
  match c with DC_FunctionOrMethod => true | _ => false end.

(** What [EmitIRItems] asks of the class of a declaration. *)
Inductive DeclClass :=
| Class_Record
| Class_CXXConstructor (isDefaultConstructor isCopyConstructor isMoveConstructor : bool)
| Class_CXXDestructor
| Class_Other.

(** A canonical declaration, the key of [seen_decls_]. *)
Record CanonicalDecl := mkCanonicalDecl {
  canon_ptr : N;
  canon_class : DeclClass;
  canon_getDeclContext : option DeclContextKind;
  canon_getBeginLoc : SourceLocation
}.

(** One file of the include stack above a location: whether it is a system
    header and [getNonBuiltinFilenameForID] of it.  [getIncludeLoc] moves to
    the next frame; the stack ends at an invalid location. *)
Record IncludeFrame := mkIncludeFrame {
  isInSystemHeader : bool;
  getNonBuiltinFilenameForID : option string
}.

(** What the visitor reads from any [clang::Decl]. *)
Record DeclCommon := mkDeclCommon {
  this_ptr : N;
  getCanonicalDecl : CanonicalDecl;
  getDeclContext : option DeclContextKind;
  getBeginLoc : SourceLocation;
  getEndLoc : SourceLocation;
  getLocation_include_stack : list IncludeFrame;
  getRawCommentForDeclNoCache : option RawComment;
  isa_NamedDecl : bool;
  named : NamedDecl
}.

Inductive GlobalDecl :=
| GD_Unary | GD_Ctor_Complete | GD_Ctor_Base | GD_Dtor_Complete
| GD_Dtor_Base | GD_Dtor_Deleting.

Inductive RefQualifierKind := RQ_None | RQ_LValue | RQ_RValue.
Inductive CXXMethodClass :=
| Method_Plain | Method_Constructor | Method_Destructor | Method_Conversion.

Record CXXMethodDecl := mkCXXMethodDecl {
  method_class : CXXMethodClass;
  isInstance : bool;
  getThisType : QualType;
  getAccess : AccessSpecifier;
  getRefQualifier : RefQualifierKind;
  isConst : bool;
  isVirtual : bool;
  getParent_canonical_ptr : N
}.

Record ParmVarDecl := mkParmVarDecl {
  parm_getType : QualType;
  parm_getBeginLoc : SourceLocation;
  parm_named : NamedDecl
}.

Record FunctionDecl := mkFunctionDecl {
  isDeleted : bool;
  (** [GetLifetimeAnnotations]: the annotations, or [None] for an error,
      and the symbol table it fills. *)
  GetLifetimeAnnotations : option devtools_rust.FunctionLifetimes;
  lifetime_symbol_table : devtools_rust.LifetimeSymbolTable;
  dyn_cast_CXXMethodDecl : option CXXMethodDecl;
  parameters : list ParmVarDecl;
  getReturnType : QualType;
  getReturnTypeSourceRange_begin : SourceLocation;
  isInlined : bool;
  mangleName : GlobalDecl → string
}.

Record FieldDecl := mkFieldDecl {
  field_getType : QualType;
  field_getAccess : AccessSpecifier;
  field_named : NamedDecl;
  field_getBeginLoc : SourceLocation;
  field_raw_comment : option RawComment;
  getFieldIndex : nat
}.

Record ASTRecordLayout := mkASTRecordLayout {
  getSize : N;
  getAlignment : N;
  getFieldOffset : nat → N
}.

Record CXXRecordDecl := mkCXXRecordDecl {
  getDescribedClassTemplate : bool;
  isa_ClassTemplateSpecializationDecl : bool;
  isClass : bool;
  isEffectivelyFinal : bool
}.

(** The definition of a record ([RecordDecl::getDefinition]) with the
    layout and the special-member facts (ast_convert.h) computed for it. *)
Record RecordDefinition := mkRecordDefinition {
  def_this_ptr : N;
  def_getBeginLoc : SourceLocation;
  def_getEndLoc : SourceLocation;
  def_getLocation_include_stack : list IncludeFrame;
  def_getRawCommentForDeclNoCache : option RawComment;
  def_named : NamedDecl;
  isInvalidDecl : bool;
  isCompleteDefinition : bool;
  dyn_cast_CXXRecordDecl : option CXXRecordDecl;
  record_fields : list FieldDecl;
  getASTRecordLayout : ASTRecordLayout;
  record_canPassInRegisters : bool;
  GetCopyCtorSpecialMemberFunc : SpecialMemberFunc;
  GetMoveCtorSpecialMemberFunc : SpecialMemberFunc;
  GetDestructorSpecialMemberFunc : SpecialMemberFunc
}.

Record RecordDecl := mkRecordDecl {
  isUnion : bool;
  getDefinition : option RecordDefinition
}.

(** The definition as a [Decl]: a redeclaration of the visited record, so
    with the same canonical declaration and declaration context. *)
Definition def_common (decl : DeclCommon) (definition : RecordDefinition) : DeclCommon :=
  mkDeclCommon (def_this_ptr definition) (getCanonicalDecl decl) (getDeclContext decl)
    (def_getBeginLoc definition) (def_getEndLoc definition)
    (def_getLocation_include_stack definition)
    (def_getRawCommentForDeclNoCache definition) true (def_named definition).

Record TypedefNameDecl := mkTypedefNameDecl {
  getTypedefType : QualType;
  getUnderlyingType : QualType
}.

Inductive DeclKind :=
| Kind_TranslationUnit (getASTContext : ASTContext)
| Kind_Namespace
| Kind_Function (function_decl : FunctionDecl)
| Kind_Record (record_decl : RecordDecl)
| Kind_TypedefName (typedef_name_decl : TypedefNameDecl)
| Kind_Other.

(** A declaration with the declarations [RecursiveASTVisitor] traverses
    under it; a child may be a null pointer. *)
Inductive Decl :=
| mkDecl (common : DeclCommon) (kind : DeclKind) (children : list (option Decl)).

Definition decl_common (d : Decl) := match d with mkDecl c _ _ => c end.
Definition decl_kind (d : Decl) := match d with mkDecl _ k _ => k end.
Definition decl_children (d : Decl) := match d with mkDecl _ _ cs => cs end.
Definition isa_NamespaceDecl (k : DeclKind) : bool :=
  match k with Kind_Namespace => true | _ => false end.

(** ** The visitor's state *)

Record CommentManager := mkCommentManager {
  current_file_ : FileID;
  file_comments_ : list RawComment;
  next_comment_ : nat;            (* the iterator, as an index *)
  comments_ : list RawComment
}.

Record AstVisitor := mkAstVisitor {
  public_header_names_ : list HeaderName;
  current_target_ : BlazeLabel;
  headers_to_targets_ : gmap HeaderName BlazeLabel;
  ctx_ : ASTContext;
  ir_ : IR.t;
  (** [flat_hash_map<const Decl*, std::vector<IR::Item>>]; the order of the
      list is the order in which the map is iterated. *)
  seen_decls_ : list (CanonicalDecl * list IR.Item);
  known_type_decls_ : gset N;
  comment_manager_ : CommentManager
}.

Definition set_seen_decls_ (v : list (CanonicalDecl * list IR.Item))
    (self : AstVisitor) : AstVisitor :=
  mkAstVisitor (public_header_names_ self) (current_target_ self)
    (headers_to_targets_ self) (ctx_ self) (ir_ self) v
    (known_type_decls_ self) (comment_manager_ self).
Definition set_known_type_decls_ (v : gset N) (self : AstVisitor) : AstVisitor :=
  mkAstVisitor (public_header_names_ self) (current_target_ self)
    (headers_to_targets_ self) (ctx_ self) (ir_ self) (seen_decls_ self)
    v (comment_manager_ self).
Definition set_comment_manager_ (v : CommentManager) (self : AstVisitor) : AstVisitor :=
  mkAstVisitor (public_header_names_ self) (current_target_ self)
    (headers_to_targets_ self) (ctx_ self) (ir_ self) (seen_decls_ self)
    (known_type_decls_ self) v.
Definition set_ir_ (v : IR.t) (self : AstVisitor) : AstVisitor :=
  mkAstVisitor (public_header_names_ self) (current_target_ self)
    (headers_to_targets_ self) (ctx_ self) v (seen_decls_ self)
    (known_type_decls_ self) (comment_manager_ self).
Definition set_ctx_ (v : ASTContext) (self : AstVisitor) : AstVisitor :=
  mkAstVisitor (public_header_names_ self) (current_target_ self)
    (headers_to_targets_ self) v (ir_ self) (seen_decls_ self)
    (known_type_decls_ self) (comment_manager_ self).

(** [seen_decls_.contains(decl)]. *)
Definition seen_contains (seen : list (CanonicalDecl * list IR.Item)) (ptr : N) : bool :=
  existsb (λ e, canon_ptr e.1 =? ptr) seen.

(** [seen_decls_[decl]]: the items recorded for the key, empty when the key
    is absent. *)
Fixpoint seen_lookup (seen : list (CanonicalDecl * list IR.Item)) (ptr : N)
    : list IR.Item :=
  match seen with
  | [] => []
  | e :: rest => if canon_ptr e.1 =? ptr then e.2 else seen_lookup rest ptr
  end.

(** [seen_decls_[decl].push_back(item)]. *)
Fixpoint seen_push_back (seen : list (CanonicalDecl * list IR.Item))
    (decl : CanonicalDecl) (item : IR.Item) : list (CanonicalDecl * list IR.Item) :=
  match seen with
  | [] => [(decl, [item])]
  | e :: rest =>
      if canon_ptr e.1 =? canon_ptr decl then (e.1, e.2 ++ [item]) :: rest
      else e :: seen_push_back rest decl item
  end.

(** ** Names *)

Definition GenerateDeclId (canonical_decl_ptr : N) : DeclId :=
  mkDeclId canonical_decl_ptr.

Definition GetTranslatedName (named_decl : NamedDecl) : option UnqualifiedIdentifier :=
  match getNameKind named_decl with
  | NK_Identifier =>
      let name := getName named_decl in
      if String.eqb name "" then
        match getFunctionScopeIndex named_decl with
        | Some param_pos =>
            Some (UI_Identifier (mkIdentifier ("__param_" +:+ pretty param_pos)))
        | None => None
        end
      else Some (UI_Identifier (mkIdentifier name))
  | NK_CXXConstructorName => Some (UI_SpecialName kConstructor)
  | NK_CXXDestructorName => Some (UI_SpecialName kDestructor)
  | _ => None
  end.

(** Modelled from the spec: [GetTranslatedIdentifier] is defined in the
    absent ast_visitor.h.  Section 4.4: an [Identifier] is the ordinary name
    of the declaration, [__param_<index>] for an unnamed parameter, and
    "a failure sentinel (None)" otherwise; constructor and destructor names
    "are sentinels, not strings", so they give no [Identifier]. *)
Definition GetTranslatedIdentifier (named_decl : NamedDecl) : option Identifier :=
  match GetTranslatedName named_decl with
  | Some (UI_Identifier i) => Some i
  | _ => None
  end.

(** ** Type mapper *)

Definition kTypeStatusPayloadUrl : string :=
  "type.googleapis.com/devtools.rust.cc_interop.rs_binding_from_cc.type".

Definition kWellKnownTypes : list (string * string) :=
  [ ("ptrdiff_t", "isize"); ("intptr_t", "isize");
    ("size_t", "usize"); ("uintptr_t", "usize");
    ("std::ptrdiff_t", "isize"); ("std::intptr_t", "isize");
    ("std::size_t", "usize"); ("std::uintptr_t", "usize");
    ("int8_t", "i8"); ("int16_t", "i16"); ("int32_t", "i32"); ("int64_t", "i64");
    ("std::int8_t", "i8"); ("std::int16_t", "i16");
    ("std::int32_t", "i32"); ("std::int64_t", "i64");
    ("uint8_t", "u8"); ("uint16_t", "u16"); ("uint32_t", "u32"); ("uint64_t", "u64");
    ("std::uint8_t", "u8"); ("std::uint16_t", "u16");
    ("std::uint32_t", "u32"); ("std::uint64_t", "u64");
    ("char16_t", "u16"); ("char32_t", "u32"); ("wchar_t", "i32") ].

(** [find] on a [gtl::fixed_flat_map_of]: the value stored for the key. *)
Fixpoint fixed_flat_map_find (m : list (string * string)) (key : string)
    : option string :=
  match m with
  | [] => None
  | (k, v) :: rest => if String.eqb k key then Some v else fixed_flat_map_find rest key
  end.
Definition fixed_flat_map_contains (m : list (string * string)) (key : string) : bool :=
  match fixed_flat_map_find m key with Some _ => true | None => false end.

(** Modelled from the spec: the default argument for [lifetimes] of
    [ConvertType] is declared in the absent ast_visitor.h.  Section 4.1: the
    lifetime stack is "optional"; a call that passes none has no stack. *)
Definition ConvertType_default_lifetimes : option devtools_rust.TypeLifetimes := None.

(** Modelled from the spec: the default argument for [nullable] of
    [ConvertType] is declared in the absent ast_visitor.h.  Section 4.1, of
    the pointer layer: "[nullable] applies here; inner recursions are
    non-nullable"; the recursive calls pass no [nullable], so they get
    [false].  The one call that passes the argument, for the type of [this]
    (ast_visitor.cc:217-218), passes [false], which this default would make
    redundant; no theorem below rests on the value, which shows only in the
    flags of nested pointer layers of concrete results. *)
Definition ConvertType_default_nullable : bool := false.

(** The lifetime of one pointer layer:
    [if (lifetimes.has_value()) { CHECK(!lifetimes->empty());
       lifetime = LifetimeId(lifetimes->back().Id()); lifetimes->pop_back(); }].
    Returns the layer's lifetime and the stack passed on to the pointee. *)
Definition take_lifetime (lifetimes : option devtools_rust.TypeLifetimes)
    : Checked (option LifetimeId * option devtools_rust.TypeLifetimes) :=
  match lifetimes with
  | None => Some (None, None)
  | Some stack =>
      match last stack with
      | None => None
      | Some back =>
          Some (Some (mkLifetimeId (devtools_rust.Id back)), Some (removelast stack))
      end
  end.

(** The [switch (builtin_type->getKind())] of [ConvertType]. *)
Definition ConvertBuiltinType (ctx : ASTContext) (builtin_type : BuiltinType.Kind)
    (type_string : string) : option MappedType.t :=
  match builtin_type with
  | BuiltinType.Bool => Some (MappedType.Simple "bool" "bool")
  | BuiltinType.Float => Some (MappedType.Simple "f32" "float")
  | BuiltinType.Double => Some (MappedType.Simple "f64" "double")
  | BuiltinType.Void => Some MappedType.Void
  | _ =>
      if BuiltinType.isIntegerType builtin_type then
        let size := getTypeSize ctx builtin_type in
        if (size =? 8) || (size =? 16) || (size =? 32) || (size =? 64) then
          Some (MappedType.Simple
                  ((if BuiltinType.isSignedInteger builtin_type then "i" else "u")
                     +:+ pretty size)
                  type_string)
        else None
      else None
  end.

(** The arms of [ConvertType] below the pointer and reference arms:
    builtin, tag and typedef types, none of them desugaring a typedef. *)
Definition ConvertNonPointerType (ctx : ASTContext) (known_type_decls : gset N)
    (qual_type : QualType) (type_string : string) : option MappedType.t :=
  match getAsAdjusted_BuiltinType qual_type with
  | Some builtin_type => ConvertBuiltinType ctx builtin_type type_string
  | None =>
    match getAsAdjusted_TagType qual_type with
    | Some tag_decl =>
        if bool_decide (tag_ptr tag_decl ∈ known_type_decls) then
          match GetTranslatedIdentifier (tag_named tag_decl) with
          | Some id =>
              let ident := Ident id in
              let decl_id := GenerateDeclId (tag_canonical_ptr tag_decl) in
              Some (MappedType.WithDeclIds ident decl_id ident decl_id)
          | None => None
          end
        else None
    | None =>
      match getAsAdjusted_TypedefType qual_type with
      | Some typedef_name_decl =>
          if bool_decide (typedef_ptr typedef_name_decl ∈ known_type_decls) then
            match GetTranslatedIdentifier (typedef_named typedef_name_decl) with
            | Some id =>
                let ident := Ident id in
                let decl_id := GenerateDeclId (typedef_canonical_ptr typedef_name_decl) in
                Some (MappedType.WithDeclIds ident decl_id ident decl_id)
            | None => None
            end
          else None
      | None => None
      end
    end
  end.

Definition UnsupportedTypeError (type_string : string) : Status :=
  SetPayload kTypeStatusPayloadUrl type_string
    (UnimplementedError ("Unsupported type '" +:+ type_string +:+ "'")).

(** The end of [ConvertType]: the error when no arm produced a type, else
    the type with the cv-qualification of [qual_type] on its cc side. *)
Definition ConvertType_finish (qual_type : QualType) (type_string : string)
    (type : option MappedType.t) : StatusOr MappedType.t :=
  match type with
  | None => inl (UnsupportedTypeError type_string)
  | Some t => inr (MappedType.SetCcIsConst (isConstQualified qual_type) t)
  end.

Definition value_or_nullopt {A} (r : StatusOr A) : option A :=
  match r with inr v => Some v | inl _ => None end.

Fixpoint ConvertType (self : AstVisitor) (qual_type : QualType)
    (lifetimes : option devtools_rust.TypeLifetimes) (nullable : bool)
    {struct qual_type} : Checked (StatusOr MappedType.t) :=
  let type_string := getAsString (getUnqualifiedType qual_type) in
  type ←
    match fixed_flat_map_find kWellKnownTypes type_string with
    | Some rs_name => Some (Some (MappedType.Simple rs_name type_string))
    | None =>
      match qual_type with
      | mkQualType _ _ (Pointer pointee) =>
          '(lifetime, lifetimes) ← take_lifetime lifetimes;
          pointee_type ← ConvertType self pointee lifetimes ConvertType_default_nullable;
          Some (p ← value_or_nullopt pointee_type;
                Some (MappedType.PointerTo p lifetime nullable))
      | mkQualType _ _ (LValueReference pointee) =>
          '(lifetime, lifetimes) ← take_lifetime lifetimes;
          pointee_type ← ConvertType self pointee lifetimes ConvertType_default_nullable;
          Some (p ← value_or_nullopt pointee_type;
                Some (MappedType.LValueReferenceTo p lifetime))
      | _ =>
          Some (ConvertNonPointerType (ctx_ self) (known_type_decls_ self)
                                      qual_type type_string)
      end
    end;
  Some (ConvertType_finish qual_type type_string type).

(** ** Sorting

    [std::stable_sort] is specified by its contract: the result is ordered
    by the comparator and elements that compare equivalent keep their
    order.  This insertion sort meets it: an element is moved only past
    elements that compare strictly before it.  [std::sort] on the lifetime
    parameters is taken to be the same function. *)
Section StableSort.
Context {A : Type} (comp : A → A → bool).

Fixpoint stable_insert (x : A) (l : list A) : list A :=
  match l with
  | [] => [x]
  | y :: l' => if comp y x then y :: stable_insert x l' else x :: y :: l'
  end.

Fixpoint stable_sort (l : list A) : list A :=
  match l with
  | [] => []
  | x :: l' => stable_insert x (stable_sort l')
  end.
End StableSort.

(** ** Helpers of the importers *)

(** [if (filename.startswith("./")) filename = filename.substr(2);] *)
Definition strip_dot_slash (filename : string) : string :=
  match filename with
  | String "."%char (String "/"%char rest) => rest
  | _ => filename
  end.

Fixpoint GetOwningTarget_loop (headers_to_targets : gmap HeaderName BlazeLabel)
    (include_stack : list IncludeFrame) : BlazeLabel :=
  match include_stack with
  | [] => "//:virtual_clang_resource_dir_target"
  | frame :: includers =>
      if isInSystemHeader frame then "//:virtual_clang_resource_dir_target"
      else
        match getNonBuiltinFilenameForID frame with
        | None => "//:builtin"
        | Some filename =>
            match headers_to_targets !! strip_dot_slash filename with
            | Some target => target
            | None => GetOwningTarget_loop headers_to_targets includers
            end
        end
  end.

Definition GetOwningTarget (self : AstVisitor) (decl : DeclCommon) : BlazeLabel :=
  GetOwningTarget_loop (headers_to_targets_ self) (getLocation_include_stack decl).

Definition IsFromCurrentTarget (self : AstVisitor) (decl : DeclCommon) : bool :=
  String.eqb (current_target_ self) (GetOwningTarget self decl).

Definition GetComment (raw_comment : option RawComment) : option string :=
  match raw_comment with
  | None => None
  | Some c => Some (getFormattedText c)
  end.

Definition ConvertSourceLocation (self : AstVisitor) (loc : SourceLocation) : SourceLoc :=
  let sm := getSourceManager (ctx_ self) in
  mkSourceLoc (strip_dot_slash (getFilename sm loc))
              (getSpellingLineNumber sm loc) (getSpellingColumnNumber sm loc).

Definition PushUnsupportedItem (self : AstVisitor) (decl : DeclCommon)
    (message : string) (source_location : SourceLocation) : AstVisitor :=
  if negb (IsFromCurrentTarget self decl) then self
  else
    let name :=
      if isa_NamedDecl decl then getQualifiedNameAsString (named decl)
      else "unnamed" in
    set_seen_decls_
      (seen_push_back (seen_decls_ self) (getCanonicalDecl decl)
         (IR.ItemUnsupported
            (UnsupportedItem.mk name message
               (ConvertSourceLocation self source_location))))
      self.

Definition GetMangledName (function_decl : FunctionDecl) : string :=
  let decl :=
    match dyn_cast_CXXMethodDecl function_decl with
    | Some method_decl =>
        match method_class method_decl with
        | Method_Destructor => GD_Dtor_Complete
        | Method_Constructor => GD_Ctor_Complete
        | _ => GD_Unary
        end
    | None => GD_Unary
    end in
  mangleName function_decl decl.

(** Modelled from the spec: [TranslateAccessSpecifier] of the absent
    ast_convert.h.  The IR has the access levels [{public|protected|private}]
    (section 3, Field); there is no level for [AS_none]. *)
Definition TranslateAccessSpecifier (access : AccessSpecifier) : Checked IrAccessSpecifier :=
  match access with
  | AS_public => Some kPublic
  | AS_protected => Some kProtected
  | AS_private => Some kPrivate
  | AS_none => None
  end.

(** ** Function importer *)

(** The locals of [VisitFunctionDecl] that its loops update. *)
Record FunctionImport := mkFunctionImport {
  fi_self : AstVisitor;
  fi_params : list FuncParam;
  fi_success : bool;
  fi_all_lifetimes : list devtools_rust.Lifetime
}.

(** The implicit [this] parameter of a non-static member function. *)
Definition ImportThisParam (decl : DeclCommon) (function_decl : FunctionDecl)
    (st : FunctionImport) : Checked FunctionImport :=
  match dyn_cast_CXXMethodDecl function_decl with
  | Some method_decl =>
      if isInstance method_decl then
        let this_lifetimes :=
          devtools_rust.this_lifetimes <$> GetLifetimeAnnotations function_decl in
        let all_lifetimes := fi_all_lifetimes st ++ default [] this_lifetimes in
        param_type ← ConvertType (fi_self st) (getThisType method_decl)
                                 this_lifetimes false;
        match param_type with
        | inl status =>
            Some (mkFunctionImport
                    (PushUnsupportedItem (fi_self st) decl (Status_ToString status)
                                         (getBeginLoc decl))
                    (fi_params st) false all_lifetimes)
        | inr t =>
            Some (mkFunctionImport (fi_self st)
                    (fi_params st ++ [mkFuncParam t (mkIdentifier "__this")])
                    (fi_success st) all_lifetimes)
        end
      else Some st
  | None => Some st
  end.

(** One iteration of the loop over the parameters. *)
Definition ImportParam (decl : DeclCommon) (function_decl : FunctionDecl)
    (i : nat) (param : ParmVarDecl) (st : FunctionImport) : Checked FunctionImport :=
  param_lifetimes ←
    match GetLifetimeAnnotations function_decl with
    | None => Some None
    | Some lifetimes => Some <$> (devtools_rust.param_lifetimes lifetimes !! i)
    end;
  let all_lifetimes := fi_all_lifetimes st ++ default [] param_lifetimes in
  param_type ← ConvertType (fi_self st) (parm_getType param) param_lifetimes
                           ConvertType_default_nullable;
  match param_type with
  | inl _ =>
      Some (mkFunctionImport
              (PushUnsupportedItem (fi_self st) decl
                 ("Parameter type '" +:+ getAsString (parm_getType param)
                    +:+ "' is not supported")
                 (parm_getBeginLoc param))
              (fi_params st) false all_lifetimes)
  | inr t =>
      let st :=
        match dyn_cast_RecordType (parm_getType param) with
        | Some record_decl =>
            if negb (canPassInRegisters record_decl) then
              mkFunctionImport
                (PushUnsupportedItem (fi_self st) decl
                   ("Non-trivial_abi type '" +:+ getAsString (parm_getType param)
                      +:+ "' is not supported by value as a parameter")
                   (parm_getBeginLoc param))
                (fi_params st) false all_lifetimes
            else mkFunctionImport (fi_self st) (fi_params st) (fi_success st) all_lifetimes
        | None => mkFunctionImport (fi_self st) (fi_params st) (fi_success st) all_lifetimes
        end in
      param_name ← GetTranslatedIdentifier (parm_named param);
      Some (mkFunctionImport (fi_self st)
              (fi_params st ++ [mkFuncParam t param_name])
              (fi_success st) (fi_all_lifetimes st))
  end.

Fixpoint ImportParams (decl : DeclCommon) (function_decl : FunctionDecl)
    (i : nat) (params : list ParmVarDecl) (st : FunctionImport)
    : Checked FunctionImport :=
  match params with
  | [] => Some st
  | param :: rest =>
      st ← ImportParam decl function_decl i param st;
      ImportParams decl function_decl (S i) rest st
  end.

(** The check of a record returned by value and the conversion of the
    return type. *)
Definition ImportReturnType (decl : DeclCommon) (function_decl : FunctionDecl)
    (st : FunctionImport) : Checked (FunctionImport * StatusOr MappedType.t) :=
  let return_qual_type := getReturnType function_decl in
  let st :=
    match dyn_cast_RecordType return_qual_type with
    | Some record_decl =>
        if negb (canPassInRegisters record_decl) then
          mkFunctionImport
            (PushUnsupportedItem (fi_self st) decl
               ("Non-trivial_abi type '" +:+ getAsString return_qual_type
                  +:+ "' is not supported by value as a return type")
               (getReturnTypeSourceRange_begin function_decl))
            (fi_params st) false (fi_all_lifetimes st)
        else st
    | None => st
    end in
  let return_lifetimes :=
    devtools_rust.return_lifetimes <$> GetLifetimeAnnotations function_decl in
  let all_lifetimes := fi_all_lifetimes st ++ default [] return_lifetimes in
  return_type ← ConvertType (fi_self st) return_qual_type return_lifetimes
                            ConvertType_default_nullable;
  match return_type with
  | inl _ =>
      Some (mkFunctionImport
              (PushUnsupportedItem (fi_self st) decl
                 ("Return type '" +:+ getAsString return_qual_type
                    +:+ "' is not supported")
                 (getReturnTypeSourceRange_begin function_decl))
              (fi_params st) false all_lifetimes,
            return_type)
  | inr _ =>
      Some (mkFunctionImport (fi_self st) (fi_params st) (fi_success st) all_lifetimes,
            return_type)
  end.

Definition LookupLifetime (table : devtools_rust.LifetimeSymbolTable)
    (lifetime : devtools_rust.Lifetime) : option string :=
  match list_find (λ e, e.1 = lifetime) table with
  | Some (_, e) => Some e.2
  | None => None
  end.

(** The lifetime parameters: every distinct lifetime seen, named through the
    symbol table ([CHECK(name.has_value())]) and sorted by name. *)
Definition CollectLifetimeParams (table : devtools_rust.LifetimeSymbolTable)
    (all_lifetimes : list devtools_rust.Lifetime) : Checked (list Lifetime) :=
  lifetime_params ←
    mapM (λ lifetime,
            name ← LookupLifetime table lifetime;
            Some (mkIrLifetime name (mkLifetimeId (devtools_rust.Id lifetime))))
         (remove_dups all_lifetimes);
  Some (stable_sort (λ l1 l2, String.ltb (lifetime_name l1) (lifetime_name l2))
                    lifetime_params).

Definition GetMemberFuncMetadata (method_decl : CXXMethodDecl) : MemberFuncMetadata :=
  let instance_metadata :=
    if isInstance method_decl then
      Some (mkInstanceMethodMetadata
              (match getRefQualifier method_decl with
               | RQ_LValue => kLValue
               | RQ_RValue => kRValue
               | RQ_None => kUnqualified
               end)
              (isConst method_decl) (isVirtual method_decl))
    else None in
  mkMemberFuncMetadata (GenerateDeclId (getParent_canonical_ptr method_decl))
                       instance_metadata.

Definition VisitFunctionDecl (self : AstVisitor) (decl : DeclCommon)
    (function_decl : FunctionDecl) : Checked AstVisitor :=
  if negb (IsFromCurrentTarget self decl) then Some self
  else if isDeleted function_decl then Some self
  else
    st ← ImportThisParam decl function_decl (mkFunctionImport self [] true []);
    _ ← match GetLifetimeAnnotations function_decl with
        | Some lifetimes =>
            CHECK (bool_decide (length (devtools_rust.param_lifetimes lifetimes)
                                = length (parameters function_decl)))
        | None => Some tt
        end;
    st ← ImportParams decl function_decl 0 (parameters function_decl) st;
    '(st, return_type) ← ImportReturnType decl function_decl st;
    lifetime_params ←
      CollectLifetimeParams (lifetime_symbol_table function_decl) (fi_all_lifetimes st);
    let self := fi_self st in
    let publish (member_func_metadata : option MemberFuncMetadata) :=
      match GetTranslatedName (named decl), return_type with
      | Some translated_name, inr return_type =>
          if fi_success st then
            set_seen_decls_
              (seen_push_back (seen_decls_ self) (getCanonicalDecl decl)
                 (IR.ItemFunc
                    (Func.mk translated_name (GetOwningTarget self decl)
                       (GetComment (getRawCommentForDeclNoCache decl))
                       (GetMangledName function_decl) return_type (fi_params st)
                       lifetime_params (isInlined function_decl)
                       member_func_metadata
                       (ConvertSourceLocation self (getBeginLoc decl)))))
              self
          else self
      | _, _ => self
      end in
    match dyn_cast_CXXMethodDecl function_decl with
    | Some method_decl =>
        match getAccess method_decl with
        | AS_public => Some (publish (Some (GetMemberFuncMetadata method_decl)))
        | AS_protected | AS_private | AS_none => Some self
        end
    | None => Some (publish None)
    end.

(** ** Record importer *)

(** [ImportFields]: the fields imported so far are in [fields]; the result
    is [None] as soon as one field fails, after the unsupported item for it
    has been pushed on the record. *)
Fixpoint ImportFields_loop (self : AstVisitor) (definition : DeclCommon)
    (record_decl : RecordDefinition) (default_access : AccessSpecifier) (field_decls : list FieldDecl)
    (fields : list Field.t) : Checked (AstVisitor * option (list Field.t)) :=
  match field_decls with
  | [] => Some (self, Some fields)
  | field_decl :: rest =>
      type ← ConvertType self (field_getType field_decl)
                         ConvertType_default_lifetimes ConvertType_default_nullable;
      match type with
      | inl _ =>
          Some (PushUnsupportedItem self definition
                  ("Field type '" +:+ getAsString (field_getType field_decl)
                     +:+ "' is not supported")
                  (field_getBeginLoc field_decl),
                None)
      | inr type =>
          let access :=
            match field_getAccess field_decl with
            | AS_none => default_access
            | access => access
            end in
          match GetTranslatedIdentifier (field_named field_decl) with
          | None =>
              Some (PushUnsupportedItem self definition
                      ("Cannot translate name for field '"
                         +:+ getName (field_named field_decl) +:+ "'")
                      (field_getBeginLoc field_decl),
                    None)
          | Some field_name =>
              access ← TranslateAccessSpecifier access;
              ImportFields_loop self definition record_decl default_access rest
                (fields ++
                   [Field.mk field_name (GetComment (field_raw_comment field_decl))
                      type access
                      (getFieldOffset (getASTRecordLayout record_decl)
                                      (getFieldIndex field_decl))])
          end
      end
  end.

Definition ImportFields (self : AstVisitor) (definition : DeclCommon)
    (record_decl : RecordDefinition) (default_access : AccessSpecifier)
    : Checked (AstVisitor * option (list Field.t)) :=
  ImportFields_loop self definition record_decl default_access
                    (record_fields record_decl) [].

Definition VisitRecordDecl (self : AstVisitor) (decl : DeclCommon)
    (record_decl : RecordDecl) : Checked AstVisitor :=
  let decl_context := getDeclContext decl in
  if from_option isFunctionOrMethod false decl_context then Some self
  else if from_option isRecord false decl_context then
    Some (PushUnsupportedItem self decl "Nested classes are not supported yet"
                              (getBeginLoc decl))
  else if isUnion record_decl then
    Some (PushUnsupportedItem self decl "Unions are not supported yet"
                              (getBeginLoc decl))
  else
    match getDefinition record_decl with
    | None => Some self
    | Some record_decl =>
      if isInvalidDecl record_decl || negb (isCompleteDefinition record_decl)
      then Some self
      else
        let definition := def_common decl record_decl in
        let cxx_record_decl := dyn_cast_CXXRecordDecl record_decl in
        if from_option
             (λ cxx, getDescribedClassTemplate cxx
                     || isa_ClassTemplateSpecializationDecl cxx)
             false cxx_record_decl
        then
          Some (PushUnsupportedItem self definition
                  "Class templates are not supported yet" (getBeginLoc definition))
        else
          let default_access :=
            if from_option isClass false cxx_record_decl then AS_private
            else AS_public in
          let is_final := from_option isEffectivelyFinal true cxx_record_decl in
          match GetTranslatedIdentifier (named definition) with
          | None => Some self
          | Some record_name =>
              let self :=
                set_known_type_decls_
                  ({[ this_ptr definition ]} ∪ known_type_decls_ self) self in
              '(self, fields) ← ImportFields self definition record_decl default_access;
              match fields with
              | None =>
                  Some (set_known_type_decls_
                          (known_type_decls_ self ∖ {[ this_ptr definition ]}) self)
              | Some fields =>
                  let layout := getASTRecordLayout record_decl in
                  Some (set_seen_decls_
                          (seen_push_back (seen_decls_ self)
                             (getCanonicalDecl definition)
                             (IR.ItemRecord
                                (Record_.mk record_name
                                   (GenerateDeclId (canon_ptr (getCanonicalDecl definition)))
                                   (GetOwningTarget self definition)
                                   (GetComment (getRawCommentForDeclNoCache definition))
                                   fields (getSize layout) (getAlignment layout)
                                   (GetCopyCtorSpecialMemberFunc record_decl)
                                   (GetMoveCtorSpecialMemberFunc record_decl)
                                   (GetDestructorSpecialMemberFunc record_decl)
                                   (record_canPassInRegisters record_decl)
                                   is_final)))
                          self)
              end
          end
    end.

(** ** Typedef importer *)

Definition VisitTypedefNameDecl (self : AstVisitor) (decl : DeclCommon)
    (typedef_name_decl : TypedefNameDecl) : Checked AstVisitor :=
  let decl_context := getDeclContext decl in
  if from_option isFunctionOrMethod false decl_context then Some self
  else if from_option isRecord false decl_context then
    Some (PushUnsupportedItem self decl
            "Typedefs nested in classes are not supported yet" (getBeginLoc decl))
  else if fixed_flat_map_contains kWellKnownTypes
            (getAsString (getTypedefType typedef_name_decl))
  then Some self
  else
    (* [LOG(FATAL)] when the identifier cannot be translated *)
    identifier ← GetTranslatedIdentifier (named decl);
    underlying_type ← ConvertType self (getUnderlyingType typedef_name_decl)
                        ConvertType_default_lifetimes ConvertType_default_nullable;
    match underlying_type with
    | inr underlying_type =>
        let self :=
          set_known_type_decls_ ({[ this_ptr decl ]} ∪ known_type_decls_ self) self in
        Some (set_seen_decls_
                (seen_push_back (seen_decls_ self) (getCanonicalDecl decl)
                   (IR.ItemTypeAlias
                      (TypeAlias.mk identifier
                         (GenerateDeclId (canon_ptr (getCanonicalDecl decl)))
                         (GetOwningTarget self decl) underlying_type)))
                self)
    | inl status =>
        Some (PushUnsupportedItem self decl (Status_ToString status) (getBeginLoc decl))
    end.

(** ** Comment manager *)

Definition VisitTopLevelComment (cm : CommentManager) (comment : RawComment) : CommentManager :=
  mkCommentManager (current_file_ cm) (file_comments_ cm) (next_comment_ cm)
                   (comments_ cm ++ [comment]).

Definition FlushComments (cm : CommentManager) : CommentManager :=
  mkCommentManager (current_file_ cm) [] 0%nat
    (comments_ cm ++ drop (next_comment_ cm) (file_comments_ cm)).

Definition LoadComments (ctx : ASTContext) (cm : CommentManager) : CommentManager :=
  mkCommentManager (current_file_ cm)
    (file_comments_ cm ++ default [] (getCommentsInFile ctx (current_file_ cm)))
    0%nat (comments_ cm).

Definition same_comment (comment : RawComment) (decl_comment : option RawComment) : bool :=
  match decl_comment with
  | Some c => comment_ptr comment =? comment_ptr c
  | None => false
  end.

(** The first loop of [CommentManager::TraverseDecl], over the comments from
    [next_comment_] on: those that begin before the declaration are visited,
    except the declaration's own. *)
Fixpoint visit_comments_before (pending : list RawComment)
    (decl_comment : option RawComment) (decl_begin : SourceLocation)
    (cm : CommentManager) : CommentManager :=
  match pending with
  | comment :: rest =>
      if comment_getBeginLoc comment <? decl_begin then
        let cm := if same_comment comment decl_comment then cm
                  else VisitTopLevelComment cm comment in
        visit_comments_before rest decl_comment decl_begin
          (mkCommentManager (current_file_ cm) (file_comments_ cm)
                            (S (next_comment_ cm)) (comments_ cm))
      else cm
  | [] => cm
  end.

(** The second loop: the comments inside the declaration are skipped. *)
Fixpoint skip_comments_within (pending : list RawComment)
    (decl_end : SourceLocation) (cm : CommentManager) : CommentManager :=
  match pending with
  | comment :: rest =>
      if comment_getBeginLoc comment <? decl_end then
        skip_comments_within rest decl_end
          (mkCommentManager (current_file_ cm) (file_comments_ cm)
                            (S (next_comment_ cm)) (comments_ cm))
      else cm
  | [] => cm
  end.

Definition CommentManager_TraverseDecl (ctx : ASTContext) (cm : CommentManager)
    (decl : DeclCommon) (kind : DeclKind) : CommentManager :=
  let file := getFileID (getSourceManager ctx) (getBeginLoc decl) in
  if FileID_isInvalid file then cm
  else
    let cm :=
      if negb (file =? current_file_ cm) then
        let cm := FlushComments cm in
        LoadComments ctx
          (mkCommentManager file (file_comments_ cm) (next_comment_ cm) (comments_ cm))
      else cm in
    let cm :=
      visit_comments_before (drop (next_comment_ cm) (file_comments_ cm))
        (getRawCommentForDeclNoCache decl) (getBeginLoc decl) cm in
    if negb (isa_NamespaceDecl kind) then
      skip_comments_within (drop (next_comment_ cm) (file_comments_ cm))
        (getEndLoc decl) cm
    else cm.

(** ** Emitter *)

Definition local_order (decl : CanonicalDecl) : Z :=
  match canon_class decl with
  | Class_Record =>
      if from_option isRecord false (canon_getDeclContext decl) then 1%Z else 0%Z
  | Class_CXXConstructor isDefaultConstructor isCopyConstructor isMoveConstructor =>
      if isDefaultConstructor then 2%Z
      else if isCopyConstructor then 3%Z
      else if isMoveConstructor then 4%Z
      else 5%Z
  | Class_CXXDestructor => 6%Z
  | Class_Other => 7%Z
  end.

Definition KeyedItem : Type := SourceLocation * Z * IR.Item.

(** The vector [items] of [EmitIRItems] before it is sorted. *)
Definition collect_items (self : AstVisitor) : list KeyedItem :=
  flat_map (λ e : CanonicalDecl * list IR.Item,
              map (λ decl_item, (canon_getBeginLoc e.1, local_order e.1, decl_item)) e.2)
           (seen_decls_ self)
  ++ map (λ comment,
            (comment_getBeginLoc comment, 0%Z,
             IR.ItemComment (mkComment (getFormattedText comment))))
         (comments_ (comment_manager_ self)).

(** The comparator handed to [std::stable_sort]. *)
Definition items_before (sm : SourceManager) (a b : KeyedItem) : bool :=
  let aloc := a.1.1 in
  let bloc := b.1.1 in
  if negb (isValid aloc) || negb (isValid bloc) then
    negb (isValid aloc) && isValid bloc
  else
    isBeforeInTranslationUnit sm aloc bloc
    || ((aloc =? bloc) && (a.1.2 <? b.1.2)%Z).

Definition sorted_items (self : AstVisitor) : list KeyedItem :=
  stable_sort (items_before (getSourceManager (ctx_ self))) (collect_items self).

Definition EmitIRItems (self : AstVisitor) : AstVisitor :=
  set_ir_ (IR.mk (IR.used_headers (ir_ self)) (IR.current_target (ir_ self))
                 (IR.items (ir_ self) ++ map snd (sorted_items self)))
          self.

(** ** Traversal driver *)

(** [AstVisitor::TraverseDecl], with [Base::TraverseDecl] of
    [RecursiveASTVisitor] inlined: the [Visit...] function of the
    declaration's kind runs first, then the children are traversed in
    order; a translation unit goes through [TraverseTranslationUnitDecl]. *)
Fixpoint TraverseDecl (decl : Decl) (self : AstVisitor) {struct decl}
    : Checked AstVisitor :=
  match decl with
  | mkDecl common kind children =>
    if seen_contains (seen_decls_ self) (canon_ptr (getCanonicalDecl common))
       && negb (isa_NamespaceDecl kind)
    then Some self
    else if from_option isNamespace false (getDeclContext common) then
      Some (PushUnsupportedItem self common
              "Items contained in namespaces are not supported yet"
              (getBeginLoc common))
    else
      let decl_ast_context :=
        match kind with
        | Kind_TranslationUnit ast_context => ast_context
        | _ => ctx_ self
        end in
      let self :=
        set_comment_manager_
          (CommentManager_TraverseDecl decl_ast_context (comment_manager_ self)
                                       common kind)
          self in
      let traverse_children :=
        fix traverse_children (decls : list (option Decl)) (self : AstVisitor)
            : Checked AstVisitor :=
          match decls with
          | [] => Some self
          | None :: rest => traverse_children rest self
          | Some child :: rest =>
              self ← TraverseDecl child self;
              traverse_children rest self
          end in
      match kind with
      | Kind_TranslationUnit ast_context =>
          let self := set_ctx_ ast_context self in
          let self :=
            set_ir_ (IR.mk (IR.used_headers (ir_ self) ++ public_header_names_ self)
                           (current_target_ self) (IR.items (ir_ self)))
                    self in
          self ← traverse_children children self;
          let self :=
            set_comment_manager_ (FlushComments (comment_manager_ self)) self in
          Some (EmitIRItems self)
      | Kind_Function function_decl =>
          self ← VisitFunctionDecl self common function_decl;
          traverse_children children self
      | Kind_Record record_decl =>
          self ← VisitRecordDecl self common record_decl;
          traverse_children children self
      | Kind_TypedefName typedef_name_decl =>
          self ← VisitTypedefNameDecl self common typedef_name_decl;
          traverse_children children self
      | Kind_Namespace | Kind_Other => traverse_children children self
      end
  end.

(** [TraverseDecl] on a possibly null pointer. *)
Definition TraverseDecl_ptr (decl : option Decl) (self : AstVisitor) : Checked AstVisitor :=
  match decl with
  | None => Some self
  | Some decl => TraverseDecl decl self
  end.

(** The traversal of the children of a declaration, as a function of its
    own. *)
Fixpoint TraverseDecls (decls : list (option Decl)) (self : AstVisitor)
    : Checked AstVisitor :=
  match decls with
  | [] => Some self
  | None :: rest => TraverseDecls rest self
  | Some child :: rest =>
      self ← TraverseDecl child self;
      TraverseDecls rest self
  end.

(** * The vocabulary of the checked properties *)

(** ** Type mapper *)

Definition cc_is_pointer_name (n : string) : bool :=
  String.eqb n "*" || String.eqb n "&".
Definition rs_is_pointer_name (n : string) : bool :=
  String.eqb n "*mut" || String.eqb n "*const".

(** The two sides of a mapped type are parallel: both are leaves, or both
    are a pointer or reference around one pointee and the pointees are
    parallel; a [decl_id] is on both sides or on neither. *)
Inductive parallel : CcType → RsType → Prop :=
| parallel_non_pointer c r :
    cc_type_params c = [] → rs_type_params r = [] →
    (is_Some (cc_decl_id c) ↔ is_Some (rs_decl_id r)) →
    parallel c r
| parallel_pointer c r c' r' :
    cc_is_pointer_name (cc_name c) = true → rs_is_pointer_name (rs_name r) = true →
    cc_type_params c = [c'] → rs_type_params r = [r'] →
    parallel c' r' →
    cc_decl_id c = None → rs_decl_id r = None →
    parallel c r.

(** The number of pointer and reference wrappers nested at the top of a
    side. *)
Fixpoint cc_wrapper_depth (c : CcType) : nat :=
  match c with
  | mkCcType n _ [pointee] _ =>
      if cc_is_pointer_name n then S (cc_wrapper_depth pointee) else 0%nat
  | _ => 0%nat
  end.
Fixpoint rs_wrapper_depth (r : RsType) : nat :=
  match r with
  | mkRsType n [pointee] _ =>
      if rs_is_pointer_name n then S (rs_wrapper_depth pointee) else 0%nat
  | _ => 0%nat
  end.

Definition with_std_variants (names : list string) : list string :=
  names ++ map (λ n, "std::" +:+ n) names.

(** The well-known table as the specification lists it (section 4.1). *)
Definition well_known_table_spec : list (string * string) :=
  map (λ n, (n, "isize")) (with_std_variants ["ptrdiff_t"; "intptr_t"])
  ++ map (λ n, (n, "usize")) (with_std_variants ["size_t"; "uintptr_t"])
  ++ flat_map (λ w : N, map (λ n, (n, "i" +:+ pretty w))
                            (with_std_variants ["int" +:+ pretty w +:+ "_t"]))
              [8; 16; 32; 64]
  ++ flat_map (λ w : N, map (λ n, (n, "u" +:+ pretty w))
                            (with_std_variants ["uint" +:+ pretty w +:+ "_t"]))
              [8; 16; 32; 64]
  ++ [("char16_t", "u16"); ("char32_t", "u32"); ("wchar_t", "i32")].

(** The [nullable] flag of the outermost layer, when it is a pointer. *)
Fixpoint outer_pointer_nullable (m : MappedType.t) : option bool :=
  match m with
  | MappedType.PointerTo _ _ nullable => Some nullable
  | MappedType.SetCcIsConst _ m' => outer_pointer_nullable m'
  | _ => None
  end.

(** The pointee of the outermost pointer or reference layer. *)
Fixpoint pointee_of (m : MappedType.t) : option MappedType.t :=
  match m with
  | MappedType.PointerTo p _ _ | MappedType.LValueReferenceTo p _ => Some p
  | MappedType.SetCcIsConst _ m' => pointee_of m'
  | _ => None
  end.

(** The lifetimes of the pointer and reference layers, outermost first. *)
Fixpoint layer_lifetimes (m : MappedType.t) : list (option LifetimeId) :=
  match m with
  | MappedType.PointerTo p lifetime _
  | MappedType.LValueReferenceTo p lifetime => lifetime :: layer_lifetimes p
  | MappedType.SetCcIsConst _ m' => layer_lifetimes m'
  | _ => []
  end.

(** The layers [ConvertType] peels: the pointer and reference layers above
    the first type with a well-known spelling, if there is one. *)
Fixpoint peeled_layers (q : QualType) : nat :=
  match fixed_flat_map_find kWellKnownTypes (getAsString (getUnqualifiedType q)) with
  | Some _ => 0%nat
  | None =>
      match q with
      | mkQualType _ _ (Pointer pointee)
      | mkQualType _ _ (LValueReference pointee) => S (peeled_layers pointee)
      | _ => 0%nat
      end
  end.

Definition lifetime_id_of (l : devtools_rust.Lifetime) : LifetimeId :=
  mkLifetimeId (devtools_rust.Id l).

(** The arm of [ConvertType] that produced a type. *)
Inductive ConvertType_arm (self : AstVisitor) (qual_type : QualType)
    (lifetimes : option devtools_rust.TypeLifetimes) (nullable : bool)
    : MappedType.t → Prop :=
| arm_well_known rs_name :
    fixed_flat_map_find kWellKnownTypes (getAsString (getUnqualifiedType qual_type))
      = Some rs_name →
    ConvertType_arm self qual_type lifetimes nullable
      (MappedType.Simple rs_name (getAsString (getUnqualifiedType qual_type)))
| arm_pointer pointee lifetime rest p :
    fixed_flat_map_find kWellKnownTypes (getAsString (getUnqualifiedType qual_type))
      = None →
    getAs_PointerType qual_type = Some pointee →
    take_lifetime lifetimes = Some (lifetime, rest) →
    ConvertType self pointee rest ConvertType_default_nullable = Some (inr p) →
    ConvertType_arm self qual_type lifetimes nullable
      (MappedType.PointerTo p lifetime nullable)
| arm_reference pointee lifetime rest p :
    fixed_flat_map_find kWellKnownTypes (getAsString (getUnqualifiedType qual_type))
      = None →
    getAs_PointerType qual_type = None →
    getAs_LValueReferenceType qual_type = Some pointee →
    take_lifetime lifetimes = Some (lifetime, rest) →
    ConvertType self pointee rest ConvertType_default_nullable = Some (inr p) →
    ConvertType_arm self qual_type lifetimes nullable
      (MappedType.LValueReferenceTo p lifetime)
| arm_non_pointer t :
    fixed_flat_map_find kWellKnownTypes (getAsString (getUnqualifiedType qual_type))
      = None →
    getAs_PointerType qual_type = None →
    getAs_LValueReferenceType qual_type = None →
    ConvertNonPointerType (ctx_ self) (known_type_decls_ self) qual_type
      (getAsString (getUnqualifiedType qual_type)) = Some t →
    ConvertType_arm self qual_type lifetimes nullable t.

(** A type without pointee: what the arms below the pointer and reference
    arms build. *)
Definition is_leaf (t : MappedType.t) : Prop :=
  match t with
  | MappedType.Simple _ _ | MappedType.Void | MappedType.WithDeclIds _ _ _ _ => True
  | _ => False
  end.

(** ** Importers *)

(** Several items recorded under one declaration, in order. *)
Definition push_all (seen : list (CanonicalDecl * list IR.Item))
    (decl : CanonicalDecl) (items : list IR.Item) : list (CanonicalDecl * list IR.Item) :=
  fold_left (λ seen item, seen_push_back seen decl item) items seen.

(** The visitor after [items] were recorded under [decl] and nothing else
    changed. *)
Definition with_items (self : AstVisitor) (decl : CanonicalDecl)
    (items : list IR.Item) : AstVisitor :=
  set_seen_decls_ (push_all (seen_decls_ self) decl items) self.

Definition is_primary (i : IR.Item) : bool :=
  is_Func i || is_Record i || is_TypeAlias i.
Definition count_primary (items : list IR.Item) : nat :=
  length (List.filter is_primary items).

Definition seen_keys (seen : list (CanonicalDecl * list IR.Item)) : list N :=
  map (λ e, canon_ptr e.1) seen.

(** Every canonical declaration is a key of [seen_decls_] at most once and
    has at most one [Func], [Record] or [TypeAlias] item. *)
Definition dedup_ok (seen : list (CanonicalDecl * list IR.Item)) : Prop :=
  NoDup (seen_keys seen) ∧ Forall (λ e, (count_primary e.2 ≤ 1)%nat) seen.

Definition converts (self : AstVisitor) (qual_type : QualType)
    (lifetimes : option devtools_rust.TypeLifetimes) (nullable : bool) : bool :=
  match ConvertType self qual_type lifetimes nullable with
  | Some (inr _) => true
  | _ => false
  end.

(** The lifetimes [VisitFunctionDecl] passes for parameter [i]. *)
Definition lifetimes_of_param (function_decl : FunctionDecl) (i : nat)
    : option devtools_rust.TypeLifetimes :=
  lifetimes ← GetLifetimeAnnotations function_decl;
  devtools_rust.param_lifetimes lifetimes !! i.

Fixpoint param_types_translate (self : AstVisitor) (function_decl : FunctionDecl)
    (i : nat) (params : list ParmVarDecl) : bool :=
  match params with
  | [] => true
  | param :: rest =>
      converts self (parm_getType param) (lifetimes_of_param function_decl i)
               ConvertType_default_nullable
      && param_types_translate self function_decl (S i) rest
  end.

(** The type of the implicit [this] parameter, the parameter types and the
    return type of the function all translate. *)
Definition types_translate (self : AstVisitor) (function_decl : FunctionDecl) : bool :=
  match dyn_cast_CXXMethodDecl function_decl with
  | Some method_decl =>
      if isInstance method_decl then
        converts self (getThisType method_decl)
                 (devtools_rust.this_lifetimes <$> GetLifetimeAnnotations function_decl)
                 false
      else true
  | None => true
  end
  && param_types_translate self function_decl 0 (parameters function_decl)
  && converts self (getReturnType function_decl)
              (devtools_rust.return_lifetimes <$> GetLifetimeAnnotations function_decl)
              ConvertType_default_nullable.

Definition passable_by_value (qual_type : QualType) : bool :=
  match dyn_cast_RecordType qual_type with
  | Some record_decl => canPassInRegisters record_decl
  | None => true
  end.

(** No record is passed or returned by value that cannot be passed in
    registers. *)
Definition records_passable_by_value (function_decl : FunctionDecl) : bool :=
  forallb (λ param, passable_by_value (parm_getType param)) (parameters function_decl)
  && passable_by_value (getReturnType function_decl).

(** The guards of [VisitRecordDecl] up to the provisional insertion into
    [known_type_decls_]: the import of [record_decl], visited as [decl],
    reaches the import of the fields of its definition. *)
Record reaches_field_import (decl : DeclCommon) (record_decl : RecordDecl)
    (definition : RecordDefinition) (record_name : Identifier) : Prop := {
  rfi_not_local : from_option isFunctionOrMethod false (getDeclContext decl) = false;
  rfi_not_nested : from_option isRecord false (getDeclContext decl) = false;
  rfi_not_union : isUnion record_decl = false;
  rfi_definition : getDefinition record_decl = Some definition;
  rfi_complete : isInvalidDecl definition || negb (isCompleteDefinition definition) = false;
  rfi_not_template :
    from_option (λ cxx, getDescribedClassTemplate cxx
                        || isa_ClassTemplateSpecializationDecl cxx)
                false (dyn_cast_CXXRecordDecl definition) = false;
  rfi_name : GetTranslatedIdentifier (def_named definition) = Some record_name
}.

(** The visitor in which the fields of a record are imported. *)
Definition provisionally_known (self : AstVisitor) (definition : RecordDefinition)
    : AstVisitor :=
  set_known_type_decls_ ({[ def_this_ptr definition ]} ∪ known_type_decls_ self) self.

(** Translating the type or the name of the field fails. *)
Definition field_fails (self : AstVisitor) (field_decl : FieldDecl) : bool :=
  negb (converts self (field_getType field_decl) ConvertType_default_lifetimes
                 ConvertType_default_nullable)
  || match GetTranslatedIdentifier (field_named field_decl) with
     | Some _ => false
     | None => true
     end.

(** One step of the function importer: it records unsupported items only,
    and none at all when the success flag is still set after it. *)
Definition import_step (decl : CanonicalDecl) (st st' : FunctionImport) : Prop :=
  (∃ items, Forall (λ i, is_UnsupportedItem i = true) items
            ∧ fi_self st' = with_items (fi_self st) decl items)
  ∧ (fi_success st' = true → fi_self st' = fi_self st ∧ fi_success st = true).

(** ** Emitter *)

(** [isBeforeInTranslationUnit] is a strict total order on the valid
    locations of the translation unit. *)
Record orders_translation_unit (sm : SourceManager) : Prop := {
  before_irreflexive : ∀ a, isBeforeInTranslationUnit sm a a = false;
  before_transitive : ∀ a b c,
    isBeforeInTranslationUnit sm a b = true →
    isBeforeInTranslationUnit sm b c = true →
    isBeforeInTranslationUnit sm a c = true;
  before_total : ∀ a b,
    isValid a = true → isValid b = true → a ≠ b →
    isBeforeInTranslationUnit sm a b = true ∨ isBeforeInTranslationUnit sm b a = true
}.

(** The keys of an item of [collect_items]. *)
Definition key_loc (k : KeyedItem) : SourceLocation := k.1.1.
Definition key_order (k : KeyedItem) : Z := k.1.2.
Definition same_key (loc : SourceLocation) (order : Z) (k : KeyedItem) : bool :=
  (key_loc k =? loc) && (key_order k =? order)%Z.

(** The tiebreak as the specification lists it: 0 for top-level records, 1
    for nested records, 2, 3, 4, 5 for default, copy, move and other
    constructors, 6 for destructors, 7 otherwise. *)
Definition local_order_spec (decl : CanonicalDecl) : Z :=
  match canon_class decl with
  | Class_Record =>
      if from_option isRecord false (canon_getDeclContext decl) then 1%Z else 0%Z
  | Class_CXXConstructor true _ _ => 2%Z
  | Class_CXXConstructor false true _ => 3%Z
  | Class_CXXConstructor false false true => 4%Z
  | Class_CXXConstructor false false false => 5%Z
  | Class_CXXDestructor => 6%Z
  | Class_Other => 7%Z
  end.

(** The item of a collected comment. *)
Definition comment_item (comment : RawComment) : IR.Item :=
  IR.ItemComment (mkComment (getFormattedText comment)).

(** What the specification has sorted: every item recorded for a
    declaration, under the begin location of that declaration and its
    tiebreak, and every collected comment, under its own begin location and
    the tiebreak 0. *)
Definition keyed_by_position (self : AstVisitor) : list KeyedItem :=
  flat_map (λ e, map (λ item, (canon_getBeginLoc e.1, local_order_spec e.1, item)) e.2)
           (seen_decls_ self)
  ++ map (λ comment, (comment_getBeginLoc comment, 0%Z, comment_item comment))
         (comments_ (comment_manager_ self)).

(** The same without the keys: the items recorded for the declarations and
    the items of the collected comments. *)
Definition recorded_items (self : AstVisitor) : list IR.Item :=
  flat_map snd (seen_decls_ self)
  ++ map comment_item (comments_ (comment_manager_ self)).

(** The list is in source order: an item that begins earlier stands first,
    at one location the item with the smaller tiebreak stands first, and the
    items without valid location stand before all others. *)
Definition in_source_order (sm : SourceManager) (sorted : list KeyedItem) : Prop :=
  ∀ i j a b,
    sorted !! i = Some a → sorted !! j = Some b →
    (isValid (key_loc a) = true → isValid (key_loc b) = true →
     isBeforeInTranslationUnit sm (key_loc a) (key_loc b) = true → (i < j)%nat)
    ∧ (isValid (key_loc a) = true → isValid (key_loc b) = true →
       key_loc a = key_loc b → (key_order a < key_order b)%Z → (i < j)%nat)
    ∧ (isValid (key_loc a) = false → isValid (key_loc b) = true → (i < j)%nat).

(** ** Canonical declarations in the IR *)

(** The id of the declaration that a [Record] or a [TypeAlias] item stands
    for; a [Func] carries none. *)
Definition item_decl_id (item : IR.Item) : option DeclId :=
  match item with
  | IR.ItemRecord record => Some (Record_.id record)
  | IR.ItemTypeAlias alias => Some (TypeAlias.id alias)
  | _ => None
  end.

(** An item that carries an id carries that of the canonical declaration
    [decl]. *)
Definition item_owned_by (decl : CanonicalDecl) (item : IR.Item) : Prop :=
  ∀ id, item_decl_id item = Some id → id = GenerateDeclId (canon_ptr decl).

(** The items that carry an id are recorded under the canonical declaration
    of that id. *)
Definition ids_match (seen : list (CanonicalDecl * list IR.Item)) : Prop :=
  Forall (λ e, Forall (item_owned_by e.1) e.2) seen.

(** The [Func], [Record] and [TypeAlias] items recorded, each with the
    canonical declaration it is recorded for. *)
Definition primary_owners (seen : list (CanonicalDecl * list IR.Item))
    : list (CanonicalDecl * IR.Item) :=
  flat_map (λ e, map (λ item, (e.1, item)) (List.filter is_primary e.2)) seen.

(** ** The failing field *)

(** The message of [ImportFields] for a field that fails: for its type, if
    the type does not translate, else for its name. *)
Definition field_failure_message (self : AstVisitor) (field_decl : FieldDecl) : string :=
  if converts self (field_getType field_decl) ConvertType_default_lifetimes
              ConvertType_default_nullable
  then "Cannot translate name for field '" +:+ getName (field_named field_decl) +:+ "'"
  else "Field type '" +:+ getAsString (field_getType field_decl) +:+ "' is not supported".

(** The unsupported item of a record for its field [field_decl]: under the
    qualified name of the record, with the message for the field and the
    begin location of the field. *)
Definition field_failure_item (self : AstVisitor) (definition : DeclCommon)
    (field_decl : FieldDecl) : IR.Item :=
  IR.ItemUnsupported
    (UnsupportedItem.mk
       (if isa_NamedDecl definition then getQualifiedNameAsString (named definition)
        else "unnamed")
       (field_failure_message self field_decl)
       (ConvertSourceLocation self (field_getBeginLoc field_decl))).

(** * Further vocabulary *)

(** ** Type mapper *)

(** What [ConvertType] builds for the builtin kinds that its [switch] names,
    and for no other kind that is not an integer. *)
Definition named_builtin (k : BuiltinType.Kind) : option MappedType.t :=
  match k with
  | BuiltinType.Bool => Some (MappedType.Simple "bool" "bool")
  | BuiltinType.Float => Some (MappedType.Simple "f32" "float")
  | BuiltinType.Double => Some (MappedType.Simple "f64" "double")
  | BuiltinType.Void => Some MappedType.Void
  | _ => None
  end.

Fixpoint has_space (s : string) : bool :=
  match s with
  | EmptyString => false
  | String c rest => Ascii.eqb c " " || has_space rest
  end.

(** ** Record importer *)

(** The access of the members of a record that are declared under no access
    specifier: [default_access] of [VisitRecordDecl]. *)
Definition default_access_of (definition : RecordDefinition) : AccessSpecifier :=
  if from_option isClass false (dyn_cast_CXXRecordDecl definition) then AS_private
  else AS_public.

(** [field] is what [ImportFields] builds for [field_decl]. *)
Definition field_imported (self : AstVisitor) (record_decl : RecordDefinition)
    (default_access : AccessSpecifier) (field_decl : FieldDecl) (field : Field.t) : Prop :=
  GetTranslatedIdentifier (field_named field_decl) = Some (Field.identifier field)
  ∧ ConvertType self (field_getType field_decl) ConvertType_default_lifetimes
                ConvertType_default_nullable = Some (inr (Field.type field))
  ∧ Field.doc_comment field = GetComment (field_raw_comment field_decl)
  ∧ TranslateAccessSpecifier
      (match field_getAccess field_decl with
       | AS_none => default_access
       | access => access
       end) = Some (Field.access field)
  ∧ Field.offset field
    = getFieldOffset (getASTRecordLayout record_decl) (getFieldIndex field_decl).

(** A type that names the record [definition], possibly under pointer and
    reference layers: [S], [S *], [const S &], ... *)
Inductive refers_to_record (definition : RecordDefinition) : QualType → Prop :=
| refers_by_name quals tag_decl :
    tag_ptr tag_decl = def_this_ptr definition →
    tag_named tag_decl = def_named definition →
    fixed_flat_map_find kWellKnownTypes (tag_spelling tag_decl) = None →
    refers_to_record definition (mkQualType quals [] (Tag tag_decl))
| refers_by_pointer quals pointee :
    refers_to_record definition pointee →
    refers_to_record definition (mkQualType quals [] (Pointer pointee))
| refers_by_reference quals pointee :
    refers_to_record definition pointee →
    refers_to_record definition (mkQualType quals [] (LValueReference pointee)).

(** ** Owning targets *)

(** A header of the include stack that no target owns: not a system header,
    with a file name that [headers_to_targets_] does not map. *)
Definition is_textual_header (self : AstVisitor) (frame : IncludeFrame) : Prop :=
  isInSystemHeader frame = false
  ∧ ∃ filename, getNonBuiltinFilenameForID frame = Some filename
                ∧ headers_to_targets_ self !! strip_dot_slash filename = None.

(** ** Comment manager *)

Section While.
Context {A : Type} (p : A → bool).

Fixpoint take_while (l : list A) : list A :=
  match l with
  | x :: l' => if p x then x :: take_while l' else []
  | [] => []
  end.

Fixpoint drop_while (l : list A) : list A :=
  match l with
  | x :: l' => if p x then drop_while l' else l
  | [] => []
  end.
End While.

(** The comments of the current file from [next_comment_] on. *)
Definition pending_comments (cm : CommentManager) : list RawComment :=
  drop (next_comment_ cm) (file_comments_ cm).

Definition begins_before (loc : SourceLocation) (comment : RawComment) : bool :=
  comment_getBeginLoc comment <? loc.

(** ** Traversal *)

(** The configuration of the visitor: what its constructor is given. *)
Definition same_configuration (self self' : AstVisitor) : Prop :=
  public_header_names_ self' = public_header_names_ self
  ∧ current_target_ self' = current_target_ self
  ∧ headers_to_targets_ self' = headers_to_targets_ self.

(** An importer leaves all of the visitor but [seen_decls_] and
    [known_type_decls_] alone. *)
Definition importer_frame (self self' : AstVisitor) : Prop :=
  same_configuration self self'
  ∧ ctx_ self' = ctx_ self
  ∧ ir_ self' = ir_ self
  ∧ comment_manager_ self' = comment_manager_ self.

(** What the visitor has put out is extended, never rewritten. *)
Definition output_grows (self self' : AstVisitor) : Prop :=
  comments_ (comment_manager_ self) `prefix_of` comments_ (comment_manager_ self')
  ∧ IR.items (ir_ self) `prefix_of` IR.items (ir_ self')
  ∧ IR.used_headers (ir_ self) `prefix_of` IR.used_headers (ir_ self').

(** What is recorded for the declarations is extended, never rewritten. *)
Definition records_grow (self self' : AstVisitor) : Prop :=
  ∀ ptr, seen_lookup (seen_decls_ self) ptr `prefix_of` seen_lookup (seen_decls_ self') ptr.

(** A translation unit declaration occurs in the tree of [decl]. *)
Fixpoint has_translation_unit (decl : Decl) : bool :=
  match decl with
  | mkDecl _ kind children =>
      match kind with Kind_TranslationUnit _ => true | _ => false end
      || existsb (λ child, from_option has_translation_unit false child) children
  end.

(** ** Emitter *)

(** Two entries of [seen_decls_] whose items the comparator of
    [EmitIRItems] tells apart: their declarations do not share begin
    location and local order, and are not both without valid location. *)
Definition entries_apart (e1 e2 : CanonicalDecl * list IR.Item) : Prop :=
  (isValid (canon_getBeginLoc e1.1) = true ∨ isValid (canon_getBeginLoc e2.1) = true)
  ∧ (canon_getBeginLoc e1.1 ≠ canon_getBeginLoc e2.1
     ∨ local_order e1.1 ≠ local_order e2.1).

(** The items of one entry of [seen_decls_] with their sort keys. *)
Definition keyed_items (e : CanonicalDecl * list IR.Item) : list KeyedItem :=
  map (λ decl_item, (canon_getBeginLoc e.1, local_order e.1, decl_item)) e.2.

(** [y] is ordered neither before nor after [x] by the comparator. *)
Definition tied_with {A} (comp : A → A → bool) (x y : A) : bool :=
  negb (comp x y) && negb (comp y x).

(** ** Function importer *)

(** The parameters [VisitFunctionDecl] builds for the implicit [this] of a
    non-static member function: one, named [__this]; none for any other
    function. *)
Definition this_param_imported (self : AstVisitor) (function_decl : FunctionDecl)
    (params : list FuncParam) : Prop :=
  match dyn_cast_CXXMethodDecl function_decl with
  | Some method_decl =>
      if isInstance method_decl then
        ∃ t, ConvertType self (getThisType method_decl)
               (devtools_rust.this_lifetimes <$> GetLifetimeAnnotations function_decl)
               false = Some (inr t)
             ∧ params = [mkFuncParam t (mkIdentifier "__this")]
      else params = []
  | None => params = []
  end.

(** [p] is what [VisitFunctionDecl] builds for the parameter at position
    [i]. *)
Definition param_imported (self : AstVisitor) (function_decl : FunctionDecl)
    (i : nat) (param : ParmVarDecl) (p : FuncParam) : Prop :=
  ConvertType self (parm_getType param) (lifetimes_of_param function_decl i)
              ConvertType_default_nullable = Some (inr (param_type p))
  ∧ GetTranslatedIdentifier (parm_named param) = Some (param_identifier p)
  ∧ passable_by_value (parm_getType param) = true.

Fixpoint params_imported (self : AstVisitor) (function_decl : FunctionDecl)
    (i : nat) (params : list ParmVarDecl) (ps : list FuncParam) : Prop :=
  match params, ps with
  | [], [] => True
  | param :: params, p :: ps =>
      param_imported self function_decl i param p
      ∧ params_imported self function_decl (S i) params ps
  | _, _ => False
  end.

(** The declarations that a namespace contains directly. *)
Definition in_namespace_all (children : list (option Decl)) : Prop :=
  Forall (λ child,
            from_option
              (λ decl, from_option isNamespace false (getDeclContext (decl_common decl))
                       = true)
              True child) children.

(** From [self] to [self'] only unsupported items were recorded, and only
    under the canonical declarations [ptrs]. *)
Definition only_reported (ptrs : list N) (self self' : AstVisitor) : Prop :=
  known_type_decls_ self' = known_type_decls_ self
  ∧ ir_ self' = ir_ self
  ∧ comment_manager_ self' = comment_manager_ self
  ∧ ∀ ptr,
      (∃ items, seen_lookup (seen_decls_ self') ptr
                = seen_lookup (seen_decls_ self) ptr ++ items
                ∧ Forall (λ i, is_UnsupportedItem i = true) items)
      ∧ (seen_contains (seen_decls_ self') ptr = true →
         seen_contains (seen_decls_ self) ptr = true ∨ ptr ∈ ptrs).

Definition canonical_ptrs (children : list (option Decl)) : list N :=
  omap (λ child : option Decl,
          (λ decl, canon_ptr (getCanonicalDecl (decl_common decl))) <$> child)
       children.

(** What the [CHECK]s of the importer of a declaration rely on, when the
    function has no lifetime annotations: the parameters of a function and a
    typedef have translated names. *)
Definition importer_checks_hold (common : DeclCommon) (kind : DeclKind) : bool :=
  match kind with
  | Kind_Function function_decl =>
      match GetLifetimeAnnotations function_decl with
      | None => true
      | Some _ => false
      end
      && forallb (λ param,
                    bool_decide (is_Some (GetTranslatedIdentifier (parm_named param))))
                 (parameters function_decl)
  | Kind_TypedefName _ => bool_decide (is_Some (GetTranslatedIdentifier (named common)))
  | _ => true
  end.

Fixpoint checks_hold (decl : Decl) : bool :=
  match decl with
  | mkDecl common kind children =>
      importer_checks_hold common kind
      && forallb (λ child, from_option checks_hold true child) children
  end.

(** The unsupported items the function importer has cause to report: one
    for the type of [this], one for each parameter whose type does not
    translate or else is a record that cannot be passed in registers, one
    for such a record returned by value and one for a return type that does
    not translate. *)
Definition this_reports (self : AstVisitor) (function_decl : FunctionDecl) : nat :=
  match dyn_cast_CXXMethodDecl function_decl with
  | Some method_decl =>
      if isInstance method_decl
         && negb (converts self (getThisType method_decl)
                    (devtools_rust.this_lifetimes <$> GetLifetimeAnnotations function_decl)
                    false)
      then 1%nat else 0%nat
  | None => 0%nat
  end.

Definition param_reports (self : AstVisitor) (function_decl : FunctionDecl)
    (i : nat) (param : ParmVarDecl) : nat :=
  if converts self (parm_getType param) (lifetimes_of_param function_decl i)
              ConvertType_default_nullable
     && passable_by_value (parm_getType param)
  then 0%nat else 1%nat.

Fixpoint params_reports (self : AstVisitor) (function_decl : FunctionDecl)
    (i : nat) (params : list ParmVarDecl) : nat :=
  match params with
  | [] => 0%nat
  | param :: rest =>
      (param_reports self function_decl i param
       + params_reports self function_decl (S i) rest)%nat
  end.

Definition return_reports (self : AstVisitor) (function_decl : FunctionDecl) : nat :=
  ((if passable_by_value (getReturnType function_decl) then 0 else 1)
   + (if converts self (getReturnType function_decl)
           (devtools_rust.return_lifetimes <$> GetLifetimeAnnotations function_decl)
           ConvertType_default_nullable
      then 0 else 1))%nat.

Definition expected_reports (self : AstVisitor) (function_decl : FunctionDecl) : nat :=
  (this_reports self function_decl
   + params_reports self function_decl 0 (parameters function_decl)
   + return_reports self function_decl)%nat.

(** A step of the function importer that reports [k] unsupported items and
    clears the success flag when it reports any. *)
Definition reports_step (decl : DeclCommon) (k : nat) (st st' : FunctionImport) : Prop :=
  ∃ items, Forall (λ i, is_UnsupportedItem i = true) items
           ∧ length items = k
           ∧ fi_self st' = with_items (fi_self st) (getCanonicalDecl decl) items
           ∧ fi_success st' = fi_success st && bool_decide (k = 0%nat).

(** The states the function importer goes through: [self] with unsupported
    items recorded for [decl]. *)
Definition reporting (self : AstVisitor) (decl : DeclCommon) (st : FunctionImport) : Prop :=
  ∃ items, fi_self st = with_items self (getCanonicalDecl decl) items.

(** A mapped type without the lifetimes of its pointer and reference
    layers. *)
Fixpoint erase_lifetimes (m : MappedType.t) : MappedType.t :=
  match m with
  | MappedType.PointerTo p _ nullable =>
      MappedType.PointerTo (erase_lifetimes p) None nullable
  | MappedType.LValueReferenceTo p _ => MappedType.LValueReferenceTo (erase_lifetimes p) None
  | MappedType.SetCcIsConst b m' => MappedType.SetCcIsConst b (erase_lifetimes m')
  | _ => m
  end.

(** A mapped type with the [nullable] flag of its outermost layer set, when
    that layer is a pointer. *)
Fixpoint set_outer_nullable (nullable : bool) (m : MappedType.t) : MappedType.t :=
  match m with
  | MappedType.PointerTo p lifetime _ => MappedType.PointerTo p lifetime nullable
  | MappedType.SetCcIsConst b m' => MappedType.SetCcIsConst b (set_outer_nullable nullable m')
  | _ => m
  end.

(** The lifetimes that the annotations of a function name: those of [this]
    for a non-static member function, those of the parameters in order and
    those of the return type; none without annotations. *)
Definition annotated_lifetimes (function_decl : FunctionDecl)
    : list devtools_rust.Lifetime :=
  match GetLifetimeAnnotations function_decl with
  | None => []
  | Some lifetimes =>
      match dyn_cast_CXXMethodDecl function_decl with
      | Some method_decl =>
          if isInstance method_decl then devtools_rust.this_lifetimes lifetimes else []
      | None => []
      end
      ++ concat (devtools_rust.param_lifetimes lifetimes)
      ++ devtools_rust.return_lifetimes lifetimes
  end.

(** * Concrete inputs *)

Module Examples.

(** An x86-64 Linux target. *)
Definition x86_64_getTypeSize (k : BuiltinType.Kind) : N :=
  match k with
  | BuiltinType.Void => 0
  | BuiltinType.Bool | BuiltinType.Char_U | BuiltinType.UChar
  | BuiltinType.Char_S | BuiltinType.SChar | BuiltinType.Char8 => 8
  | BuiltinType.Char16 | BuiltinType.UShort | BuiltinType.Short
  | BuiltinType.Half => 16
  | BuiltinType.WChar_U | BuiltinType.WChar_S | BuiltinType.Char32
  | BuiltinType.UInt | BuiltinType.Int | BuiltinType.Float => 32
  | BuiltinType.ULong | BuiltinType.ULongLong | BuiltinType.Long
  | BuiltinType.LongLong | BuiltinType.Double | BuiltinType.NullPtr => 64
  | BuiltinType.UInt128 | BuiltinType.Int128 | BuiltinType.LongDouble
  | BuiltinType.Float128 => 128
  end.

(** One header; locations are offsets into it, ordered as such. *)
Definition sm : SourceManager :=
  mkSourceManager N.ltb (λ loc, if loc =? 0 then 0 else 1)
    (λ _, "./test/testing_header_0.h") (λ loc, loc) (λ _, 1).

Definition ctx : ASTContext := mkASTContext sm x86_64_getTypeSize (λ _, None).

Definition target : BlazeLabel := "//test:testing_target".

Definition visitor : AstVisitor :=
  mkAstVisitor ["test/testing_header_0.h"] target
    {[ "test/testing_header_0.h" := target ]} ctx
    (IR.mk [] "" []) [] ∅ (mkCommentManager 0 [] 0%nat []).

Definition in_header : list IncludeFrame :=
  [mkIncludeFrame false (Some "./test/testing_header_0.h")].

Definition unqualified : Qualifiers := mkQualifiers false false.
Definition builtin (k : BuiltinType.Kind) : QualType :=
  mkQualType unqualified [] (Builtin k).
Definition pointer_to (q : QualType) : QualType :=
  mkQualType unqualified [] (Pointer q).
Definition reference_to (q : QualType) : QualType :=
  mkQualType unqualified [] (LValueReference q).

Definition int_type : QualType := builtin BuiltinType.Int.
Definition int128_type : QualType := builtin BuiltinType.Int128.
Definition int_ptr : QualType := pointer_to int_type.
Definition int_ptr_ptr : QualType := pointer_to int_ptr.
Definition int_ptr_ref : QualType := reference_to int_ptr.

(** [typedef unsigned long size_t;] and the type [const size_t]. *)
Definition size_t_sugar : TypedefSugar :=
  mkTypedefSugar 100 100 (mkNamedDecl NK_Identifier "size_t" "size_t" None)
    "size_t" unqualified.
Definition const_size_t : QualType :=
  mkQualType (mkQualifiers true false) [size_t_sugar] (Builtin BuiltinType.ULong).

Definition lifetime_a := devtools_rust.mkLifetime 1.
Definition lifetime_b := devtools_rust.mkLifetime 2.

(** [class S { void f(T x); };] with [f] private, [S] already imported. *)
Definition S_tag : TagDecl :=
  mkTagDecl 10 10 (mkNamedDecl NK_Identifier "S" "S" None) "S" true true.
Definition S_ptr : QualType := pointer_to (mkQualType unqualified [] (Tag S_tag)).
Definition visitor_knowing_S : AstVisitor := set_known_type_decls_ {[ 10 ]} visitor.

Definition method_f_canonical : CanonicalDecl :=
  mkCanonicalDecl 20 Class_Other (Some DC_Record) 5.
Definition method_f_common : DeclCommon :=
  mkDeclCommon 20 method_f_canonical (Some DC_Record) 5 6 in_header None true
    (mkNamedDecl NK_Identifier "f" "S::f" None).
Definition private_method_f (param_type : QualType) : FunctionDecl :=
  mkFunctionDecl false None []
    (Some (mkCXXMethodDecl Method_Plain true S_ptr AS_private RQ_None false false 10))
    [mkParmVarDecl param_type 5 (mkNamedDecl NK_Identifier "x" "x" (Some 0))]
    (builtin BuiltinType.Void) 5 false (λ _, "_ZN1S1fEn").

(** [struct N { N(const N&); };], imported, not passable in registers, and
    [bool operator==(T a, T b);]. *)
Definition N_tag : TagDecl :=
  mkTagDecl 11 11 (mkNamedDecl NK_Identifier "N" "N" None) "N" true false.
Definition N_type : QualType := mkQualType unqualified [] (Tag N_tag).
Definition visitor_knowing_N : AstVisitor := set_known_type_decls_ {[ 11 ]} visitor.

Definition operator_eq_canonical : CanonicalDecl :=
  mkCanonicalDecl 30 Class_Other (Some DC_TranslationUnit) 7.
Definition operator_eq_common : DeclCommon :=
  mkDeclCommon 30 operator_eq_canonical (Some DC_TranslationUnit) 7 8 in_header None
    true (mkNamedDecl NK_CXXOperatorName "" "operator==" None).
Definition operator_eq (param_type : QualType) : FunctionDecl :=
  mkFunctionDecl false None [] None
    [mkParmVarDecl param_type 7 (mkNamedDecl NK_Identifier "a" "a" (Some 0));
     mkParmVarDecl param_type 7 (mkNamedDecl NK_Identifier "b" "b" (Some 1))]
    (builtin BuiltinType.Bool) 7 false (λ _, "_Zeq").

(** [struct T { F x; };] at the top level of the header. *)
Definition T_canonical : CanonicalDecl :=
  mkCanonicalDecl 40 Class_Record (Some DC_TranslationUnit) 9.
Definition T_common : DeclCommon :=
  mkDeclCommon 40 T_canonical (Some DC_TranslationUnit) 9 10 in_header None true
    (mkNamedDecl NK_Identifier "T" "T" None).
Definition trivial_public : SpecialMemberFunc := mkSpecialMemberFunc kTrivial kPublic.
Definition T_definition (field_type : QualType) : RecordDefinition :=
  mkRecordDefinition 40 9 10 in_header None (mkNamedDecl NK_Identifier "T" "T" None)
    false true (Some (mkCXXRecordDecl false false false false))
    [mkFieldDecl field_type AS_none (mkNamedDecl NK_Identifier "x" "T::x" None)
       9 None 0%nat]
    (mkASTRecordLayout 16 16 (λ _, 0)) true
    trivial_public trivial_public trivial_public.
Definition struct_T (field_type : QualType) : RecordDecl :=
  mkRecordDecl false (Some (T_definition field_type)).

(** The translation unit of [void Foo(); void Foo();]. *)
Definition Foo_canonical : CanonicalDecl :=
  mkCanonicalDecl 50 Class_Other (Some DC_TranslationUnit) 10.
Definition Foo_function : FunctionDecl :=
  mkFunctionDecl false None [] None [] (builtin BuiltinType.Void) 10 false
    (λ _, "_Z3Foov").
Definition Foo_decl (ptr : N) (loc : SourceLocation) : Decl :=
  mkDecl (mkDeclCommon ptr Foo_canonical (Some DC_TranslationUnit) loc (loc + 9)
            in_header None true (mkNamedDecl NK_Identifier "Foo" "Foo" None))
    (Kind_Function Foo_function) [].
Definition Foo_twice : Decl :=
  mkDecl (mkDeclCommon 1 (mkCanonicalDecl 1 Class_Other None 0) None 0 0 [] None
            false (mkNamedDecl NK_Identifier "" "" None))
    (Kind_TranslationUnit ctx)
    [Some (Foo_decl 50 10); Some (Foo_decl 51 20)].

(** A visitor about to emit: items of a constructor and of its record at
    location 10, of a declaration without a valid location, of a function at
    location 5, and a comment at location 7. *)
Definition note (name : string) : IR.Item :=
  IR.ItemUnsupported (UnsupportedItem.mk name "" (mkSourceLoc "" 0 0)).
Definition visitor_emitting : AstVisitor :=
  mkAstVisitor ["test/testing_header_0.h"] target
    {[ "test/testing_header_0.h" := target ]} ctx (IR.mk [] "" [])
    [ (mkCanonicalDecl 61 (Class_CXXConstructor true false false) (Some DC_Record) 10,
       [note "R::R"]);
      (mkCanonicalDecl 62 Class_CXXDestructor (Some DC_Record) 0, [note "R::~R"]);
      (mkCanonicalDecl 60 Class_Record (Some DC_TranslationUnit) 10, [note "R"]);
      (mkCanonicalDecl 63 Class_Other (Some DC_TranslationUnit) 5, [note "f"]) ]
    ∅
    (mkCommentManager 1 [] 0%nat [mkRawComment 70 7 "a comment"]).

End Examples.

Module MoreExamples.
Import Examples.

(** [const volatile int]. *)
Definition const_volatile_int : QualType :=
  mkQualType (mkQualifiers true true) [] (Builtin BuiltinType.Int).

(** [long double *]. *)
Definition long_double_ptr : QualType := pointer_to (builtin BuiltinType.LongDouble).

(** [struct T { int value; T *next; };]: the type [T *] of the second field
    names the record itself. *)
Definition T_tag : TagDecl :=
  mkTagDecl 40 40 (mkNamedDecl NK_Identifier "T" "T" None) "T" true true.
Definition T_type : QualType := mkQualType unqualified [] (Tag T_tag).
Definition list_node_definition : RecordDefinition :=
  mkRecordDefinition 40 9 10 in_header None (mkNamedDecl NK_Identifier "T" "T" None)
    false true (Some (mkCXXRecordDecl false false false false))
    [mkFieldDecl int_type AS_none (mkNamedDecl NK_Identifier "value" "T::value" None)
       9 None 0%nat;
     mkFieldDecl (pointer_to T_type) AS_none
       (mkNamedDecl NK_Identifier "next" "T::next" None) 9 None 1%nat]
    (mkASTRecordLayout 16 8 (λ i, 64 * N.of_nat i)) true
    trivial_public trivial_public trivial_public.
Definition list_node : RecordDecl := mkRecordDecl false (Some list_node_definition).


(** The unnamed parameters of [void f(int, int);]. *)
Definition unnamed_param (i : N) : NamedDecl := mkNamedDecl NK_Identifier "" "" (Some i).

(** A declaration in [detail.inc], a textual header without target that
    the header of the target includes. *)
Definition in_textual_header : list IncludeFrame :=
  mkIncludeFrame false (Some "./test/detail.inc") :: in_header.
Definition textual_common : DeclCommon :=
  mkDeclCommon 90 (mkCanonicalDecl 90 Class_Other (Some DC_TranslationUnit) 14)
    (Some DC_TranslationUnit) 14 15 in_textual_header None true
    (mkNamedDecl NK_Identifier "g" "g" None).

(** The comments of a header with a function at locations 20 to 40: one
    above its doc comment, the doc comment, one in its body and one after
    it. *)
Definition doc_comment : RawComment := mkRawComment 2 15 "Doc comment".
Definition header_comments : list RawComment :=
  [mkRawComment 1 5 "File comment"; doc_comment;
   mkRawComment 3 30 "In the body"; mkRawComment 4 50 "After"].
Definition documented_function : DeclCommon :=
  mkDeclCommon 95 (mkCanonicalDecl 95 Class_Other (Some DC_TranslationUnit) 20)
    (Some DC_TranslationUnit) 20 40 in_header (Some doc_comment) true
    (mkNamedDecl NK_Identifier "h" "h" None).
Definition reading_header : CommentManager := mkCommentManager 1 header_comments 0%nat [].

(** The translation unit of the header with [documented_function] and its
    comments. *)
Definition commented_ctx : ASTContext :=
  mkASTContext sm x86_64_getTypeSize (λ _, Some header_comments).
Definition commented_unit : Decl :=
  mkDecl (mkDeclCommon 1 (mkCanonicalDecl 1 Class_Other None 0) None 0 0 [] None
            false (mkNamedDecl NK_Identifier "" "" None))
    (Kind_TranslationUnit commented_ctx)
    [Some (mkDecl documented_function (Kind_Function Foo_function) [])].

(** [visitor_emitting] with its hash map iterated in the opposite order. *)
Definition visitor_emitting_reversed : AstVisitor :=
  set_seen_decls_ (reverse (seen_decls_ visitor_emitting)) visitor_emitting.

(** [struct S { int get(int) const; };] with [S] imported: the public
    method, with an unnamed parameter. *)
Definition method_get : FunctionDecl :=
  mkFunctionDecl false None []
    (Some (mkCXXMethodDecl Method_Plain true
             (pointer_to (mkQualType (mkQualifiers true false) [] (Tag S_tag)))
             AS_public RQ_None true false 10))
    [mkParmVarDecl int_type 5 (unnamed_param 0)]
    int_type 5 true (λ _, "_ZNK1S3getEi").
Definition method_get_common : DeclCommon :=
  mkDeclCommon 21 (mkCanonicalDecl 21 Class_Other (Some DC_Record) 5) (Some DC_Record)
    5 6 in_header None true (mkNamedDecl NK_Identifier "get" "S::get" None).

(** The lifetimes ['b] and ['a], the first with the greater id. *)
Definition lifetime_names : devtools_rust.LifetimeSymbolTable :=
  [(lifetime_a, "b"); (lifetime_b, "a")].


(** [namespace ns { void Foo(); struct T { int x; }; }] *)
Definition in_namespace (common : DeclCommon) : DeclCommon :=
  mkDeclCommon (this_ptr common) (getCanonicalDecl common) (Some DC_Namespace)
    (getBeginLoc common) (getEndLoc common) (getLocation_include_stack common)
    (getRawCommentForDeclNoCache common) (isa_NamedDecl common) (named common).
Definition namespace_ns : Decl :=
  mkDecl (mkDeclCommon 70 (mkCanonicalDecl 70 Class_Other (Some DC_TranslationUnit) 3)
            (Some DC_TranslationUnit) 3 30 in_header None true
            (mkNamedDecl NK_Identifier "ns" "ns" None))
    Kind_Namespace
    [Some (mkDecl (in_namespace (decl_common (Foo_decl 50 10)))
                  (Kind_Function Foo_function) []);
     None;
     Some (mkDecl (in_namespace T_common) (Kind_Record (struct_T int_type)) [])].

(** [__int128 Wide(N, long double);] with [N] imported but not passable in
    registers: three causes for a report. *)
Definition Wide_function : FunctionDecl :=
  mkFunctionDecl false None [] None
    [mkParmVarDecl N_type 10 (mkNamedDecl NK_Identifier "n" "n" (Some 0));
     mkParmVarDecl (builtin BuiltinType.LongDouble) 10
       (mkNamedDecl NK_Identifier "x" "x" (Some 1))]
    int128_type 10 false (λ _, "_Z4Wide1Ne").
Definition Wide_common : DeclCommon :=
  mkDeclCommon 52 (mkCanonicalDecl 52 Class_Other (Some DC_TranslationUnit) 10)
    (Some DC_TranslationUnit) 10 19 in_header None true
    (mkNamedDecl NK_Identifier "Wide" "Wide" None).

(** [int &pick(int &a, int &b);] with the lifetime ['b] annotated on [a] and
    on the result and the lifetime ['a] on [b]. *)
Definition pick_function : FunctionDecl :=
  mkFunctionDecl false
    (Some (devtools_rust.mkFunctionLifetimes [[lifetime_a]; [lifetime_b]] [lifetime_a] []))
    lifetime_names None
    [mkParmVarDecl (reference_to int_type) 10 (mkNamedDecl NK_Identifier "a" "a" (Some 0));
     mkParmVarDecl (reference_to int_type) 10 (mkNamedDecl NK_Identifier "b" "b" (Some 1))]
    (reference_to int_type) 10 false (λ _, "_Z4pickRiS_").
Definition pick_common : DeclCommon :=
  mkDeclCommon 53 (mkCanonicalDecl 53 Class_Other (Some DC_TranslationUnit) 10)
    (Some DC_TranslationUnit) 10 19 in_header None true
    (mkNamedDecl NK_Identifier "pick" "pick" None).

(** [namespace outer { namespace ns {} namespace ns {} }]: one of the two
    declarations of the inner namespace. *)
Definition inner_ns (ptr : N) (loc : SourceLocation) : Decl :=
  mkDecl (mkDeclCommon ptr (mkCanonicalDecl 71 Class_Other (Some DC_Namespace) 4)
            (Some DC_Namespace) loc (loc + 5) in_header None true
            (mkNamedDecl NK_Identifier "ns" "outer::ns" None))
    Kind_Namespace [].

(** The translation unit of [struct T; struct T { int x; };]. *)
Definition T_twice : Decl :=
  mkDecl (mkDeclCommon 1 (mkCanonicalDecl 1 Class_Other None 0) None 0 0 [] None
            false (mkNamedDecl NK_Identifier "" "" None))
    (Kind_TranslationUnit ctx)
    [Some (mkDecl (mkDeclCommon 41 T_canonical (Some DC_TranslationUnit) 7 8 in_header
                     None true (mkNamedDecl NK_Identifier "T" "T" None))
                  (Kind_Record (struct_T int_type)) []);
     Some (mkDecl T_common (Kind_Record (struct_T int_type)) [])].

End MoreExamples.

(** * Proofs *)

(** ** Type mapper *)

(** [ConvertType] as the cascade of ast_visitor.cc reads. *)
Lemma ConvertType_unfold self qual_type lifetimes nullable :
  ConvertType self qual_type lifetimes nullable =
  let type_string := getAsString (getUnqualifiedType qual_type) in
  type ←
    match fixed_flat_map_find kWellKnownTypes type_string with
    | Some rs_name => Some (Some (MappedType.Simple rs_name type_string))
    | None =>
      match getAs_PointerType qual_type with
      | Some pointee =>
          '(lifetime, lifetimes) ← take_lifetime lifetimes;
          pointee_type ← ConvertType self pointee lifetimes ConvertType_default_nullable;
          Some (p ← value_or_nullopt pointee_type;
                Some (MappedType.PointerTo p lifetime nullable))
      | None =>
        match getAs_LValueReferenceType qual_type with
        | Some pointee =>
            '(lifetime, lifetimes) ← take_lifetime lifetimes;
            pointee_type ← ConvertType self pointee lifetimes ConvertType_default_nullable;
            Some (p ← value_or_nullopt pointee_type;
                  Some (MappedType.LValueReferenceTo p lifetime))
        | None =>
            Some (ConvertNonPointerType (ctx_ self) (known_type_decls_ self)
                                        qual_type type_string)
        end
      end
    end;
  Some (ConvertType_finish qual_type type_string type).
Proof. destruct qual_type as [quals sugar []]; reflexivity. Qed.

Local Arguments fixed_flat_map_find : simpl never.
Local Arguments getAsString : simpl never.

(** [ConvertType] reads only [ctx_] and [known_type_decls_]. *)
Lemma ConvertType_ext self self' qual_type :
  ctx_ self = ctx_ self' → known_type_decls_ self = known_type_decls_ self' →
  ∀ lifetimes nullable,
    ConvertType self qual_type lifetimes nullable
    = ConvertType self' qual_type lifetimes nullable.
Proof.
  intros Hctx Hknown.
  induction qual_type using QualType_mut_ind
    with (P0 := λ node, ∀ quals sugar lifetimes nullable,
                  ConvertType self (mkQualType quals sugar node) lifetimes nullable
                  = ConvertType self' (mkQualType quals sugar node) lifetimes nullable);
    try (intros; simpl; rewrite ?Hctx, ?Hknown; reflexivity).
  - intros; apply IHqual_type.
  - intros quals sugar lifetimes nullable. simpl.
    destruct (fixed_flat_map_find _ _); [reflexivity|].
    destruct (take_lifetime lifetimes) as [[lifetime rest]|]; [|reflexivity].
    simpl. rewrite IHqual_type. reflexivity.
  - intros quals sugar lifetimes nullable. simpl.
    destruct (fixed_flat_map_find _ _); [reflexivity|].
    destruct (take_lifetime lifetimes) as [[lifetime rest]|]; [|reflexivity].
    simpl. rewrite IHqual_type. reflexivity.
Qed.

(** Induction along the pointees [ConvertType] recurses into. *)
Lemma QualType_pointee_ind (P : QualType → Prop) :
  (∀ q, (∀ pointee, getAs_PointerType q = Some pointee → P pointee) →
        (∀ pointee, getAs_LValueReferenceType q = Some pointee → P pointee) →
        P q) →
  ∀ q, P q.
Proof.
  intros step.
  induction q using QualType_mut_ind
    with (P0 := λ node, ∀ quals sugar, P (mkQualType quals sugar node));
    try (intros; apply step; unfold getAs_PointerType, getAs_LValueReferenceType;
         simpl; intros ? [=]; subst; assumption).
  apply IHq.
Qed.

Lemma ConvertType_inv self qual_type lifetimes nullable m :
  ConvertType self qual_type lifetimes nullable = Some (inr m) →
  ∃ t, m = MappedType.SetCcIsConst (isConstQualified qual_type) t
       ∧ ConvertType_arm self qual_type lifetimes nullable t.
Proof.
  rewrite ConvertType_unfold. cbv zeta.
  destruct (fixed_flat_map_find _ _) as [rs|] eqn:Hfind.
  { simpl. intros [= <-]. eexists; split; [reflexivity|]. by apply arm_well_known. }
  destruct (getAs_PointerType qual_type) as [pointee|] eqn:Hptr.
  { destruct (take_lifetime lifetimes) as [[lifetime rest]|] eqn:Htake; [|done].
    simpl. destruct (ConvertType self pointee rest _) as [[status|p]|] eqn:Hp; [done| |done].
    simpl. intros [= <-]. eexists; split; [reflexivity|]. by eapply arm_pointer. }
  destruct (getAs_LValueReferenceType qual_type) as [pointee|] eqn:Href.
  { destruct (take_lifetime lifetimes) as [[lifetime rest]|] eqn:Htake; [|done].
    simpl. destruct (ConvertType self pointee rest _) as [[status|p]|] eqn:Hp; [done| |done].
    simpl. intros [= <-]. eexists; split; [reflexivity|]. by eapply arm_reference. }
  simpl. destruct (ConvertNonPointerType _ _ _ _) as [t|] eqn:Hleaf; [|done].
  simpl. intros [= <-]. eexists; split; [reflexivity|]. by apply arm_non_pointer.
Qed.

Lemma ConvertBuiltinType_leaf ctx k type_string t :
  ConvertBuiltinType ctx k type_string = Some t → is_leaf t.
Proof.
  unfold ConvertBuiltinType.
  destruct k; simpl; repeat case_match; intros [= <-]; exact I.
Qed.

Lemma ConvertNonPointerType_leaf ctx known qual_type type_string t :
  ConvertNonPointerType ctx known qual_type type_string = Some t → is_leaf t.
Proof.
  unfold ConvertNonPointerType.
  destruct (getAsAdjusted_BuiltinType qual_type); [apply ConvertBuiltinType_leaf|].
  repeat case_match; intros [= <-]; exact I.
Qed.

(** Without a lifetime stack no [CHECK] of [ConvertType] can fire. *)
Lemma ConvertType_no_lifetimes_total self qual_type :
  ∀ nullable, is_Some (ConvertType self qual_type None nullable).
Proof.
  induction qual_type as [q IHptr IHref] using QualType_pointee_ind.
  intros nullable. rewrite ConvertType_unfold. cbv zeta.
  destruct (fixed_flat_map_find _ _); [by eexists|].
  destruct (getAs_PointerType q) as [pointee|].
  { simpl. destruct (IHptr pointee eq_refl ConvertType_default_nullable) as [r ->].
    by eexists. }
  destruct (getAs_LValueReferenceType q) as [pointee|].
  { simpl. destruct (IHref pointee eq_refl ConvertType_default_nullable) as [r ->].
    by eexists. }
  by eexists.
Qed.

(** The table of ast_visitor.cc is the table of the specification. *)
Lemma well_known_table_matches_spec :
  Forall (λ e, fixed_flat_map_find kWellKnownTypes e.1 = Some e.2) well_known_table_spec
  ∧ Forall (λ e, e ∈ well_known_table_spec) kWellKnownTypes.
Proof. split; apply (bool_decide_unpack _); vm_compute; exact I. Qed.

(** C4. A type whose unqualified spelling is a key of the well-known table
    (as section 4.1 lists it) is mapped, whatever the type is and whatever
    the other arms of the type mapper would do with it, to the simple type
    with the tabulated name on the rs side and the spelling itself on the cc
    side; only the const qualification of the type is added. *)
Theorem well_known_short_circuit self qual_type lifetimes nullable spelling rs :
  (spelling, rs) ∈ well_known_table_spec →
  getAsString (getUnqualifiedType qual_type) = spelling →
  let m := MappedType.SetCcIsConst (isConstQualified qual_type)
             (MappedType.Simple rs spelling) in
  ConvertType self qual_type lifetimes nullable = Some (inr m)
  ∧ rs_type m = mkRsType rs [] None
  ∧ cc_type m = mkCcType spelling (isConstQualified qual_type) [] None.
Proof.
  intros Hin Hspelling m.
  destruct well_known_table_matches_spec as [Hfind _].
  rewrite Forall_forall in Hfind. specialize (Hfind _ Hin). simpl in Hfind.
  split; [|done].
  rewrite ConvertType_unfold. cbv zeta. rewrite Hspelling, Hfind. reflexivity.
Qed.

Lemma well_known_short_circuit_witness :
  ConvertType Examples.visitor Examples.const_size_t None true
  = Some (inr (MappedType.SetCcIsConst true (MappedType.Simple "usize" "size_t"))).
Proof.
  apply (well_known_short_circuit Examples.visitor Examples.const_size_t None true
           "size_t" "usize").
  - apply (bool_decide_unpack _). vm_compute. exact I.
  - reflexivity.
Defined.

Lemma builtin_spelling qual_type k :
  getAsAdjusted_BuiltinType qual_type = Some k →
  getAsString (getUnqualifiedType qual_type) = BuiltinType.getName k
  ∧ getAs_PointerType qual_type = None
  ∧ getAs_LValueReferenceType qual_type = None.
Proof.
  destruct qual_type as [quals [|s sugar] []]; try done.
  unfold getAsAdjusted_BuiltinType. simpl. by intros [= ->].
Qed.

(** C5. A builtin integer type (other than [bool], which has its own case)
    whose spelling is not a key of the well-known table: when its width is
    8, 16, 32 or 64 bits it is mapped to [iN] (signed) or [uN] (unsigned)
    with its spelling on the cc side; for any other width [ConvertType]
    returns the error "Unsupported type '<spelling>'". *)
Theorem builtin_integer_width_law self qual_type lifetimes nullable k :
  getAsAdjusted_BuiltinType qual_type = Some k →
  BuiltinType.isIntegerType k = true →
  k ≠ BuiltinType.Bool →
  fixed_flat_map_find kWellKnownTypes (BuiltinType.getName k) = None →
  let size := getTypeSize (ctx_ self) k in
  let spelling := BuiltinType.getName k in
  (size ∈ [8; 16; 32; 64] →
     ConvertType self qual_type lifetimes nullable
     = Some (inr (MappedType.SetCcIsConst (isConstQualified qual_type)
                    (MappedType.Simple
                       ((if BuiltinType.isSignedInteger k then "i" else "u")
                          +:+ pretty size)
                       spelling))))
  ∧ (size ∉ [8; 16; 32; 64] →
     ConvertType self qual_type lifetimes nullable
     = Some (inl (UnsupportedTypeError spelling))
     ∧ status_message (UnsupportedTypeError spelling)
       = "Unsupported type '" +:+ spelling +:+ "'").
Proof.
  intros Hbuiltin Hint Hbool Hfind size spelling.
  destruct (builtin_spelling _ _ Hbuiltin) as (Hspelling & Hptr & Href).
  assert (Hconv : ConvertType self qual_type lifetimes nullable
                  = Some (ConvertType_finish qual_type spelling
                            (ConvertBuiltinType (ctx_ self) k spelling))).
  { rewrite ConvertType_unfold. cbv zeta.
    rewrite Hspelling, Hfind, Hptr, Href. unfold ConvertNonPointerType.
    rewrite Hbuiltin. reflexivity. }
  rewrite Hconv. clear Hconv.
  assert (Hsize : ConvertBuiltinType (ctx_ self) k spelling =
            if (size =? 8) || (size =? 16) || (size =? 32) || (size =? 64) then
              Some (MappedType.Simple
                      ((if BuiltinType.isSignedInteger k then "i" else "u")
                         +:+ pretty size) spelling)
            else None).
  { unfold ConvertBuiltinType. destruct k; try done; simpl in Hint; done. }
  rewrite Hsize. clear Hsize.
  split.
  - intros Hin. rewrite !elem_of_cons, elem_of_nil in Hin.
    destruct Hin as [->|[->|[->|[->|[]]]]]; reflexivity.
  - intros Hnotin. split; [|reflexivity].
    rewrite !elem_of_cons, elem_of_nil in Hnotin.
    destruct (size =? 8) eqn:H8; [apply N.eqb_eq in H8; tauto|].
    destruct (size =? 16) eqn:H16; [apply N.eqb_eq in H16; tauto|].
    destruct (size =? 32) eqn:H32; [apply N.eqb_eq in H32; tauto|].
    destruct (size =? 64) eqn:H64; [apply N.eqb_eq in H64; tauto|].
    reflexivity.
Qed.

Lemma builtin_integer_width_law_witness :
  ConvertType Examples.visitor Examples.int_type None true
  = Some (inr (MappedType.SetCcIsConst false (MappedType.Simple "i32" "int")))
  ∧ ConvertType Examples.visitor Examples.int128_type None true
    = Some (inl (UnsupportedTypeError "__int128")).
Proof.
  split.
  - apply (builtin_integer_width_law Examples.visitor Examples.int_type None true
             BuiltinType.Int); try reflexivity; try discriminate.
    apply (bool_decide_unpack _). vm_compute. exact I.
  - apply (builtin_integer_width_law Examples.visitor Examples.int128_type None true
             BuiltinType.Int128); try reflexivity; try discriminate.
    apply (bool_decide_unpack _). vm_compute. exact I.
Defined.

Lemma peeled_layers_le qual_type :
  (peeled_layers qual_type ≤ pointer_layers qual_type)%nat.
Proof.
  induction qual_type using QualType_mut_ind
    with (P0 := λ node, ∀ quals sugar,
                  (peeled_layers (mkQualType quals sugar node)
                   ≤ pointer_layers (mkQualType quals sugar node))%nat);
    try (intros; simpl; case_match; lia).
  apply IHqual_type.
Qed.

Lemma peeled_layers_unfold q :
  peeled_layers q =
  match fixed_flat_map_find kWellKnownTypes (getAsString (getUnqualifiedType q)) with
  | Some _ => 0%nat
  | None =>
      match getAs_PointerType q with
      | Some pointee => S (peeled_layers pointee)
      | None =>
          match getAs_LValueReferenceType q with
          | Some pointee => S (peeled_layers pointee)
          | None => 0%nat
          end
      end
  end.
Proof. destruct q as [quals sugar []]; reflexivity. Qed.

(** Whatever the factories of ir.h build has parallel sides. *)
Lemma factories_parallel (m : MappedType.t) : parallel (cc_type m) (rs_type m).
Proof.
  induction m as [rs cc| |p IH lifetime nullable|p IH lifetime|rs rs_id cc cc_id|b m IH].
  - apply parallel_non_pointer; simpl; try done; by split; intros [? [=]].
  - apply parallel_non_pointer; simpl; try done; by split; intros [? [=]].
  - eapply parallel_pointer; simpl; try done.
    by destruct (cc_is_const (cc_type p)).
  - eapply parallel_pointer; simpl; try done.
    by destruct (cc_is_const (cc_type p)).
  - apply parallel_non_pointer; simpl; try done; by split; intros _; eexists.
  - simpl. inversion IH as [c r Hc Hr Hid|c r c' r' Hcn Hrn Hc Hr Hp Hcid Hrid]; subst.
    + apply parallel_non_pointer; simpl; done.
    + eapply parallel_pointer; simpl; done.
Qed.

Lemma wrapper_depth_SetCcIsConst b t :
  cc_wrapper_depth (cc_type (MappedType.SetCcIsConst b t)) = cc_wrapper_depth (cc_type t)
  ∧ rs_wrapper_depth (rs_type (MappedType.SetCcIsConst b t))
    = rs_wrapper_depth (rs_type t).
Proof. simpl. by destruct (cc_type t). Qed.

Lemma wrapper_depth_leaf t :
  is_leaf t →
  cc_wrapper_depth (cc_type t) = 0%nat ∧ rs_wrapper_depth (rs_type t) = 0%nat.
Proof. by destruct t. Qed.

(** The wrappers on both sides are the layers [ConvertType] peeled. *)
Lemma ConvertType_wrapper_depth self qual_type :
  ∀ lifetimes nullable m,
    ConvertType self qual_type lifetimes nullable = Some (inr m) →
    cc_wrapper_depth (cc_type m) = peeled_layers qual_type
    ∧ rs_wrapper_depth (rs_type m) = peeled_layers qual_type.
Proof.
  induction qual_type as [q IHptr IHref] using QualType_pointee_ind.
  intros lifetimes nullable m Hm.
  apply ConvertType_inv in Hm as (t & -> & Harm).
  destruct (wrapper_depth_SetCcIsConst (isConstQualified q) t) as [-> ->].
  rewrite peeled_layers_unfold.
  destruct Harm as [rs Hfind|pointee lifetime rest p Hfind Hptr Htake Hp
                   |pointee lifetime rest p Hfind Hptr Href Htake Hp
                   |t Hfind Hptr Href Ht]; rewrite Hfind.
  - done.
  - rewrite Hptr. destruct (IHptr _ Hptr _ _ _ Hp) as [Hcc Hrs].
    split; simpl; [by rewrite Hcc|].
    destruct (cc_is_const (cc_type p)); simpl; by rewrite Hrs.
  - rewrite Hptr, Href. destruct (IHref _ Href _ _ _ Hp) as [Hcc Hrs].
    split; simpl; [by rewrite Hcc|].
    destruct (cc_is_const (cc_type p)); simpl; by rewrite Hrs.
  - rewrite Hptr, Href. apply wrapper_depth_leaf.
    by eapply ConvertNonPointerType_leaf.
Qed.

(** C3. Every [MappedType] the type mapper returns has parallel cc and rs
    sides: the same number of type parameters; both leaves, or both a
    pointer or reference around one pointee with parallel sides, the
    wrappers nesting in lock-step, one on each side for each layer of the
    type that was peeled; and a [decl_id] on both sides or on neither. *)
Theorem mapped_type_sides_parallel self qual_type lifetimes nullable m :
  ConvertType self qual_type lifetimes nullable = Some (inr m) →
  parallel (cc_type m) (rs_type m)
  ∧ length (cc_type_params (cc_type m)) = length (rs_type_params (rs_type m))
  ∧ cc_wrapper_depth (cc_type m) = peeled_layers qual_type
  ∧ rs_wrapper_depth (rs_type m) = peeled_layers qual_type
  ∧ (is_Some (cc_decl_id (cc_type m)) ↔ is_Some (rs_decl_id (rs_type m))).
Proof.
  intros Hm. pose proof (factories_parallel m) as Hp.
  destruct (ConvertType_wrapper_depth _ _ _ _ _ Hm) as [Hcc Hrs].
  split_and!; [exact Hp| |exact Hcc|exact Hrs|].
  - inversion Hp as [c r Hc Hr Hid|c r c' r' Hcn Hrn Hc Hr Hp' Hcid Hrid]; subst;
      by rewrite Hc, Hr.
  - inversion Hp as [c r Hc Hr Hid|c r c' r' Hcn Hrn Hc Hr Hp' Hcid Hrid]; subst;
      [done|by rewrite Hcid, Hrid].
Qed.

Lemma mapped_type_sides_parallel_witness :
  parallel
    (mkCcType "*" false [mkCcType "*" false [mkCcType "int" false [] None] None] None)
    (mkRsType "*mut" [mkRsType "*mut" [mkRsType "i32" [] None] None] None).
Proof.
  exact (proj1 (mapped_type_sides_parallel Examples.visitor Examples.int_ptr_ptr
                  None true _ eq_refl)).
Defined.

(** One layer's [CHECK], pop and lifetime on a non-empty stack. *)
Lemma take_lifetime_snoc stack back :
  take_lifetime (Some (stack ++ [back]))
  = Some (Some (lifetime_id_of back), Some stack).
Proof. unfold take_lifetime. by rewrite last_snoc, removelast_last. Qed.

Lemma lifetime_stack_sufficient self qual_type :
  ∀ stack nullable,
    (peeled_layers qual_type ≤ length stack)%nat →
    is_Some (ConvertType self qual_type (Some stack) nullable)
    ∧ ∀ m, ConvertType self qual_type (Some stack) nullable = Some (inr m) →
           layer_lifetimes m
           = map (λ l, Some (lifetime_id_of l))
                 (take (peeled_layers qual_type) (reverse stack)).
Proof.
  induction qual_type as [q IHptr IHref] using QualType_pointee_ind.
  intros stack nullable. rewrite peeled_layers_unfold, ConvertType_unfold. cbv zeta.
  destruct (fixed_flat_map_find _ _) as [rs|] eqn:Hfind.
  { intros _. split; [by eexists|]. simpl. by intros m [= <-]. }
  destruct (getAs_PointerType q) as [pointee|] eqn:Hptr.
  { intros Hlen. destruct stack as [|back stack _] using rev_ind; [simpl in Hlen; lia|].
    rewrite length_app in Hlen. simpl in Hlen.
    rewrite take_lifetime_snoc. simpl.
    destruct (IHptr pointee eq_refl stack ConvertType_default_nullable) as [[r Hr] Hlt];
      [lia|].
    rewrite Hr in *. simpl. split; [by eexists|].
    destruct r as [status|p]; simpl; [done|]. intros m [= <-]. simpl.
    rewrite reverse_snoc. simpl. f_equal. by apply Hlt. }
  destruct (getAs_LValueReferenceType q) as [pointee|] eqn:Href.
  { intros Hlen. destruct stack as [|back stack _] using rev_ind; [simpl in Hlen; lia|].
    rewrite length_app in Hlen. simpl in Hlen.
    rewrite take_lifetime_snoc. simpl.
    destruct (IHref pointee eq_refl stack ConvertType_default_nullable) as [[r Hr] Hlt];
      [lia|].
    rewrite Hr in *. simpl. split; [by eexists|].
    destruct r as [status|p]; simpl; [done|]. intros m [= <-]. simpl.
    rewrite reverse_snoc. simpl. f_equal. by apply Hlt. }
  intros _. split; [by eexists|]. simpl.
  destruct (ConvertNonPointerType _ _ _ _) as [t|] eqn:Ht; simpl; [|done].
  intros m [= <-]. simpl. apply ConvertNonPointerType_leaf in Ht. by destruct t.
Qed.

(** The [CHECK] is real: a stack shorter than the layers to peel aborts. *)
Lemma lifetime_stack_too_short self qual_type :
  ∀ stack nullable,
    (length stack < peeled_layers qual_type)%nat →
    ConvertType self qual_type (Some stack) nullable = None.
Proof.
  induction qual_type as [q IHptr IHref] using QualType_pointee_ind.
  intros stack nullable. rewrite peeled_layers_unfold, ConvertType_unfold. cbv zeta.
  destruct (fixed_flat_map_find _ _) as [rs|] eqn:Hfind; [lia|].
  destruct (getAs_PointerType q) as [pointee|] eqn:Hptr.
  { intros Hlen. destruct stack as [|back stack _] using rev_ind; [done|].
    rewrite length_app in Hlen. simpl in Hlen.
    rewrite take_lifetime_snoc. simpl. rewrite IHptr; [done|done|lia]. }
  destruct (getAs_LValueReferenceType q) as [pointee|] eqn:Href; [|lia].
  intros Hlen. destruct stack as [|back stack _] using rev_ind; [done|].
  rewrite length_app in Hlen. simpl in Hlen.
  rewrite take_lifetime_snoc. simpl. rewrite IHref; [done|done|lia].
Qed.

(** C10. Given a lifetime stack, [ConvertType] needs a lifetime on it at
    every pointer and reference layer it peels: a stack shorter than these
    layers fails a [CHECK].  With a stack at least as long as the type has
    pointer and reference layers no [CHECK] fires, and the layers peeled get
    the lifetimes of the stack from the back, the outermost layer first, one
    per layer. *)
Theorem lifetime_stack_consumption self qual_type stack nullable :
  ((length stack < peeled_layers qual_type)%nat →
   ConvertType self qual_type (Some stack) nullable = None)
  ∧ ((pointer_layers qual_type ≤ length stack)%nat →
     is_Some (ConvertType self qual_type (Some stack) nullable)
     ∧ ∀ m, ConvertType self qual_type (Some stack) nullable = Some (inr m) →
            layer_lifetimes m
            = map (λ l, Some (lifetime_id_of l))
                  (take (peeled_layers qual_type) (reverse stack))
            ∧ length (layer_lifetimes m) = peeled_layers qual_type).
Proof.
  split; [apply lifetime_stack_too_short|].
  intros Hlen. pose proof (peeled_layers_le qual_type) as Hle.
  destruct (lifetime_stack_sufficient self qual_type stack nullable) as [Hsome Hlt];
    [lia|].
  split; [exact Hsome|]. intros m Hm. specialize (Hlt m Hm). split; [exact Hlt|].
  rewrite Hlt, length_map, length_take, length_reverse. lia.
Qed.

Lemma lifetime_stack_consumption_witness :
  ConvertType Examples.visitor Examples.int_ptr_ref
    (Some [Examples.lifetime_a; Examples.lifetime_b]) true
  = Some (inr (MappedType.SetCcIsConst false
                 (MappedType.LValueReferenceTo
                    (MappedType.SetCcIsConst false
                       (MappedType.PointerTo
                          (MappedType.SetCcIsConst false (MappedType.Simple "i32" "int"))
                          (Some (mkLifetimeId 1)) false))
                    (Some (mkLifetimeId 2)))))
  ∧ is_Some (ConvertType Examples.visitor Examples.int_ptr_ref
               (Some [Examples.lifetime_a; Examples.lifetime_b]) true)
  ∧ ConvertType Examples.visitor Examples.int_ptr_ref (Some [Examples.lifetime_a]) true
    = None.
Proof.
  split_and!; [reflexivity| |].
  - apply (proj2 (lifetime_stack_consumption Examples.visitor Examples.int_ptr_ref
                    [Examples.lifetime_a; Examples.lifetime_b] true)).
    simpl. lia.
  - apply (proj1 (lifetime_stack_consumption Examples.visitor Examples.int_ptr_ref
                    [Examples.lifetime_a] true)).
    vm_compute. lia.
Defined.

(** ** The per-declaration buffers *)

Lemma with_items_nil self decl : with_items self decl [] = self.
Proof. by destruct self. Qed.

Lemma with_items_app self decl items1 items2 :
  with_items (with_items self decl items1) decl items2
  = with_items self decl (items1 ++ items2).
Proof. unfold with_items, push_all. simpl. by rewrite fold_left_app. Qed.

Lemma ConvertType_with_items self decl items qual_type lifetimes nullable :
  ConvertType (with_items self decl items) qual_type lifetimes nullable
  = ConvertType self qual_type lifetimes nullable.
Proof. by apply ConvertType_ext. Qed.

(** [PushUnsupportedItem] records one unsupported item for a declaration of
    the current target and nothing for any other. *)
Lemma PushUnsupportedItem_effect self decl message loc :
  ∃ items, Forall (λ i, is_UnsupportedItem i = true) items
           ∧ length items = (if IsFromCurrentTarget self decl then 1 else 0)%nat
           ∧ PushUnsupportedItem self decl message loc
             = with_items self (getCanonicalDecl decl) items.
Proof.
  unfold PushUnsupportedItem.
  destruct (IsFromCurrentTarget self decl); simpl.
  - eexists [IR.ItemUnsupported _]. split_and!; [by constructor|done|reflexivity].
  - exists []. split_and!; [constructor|done|by rewrite with_items_nil].
Qed.

Lemma seen_contains_keys seen ptr :
  seen_contains seen ptr = true ↔ ptr ∈ seen_keys seen.
Proof.
  unfold seen_contains, seen_keys. rewrite existsb_exists, list_elem_of_fmap.
  split.
  - intros (e & Hin & Heq). apply N.eqb_eq in Heq. exists e.
    split; [done|]. by apply list_elem_of_In.
  - intros (e & -> & Hin). exists e. split; [by apply list_elem_of_In|].
    by apply N.eqb_eq.
Qed.

Lemma seen_push_back_keys seen decl item :
  seen_keys (seen_push_back seen decl item)
  = if seen_contains seen (canon_ptr decl) then seen_keys seen
    else seen_keys seen ++ [canon_ptr decl].
Proof.
  induction seen as [|e seen IH]; [reflexivity|]. simpl.
  destruct (canon_ptr e.1 =? canon_ptr decl) eqn:Heq; simpl; [reflexivity|].
  rewrite IH. unfold seen_contains. by destruct (existsb _ seen).
Qed.

Lemma seen_push_back_contains seen decl item ptr :
  seen_contains (seen_push_back seen decl item) ptr
  = seen_contains seen ptr || (canon_ptr decl =? ptr).
Proof.
  unfold seen_contains.
  induction seen as [|e seen IH]; simpl; [by rewrite orb_false_r|].
  destruct (canon_ptr e.1 =? canon_ptr decl) eqn:Heq; simpl.
  - apply N.eqb_eq in Heq. rewrite <- Heq.
    destruct (canon_ptr e.1 =? ptr); simpl; [done|]. by rewrite orb_false_r.
  - rewrite IH. by rewrite orb_assoc.
Qed.

Lemma seen_push_back_Forall (Q : list IR.Item → Prop) seen decl item :
  Forall (λ e, Q e.2) seen →
  (∀ items, Q items → Q (items ++ [item])) →
  Q [item] →
  Forall (λ e, Q e.2) (seen_push_back seen decl item).
Proof.
  intros Hall Hsnoc Hnew. induction Hall as [|e seen He Hall IH]; simpl.
  - by repeat constructor.
  - destruct (canon_ptr e.1 =? canon_ptr decl); constructor; simpl; auto.
Qed.

Lemma count_primary_app items1 items2 :
  count_primary (items1 ++ items2) = (count_primary items1 + count_primary items2)%nat.
Proof. unfold count_primary. by rewrite List.filter_app, length_app. Qed.

Lemma count_primary_unsupported items :
  Forall (λ i, is_UnsupportedItem i = true) items → count_primary items = 0%nat.
Proof.
  induction 1 as [|i items Hi _ IH]; [reflexivity|].
  unfold count_primary in *. simpl. by destruct i.
Qed.

Lemma dedup_ok_push_non_primary seen decl item :
  is_primary item = false → dedup_ok seen → dedup_ok (seen_push_back seen decl item).
Proof.
  intros Hitem [Hnodup Hall]. split.
  - rewrite seen_push_back_keys.
    destruct (seen_contains seen (canon_ptr decl)) eqn:Hc; [done|].
    apply NoDup_app. split_and!; [done| |apply NoDup_singleton].
    intros ptr Hin ->%list_elem_of_singleton.
    apply seen_contains_keys in Hin. congruence.
  - apply (seen_push_back_Forall (λ items, (count_primary items ≤ 1)%nat)); [done| |].
    + intros items Hitems. rewrite count_primary_app.
      unfold count_primary at 2. simpl. rewrite Hitem. simpl. lia.
    + unfold count_primary. simpl. rewrite Hitem. simpl. lia.
Qed.

Lemma dedup_ok_push_all_non_primary seen decl items :
  Forall (λ i, is_primary i = false) items →
  dedup_ok seen → dedup_ok (push_all seen decl items).
Proof.
  intros Hitems. revert seen.
  induction Hitems as [|i items Hi _ IH]; intros seen Hok; [done|].
  simpl. apply IH. by apply dedup_ok_push_non_primary.
Qed.

Lemma seen_push_back_fresh seen decl item :
  seen_contains seen (canon_ptr decl) = false →
  seen_push_back seen decl item = seen ++ [(decl, [item])].
Proof.
  induction seen as [|e seen IH]; [done|]. simpl.
  destruct (canon_ptr e.1 =? canon_ptr decl); [done|]. simpl.
  intros Hc. by rewrite IH.
Qed.

Lemma seen_push_back_last seen decl items item :
  seen_contains seen (canon_ptr decl) = false →
  seen_push_back (seen ++ [(decl, items)]) decl item = seen ++ [(decl, items ++ [item])].
Proof.
  induction seen as [|e seen IH]; simpl.
  - by rewrite N.eqb_refl.
  - destruct (canon_ptr e.1 =? canon_ptr decl); [done|]. simpl.
    intros Hc. by rewrite IH.
Qed.

Lemma push_all_fresh seen decl item items :
  seen_contains seen (canon_ptr decl) = false →
  push_all seen decl (item :: items) = seen ++ [(decl, item :: items)].
Proof.
  intros Hc. unfold push_all. simpl. rewrite seen_push_back_fresh by done.
  assert (∀ pushed rest,
            fold_left (λ seen item, seen_push_back seen decl item) rest
                      (seen ++ [(decl, pushed)])
            = seen ++ [(decl, pushed ++ rest)]) as Hgen.
  { intros pushed rest. revert pushed.
    induction rest as [|i rest IH]; intros pushed; simpl.
    - by rewrite app_nil_r.
    - rewrite seen_push_back_last by done. rewrite IH. by rewrite <- app_assoc. }
  apply (Hgen [item] items).
Qed.

(** A declaration not yet seen may record one primary item. *)
Lemma dedup_ok_push_all_fresh seen decl items :
  seen_contains seen (canon_ptr decl) = false →
  (count_primary items ≤ 1)%nat →
  dedup_ok seen → dedup_ok (push_all seen decl items).
Proof.
  intros Hc Hcount [Hnodup Hall]. destruct items as [|item items]; [done|].
  rewrite push_all_fresh by done. split.
  - unfold seen_keys. rewrite map_app. simpl.
    apply NoDup_app. split_and!; [done| |apply NoDup_singleton].
    intros ptr Hin ->%list_elem_of_singleton.
    apply seen_contains_keys in Hin. congruence.
  - apply Forall_app. split; [done|]. constructor; [exact Hcount|constructor].
Qed.

(** ** Function importer *)

Local Arguments ConvertType : simpl never.

Lemma import_step_refl decl st : import_step decl st st.
Proof. split; [|done]. exists []. split; [constructor|]. by rewrite with_items_nil. Qed.

Lemma import_step_trans decl st1 st2 st3 :
  import_step decl st1 st2 → import_step decl st2 st3 → import_step decl st1 st3.
Proof.
  intros [(items1 & H1 & E1) S1] [(items2 & H2 & E2) S2]. split.
  - exists (items1 ++ items2). split; [by apply Forall_app|].
    by rewrite E2, E1, with_items_app.
  - intros H3. destruct (S2 H3) as [E32 H2']. destruct (S1 H2') as [E21 H1'].
    split; [congruence|done].
Qed.

(** A step that pushes an unsupported item and clears the flag. *)
Lemma import_step_push decl st message loc params all_lifetimes :
  import_step (getCanonicalDecl decl) st
    (mkFunctionImport (PushUnsupportedItem (fi_self st) decl message loc)
                      params false all_lifetimes).
Proof.
  split; [|done]. simpl.
  destruct (PushUnsupportedItem_effect (fi_self st) decl message loc)
    as (items & Hitems & _ & ->).
  by exists items.
Qed.

(** A step that leaves the visitor and the flag alone. *)
Lemma import_step_keep decl st params all_lifetimes :
  import_step decl st (mkFunctionImport (fi_self st) params (fi_success st) all_lifetimes).
Proof. split; [|done]. exists []. split; [constructor|]. by rewrite with_items_nil. Qed.

Lemma ImportThisParam_step decl function_decl st st' :
  ImportThisParam decl function_decl st = Some st' →
  import_step (getCanonicalDecl decl) st st'.
Proof.
  unfold ImportThisParam.
  destruct (dyn_cast_CXXMethodDecl function_decl) as [method_decl|];
    [|intros [= <-]; apply import_step_refl].
  destruct (isInstance method_decl); [|intros [= <-]; apply import_step_refl].
  destruct (ConvertType _ _ _ _) as [[status|t]|]; simpl; [| |done].
  - intros [= <-]. apply import_step_push.
  - intros [= <-]. apply import_step_keep.
Qed.

Lemma ImportParam_step decl function_decl i param st st' :
  ImportParam decl function_decl i param st = Some st' →
  import_step (getCanonicalDecl decl) st st'.
Proof.
  unfold ImportParam.
  destruct (match GetLifetimeAnnotations function_decl with
            | Some lifetimes => _ | None => _ end) as [param_lifetimes|];
    simpl; [|done].
  destruct (ConvertType _ _ _ _) as [[status|t]|]; simpl; [| |done].
  - intros [= <-]. apply import_step_push.
  - destruct (GetTranslatedIdentifier _) as [param_name|]; simpl; [|done].
    intros [= <-].
    destruct (dyn_cast_RecordType _) as [record_decl|]; simpl;
      [destruct (canPassInRegisters record_decl); simpl|].
    + apply import_step_keep.
    + split; [|done]. simpl.
      destruct (PushUnsupportedItem_effect (fi_self st) decl
                  ("Non-trivial_abi type '" +:+ getAsString (parm_getType param)
                     +:+ "' is not supported by value as a parameter")
                  (parm_getBeginLoc param)) as (items & Hitems & _ & ->).
      by exists items.
    + apply import_step_keep.
Qed.

Lemma ImportParams_step decl function_decl params :
  ∀ i st st',
    ImportParams decl function_decl i params st = Some st' →
    import_step (getCanonicalDecl decl) st st'.
Proof.
  induction params as [|param rest IH]; intros i st st'; simpl.
  - intros [= <-]. apply import_step_refl.
  - destruct (ImportParam decl function_decl i param st) as [st1|] eqn:H1; simpl; [|done].
    intros Hrest. eapply import_step_trans; [by eapply ImportParam_step|by eapply IH].
Qed.

Lemma ImportReturnType_step decl function_decl st st' return_type :
  ImportReturnType decl function_decl st = Some (st', return_type) →
  import_step (getCanonicalDecl decl) st st'
  ∧ (fi_success st' = true → ok return_type = true).
Proof.
  unfold ImportReturnType.
  set (st1 := match dyn_cast_RecordType (getReturnType function_decl) with
              | Some record_decl => _ | None => _ end).
  assert (import_step (getCanonicalDecl decl) st st1) as Hst1.
  { subst st1. destruct (dyn_cast_RecordType _) as [record_decl|];
      [destruct (canPassInRegisters record_decl); simpl|];
      try apply import_step_refl. apply import_step_push. }
  clearbody st1.
  destruct (ConvertType _ _ _ _) as [[status|t]|]; simpl; [| |done].
  - intros [= <- <-]. split; [|done].
    eapply import_step_trans; [exact Hst1|apply import_step_push].
  - intros [= <- <-]. split; [|done].
    eapply import_step_trans; [exact Hst1|apply import_step_keep].
Qed.

Lemma converts_true self qual_type lifetimes nullable :
  converts self qual_type lifetimes nullable = true →
  ∃ t, ConvertType self qual_type lifetimes nullable = Some (inr t).
Proof.
  unfold converts. destruct (ConvertType _ _ _ _) as [[status|t]|]; try done.
  by exists t.
Qed.

Lemma ImportThisParam_ok decl function_decl st st' :
  ImportThisParam decl function_decl st = Some st' →
  match dyn_cast_CXXMethodDecl function_decl with
  | Some method_decl =>
      if isInstance method_decl then
        converts (fi_self st) (getThisType method_decl)
                 (devtools_rust.this_lifetimes <$> GetLifetimeAnnotations function_decl)
                 false
      else true
  | None => true
  end = true →
  fi_self st' = fi_self st ∧ fi_success st' = fi_success st.
Proof.
  unfold ImportThisParam.
  destruct (dyn_cast_CXXMethodDecl function_decl) as [method_decl|];
    [|by intros [= <-]].
  destruct (isInstance method_decl); [|by intros [= <-]].
  intros Hst (t & Ht)%converts_true. rewrite Ht in Hst. simpl in Hst.
  by injection Hst as <-.
Qed.

Lemma ImportParam_ok decl function_decl i param st st' :
  ImportParam decl function_decl i param st = Some st' →
  converts (fi_self st) (parm_getType param) (lifetimes_of_param function_decl i)
           ConvertType_default_nullable = true →
  passable_by_value (parm_getType param) = true →
  fi_self st' = fi_self st ∧ fi_success st' = fi_success st.
Proof.
  unfold ImportParam, lifetimes_of_param, passable_by_value.
  intros Hst Hconv Hpass.
  destruct (GetLifetimeAnnotations function_decl) as [lifetimes|]; simpl in *.
  - destruct (devtools_rust.param_lifetimes lifetimes !! i) as [tl|]; simpl in *; [|done].
    apply converts_true in Hconv as (t & Ht). rewrite Ht in Hst. simpl in Hst.
    destruct (GetTranslatedIdentifier _); simpl in Hst; [|done].
    injection Hst as <-.
    destruct (dyn_cast_RecordType _) as [record_decl|]; [|done].
    by rewrite Hpass.
  - apply converts_true in Hconv as (t & Ht). rewrite Ht in Hst. simpl in Hst.
    destruct (GetTranslatedIdentifier _); simpl in Hst; [|done].
    injection Hst as <-.
    destruct (dyn_cast_RecordType _) as [record_decl|]; [|done].
    by rewrite Hpass.
Qed.

Lemma ImportParams_ok decl function_decl params :
  ∀ i st st',
    ImportParams decl function_decl i params st = Some st' →
    param_types_translate (fi_self st) function_decl i params = true →
    forallb (λ param, passable_by_value (parm_getType param)) params = true →
    fi_self st' = fi_self st ∧ fi_success st' = fi_success st.
Proof.
  induction params as [|param rest IH]; intros i st st'; simpl.
  - by intros [= <-].
  - destruct (ImportParam decl function_decl i param st) as [st1|] eqn:H1; simpl; [|done].
    intros Hrest [Hconv Htail]%andb_true_iff [Hpass Hptail]%andb_true_iff.
    destruct (ImportParam_ok _ _ _ _ _ _ H1 Hconv Hpass) as [E1 S1].
    rewrite <- E1 in Htail.
    destruct (IH _ _ _ Hrest Htail Hptail) as [E2 S2].
    split; congruence.
Qed.

Lemma ImportReturnType_ok decl function_decl st st' return_type :
  ImportReturnType decl function_decl st = Some (st', return_type) →
  converts (fi_self st) (getReturnType function_decl)
           (devtools_rust.return_lifetimes <$> GetLifetimeAnnotations function_decl)
           ConvertType_default_nullable = true →
  passable_by_value (getReturnType function_decl) = true →
  fi_self st' = fi_self st ∧ fi_success st' = fi_success st.
Proof.
  unfold ImportReturnType, passable_by_value. intros Hst Hconv Hpass.
  destruct (dyn_cast_RecordType _) as [record_decl|].
  - rewrite Hpass in Hst. simpl in Hst.
    apply converts_true in Hconv as (t & Ht). rewrite Ht in Hst. simpl in Hst.
    by injection Hst as <- <-.
  - apply converts_true in Hconv as (t & Ht). rewrite Ht in Hst. simpl in Hst.
    by injection Hst as <- <-.
Qed.

(** What a run of [VisitFunctionDecl] that was not aborted did: a number of
    import steps from the initial locals to [st], then at most the [Func]
    item, and that only for a free or public function with a translated
    name and the success flag set. *)
Lemma VisitFunctionDecl_inv self decl function_decl self' :
  VisitFunctionDecl self decl function_decl = Some self' →
  ∃ st,
    import_step (getCanonicalDecl decl) (mkFunctionImport self [] true []) st
    ∧ (types_translate self function_decl = true →
       records_passable_by_value function_decl = true →
       fi_self st = self ∧ fi_success st = true)
    ∧ (self' = fi_self st
       ∨ ∃ func,
           self' = with_items (fi_self st) (getCanonicalDecl decl) [IR.ItemFunc func]
           ∧ fi_success st = true
           ∧ GetTranslatedName (named decl) = Some (Func.name func)
           ∧ ∀ method_decl, dyn_cast_CXXMethodDecl function_decl = Some method_decl →
                            getAccess method_decl = AS_public).
Proof.
  unfold VisitFunctionDecl.
  set (st0 := mkFunctionImport self [] true []).
  assert (∀ s, s = self →
               ∃ st, import_step (getCanonicalDecl decl) st0 st
                     ∧ (types_translate self function_decl = true →
                        records_passable_by_value function_decl = true →
                        fi_self st = self ∧ fi_success st = true)
                     ∧ (s = fi_self st ∨ False)) as Hearly.
  { intros s ->. exists st0. split_and!; [apply import_step_refl|done|by left]. }
  destruct (negb (IsFromCurrentTarget self decl)).
  { intros [= <-]. destruct (Hearly self eq_refl) as (st & ? & ? & [?|[]]).
    exists st. by split_and!; [| |left]. }
  destruct (isDeleted function_decl).
  { intros [= <-]. destruct (Hearly self eq_refl) as (st & ? & ? & [?|[]]).
    exists st. by split_and!; [| |left]. }
  clear Hearly.
  destruct (ImportThisParam decl function_decl st0) as [st1|] eqn:H1; simpl; [|done].
  destruct (match GetLifetimeAnnotations function_decl with
            | Some lifetimes => _ | None => _ end) as [[]|]; simpl; [|done].
  destruct (ImportParams decl function_decl 0 (parameters function_decl) st1)
    as [st2|] eqn:H2; simpl; [|done].
  destruct (ImportReturnType decl function_decl st2) as [[st3 return_type]|] eqn:H3;
    simpl; [|done].
  destruct (CollectLifetimeParams _ _) as [lifetime_params|]; simpl; [|done].
  pose proof (ImportThisParam_step _ _ _ _ H1) as S1.
  pose proof (ImportParams_step _ _ _ _ _ _ H2) as S2.
  destruct (ImportReturnType_step _ _ _ _ _ H3) as [S3 Hret].
  intros Hself'. exists st3. split_and!.
  - eapply import_step_trans; [exact S1|]. eapply import_step_trans; [exact S2|exact S3].
  - unfold types_translate, records_passable_by_value.
    intros [[Hthis Hparams]%andb_true_iff Hreturn]%andb_true_iff
           [Hpp Hpr]%andb_true_iff.
    destruct (ImportThisParam_ok _ _ _ _ H1 Hthis) as [E1 F1].
    subst st0. simpl in E1, F1. rewrite <- E1 in Hparams.
    destruct (ImportParams_ok _ _ _ _ _ _ H2 Hparams Hpp) as [E2 F2].
    rewrite <- E1, <- E2 in Hreturn.
    destruct (ImportReturnType_ok _ _ _ _ _ H3 Hreturn Hpr) as [E3 F3].
    split; [by rewrite E3, E2, E1|by rewrite F3, F2, F1].
  - assert (∀ metadata s,
              s = match GetTranslatedName (named decl), return_type with
                  | Some translated_name, inr return_type =>
                      if fi_success st3 then
                        set_seen_decls_
                          (seen_push_back (seen_decls_ (fi_self st3))
                             (getCanonicalDecl decl)
                             (IR.ItemFunc
                                (Func.mk translated_name
                                   (GetOwningTarget (fi_self st3) decl)
                                   (GetComment (getRawCommentForDeclNoCache decl))
                                   (GetMangledName function_decl) return_type
                                   (fi_params st3) lifetime_params
                                   (isInlined function_decl) metadata
                                   (ConvertSourceLocation (fi_self st3)
                                                          (getBeginLoc decl)))))
                          (fi_self st3)
                      else fi_self st3
                  | _, _ => fi_self st3
                  end →
              s = fi_self st3
              ∨ ∃ func,
                  s = with_items (fi_self st3) (getCanonicalDecl decl) [IR.ItemFunc func]
                  ∧ fi_success st3 = true
                  ∧ GetTranslatedName (named decl) = Some (Func.name func)) as Hpublish.
    { intros metadata s ->.
      destruct (GetTranslatedName (named decl)) as [translated_name|]; [|by left].
      destruct return_type as [status|rt]; [by left|].
      destruct (fi_success st3); [|by left].
      right. eexists (Func.mk translated_name _ _ _ _ _ _ _ _ _).
      split_and!; reflexivity. }
    destruct (dyn_cast_CXXMethodDecl function_decl) as [method_decl|].
    + destruct (getAccess method_decl) eqn:Haccess; injection Hself' as <-;
        try (by left).
      destruct (Hpublish (Some (GetMemberFuncMetadata method_decl)) _ eq_refl)
        as [->|(func & -> & ? & ?)]; [by left|].
      right. exists func. split_and!; try done. by intros ? [= <-].
    + injection Hself' as <-.
      destruct (Hpublish None _ eq_refl) as [->|(func & -> & ? & ?)]; [by left|].
      right. exists func. split_and!; done.
Qed.

(** Without lifetime annotations, and with parameters whose names
    translate, no [CHECK] of [VisitFunctionDecl] fires: it returns. *)
Lemma ImportThisParam_returns decl function_decl st :
  GetLifetimeAnnotations function_decl = None →
  fi_all_lifetimes st = [] →
  ∃ st', ImportThisParam decl function_decl st = Some st' ∧ fi_all_lifetimes st' = [].
Proof.
  intros Hnone Hall. unfold ImportThisParam. rewrite Hnone, Hall.
  destruct (dyn_cast_CXXMethodDecl function_decl) as [method_decl|]; [|by eexists].
  destruct (isInstance method_decl); [|by eexists]. simpl.
  destruct (ConvertType_no_lifetimes_total (fi_self st) (getThisType method_decl) false)
    as [[status|t] ->]; simpl; by eexists.
Qed.

Lemma ImportParams_returns decl function_decl params :
  GetLifetimeAnnotations function_decl = None →
  Forall (λ param, is_Some (GetTranslatedIdentifier (parm_named param))) params →
  ∀ i st,
    fi_all_lifetimes st = [] →
    ∃ st', ImportParams decl function_decl i params st = Some st'
           ∧ fi_all_lifetimes st' = [].
Proof.
  intros Hnone. induction 1 as [|param rest [name Hname] _ IH]; intros i st Hall; simpl.
  { by eexists. }
  assert (∃ st1, ImportParam decl function_decl i param st = Some st1
                 ∧ fi_all_lifetimes st1 = []) as (st1 & -> & Hall1).
  { unfold ImportParam. rewrite Hnone, Hall. simpl.
    destruct (ConvertType_no_lifetimes_total (fi_self st) (parm_getType param)
                ConvertType_default_nullable) as [[status|t] ->]; simpl; [by eexists|].
    rewrite Hname. simpl. eexists. split; [reflexivity|]. simpl.
    destruct (dyn_cast_RecordType (parm_getType param)) as [record_decl|]; [|done].
    by destruct (canPassInRegisters record_decl). }
  simpl. by apply IH.
Qed.

Lemma ImportReturnType_returns decl function_decl st :
  GetLifetimeAnnotations function_decl = None →
  fi_all_lifetimes st = [] →
  ∃ st' return_type,
    ImportReturnType decl function_decl st = Some (st', return_type)
    ∧ fi_all_lifetimes st' = [].
Proof.
  intros Hnone Hall. unfold ImportReturnType. rewrite Hnone. simpl.
  set (st1 := match dyn_cast_RecordType (getReturnType function_decl) with
              | Some record_decl => _ | None => _ end).
  assert (fi_all_lifetimes st1 = []) as Hall1.
  { subst st1. destruct (dyn_cast_RecordType _) as [record_decl|]; [|done].
    by destruct (canPassInRegisters record_decl). }
  clearbody st1. rewrite Hall1.
  destruct (ConvertType_no_lifetimes_total (fi_self st1) (getReturnType function_decl)
              ConvertType_default_nullable) as [[status|t] ->]; simpl; by eexists _, _.
Qed.

Lemma VisitFunctionDecl_returns self decl function_decl :
  GetLifetimeAnnotations function_decl = None →
  Forall (λ param, is_Some (GetTranslatedIdentifier (parm_named param)))
         (parameters function_decl) →
  is_Some (VisitFunctionDecl self decl function_decl).
Proof.
  intros Hnone Hnames. unfold VisitFunctionDecl.
  destruct (negb (IsFromCurrentTarget self decl)); [by eexists|].
  destruct (isDeleted function_decl); [by eexists|].
  destruct (ImportThisParam_returns decl function_decl (mkFunctionImport self [] true [])
              Hnone eq_refl) as (st1 & -> & Hall1).
  simpl. rewrite Hnone. simpl.
  destruct (ImportParams_returns decl function_decl (parameters function_decl)
              Hnone Hnames 0%nat st1 Hall1) as (st2 & -> & Hall2).
  simpl.
  destruct (ImportReturnType_returns decl function_decl st2 Hnone Hall2)
    as (st3 & return_type & -> & Hall3).
  simpl. rewrite Hall3. simpl.
  destruct (dyn_cast_CXXMethodDecl function_decl) as [method_decl|]; [|by eexists].
  destruct (getAccess method_decl); by eexists.
Qed.

Lemma seen_lookup_push_back seen decl item ptr :
  seen_lookup (seen_push_back seen decl item) ptr
  = if canon_ptr decl =? ptr then seen_lookup seen ptr ++ [item]
    else seen_lookup seen ptr.
Proof.
  induction seen as [|e seen IH]; simpl.
  - by destruct (canon_ptr decl =? ptr).
  - destruct (canon_ptr e.1 =? canon_ptr decl) eqn:Heq; simpl.
    + apply N.eqb_eq in Heq. rewrite <- Heq. by destruct (canon_ptr e.1 =? ptr).
    + destruct (canon_ptr e.1 =? ptr) eqn:Hptr; [|exact IH].
      apply N.eqb_eq in Hptr. rewrite <- Hptr.
      rewrite N.eqb_sym in Heq. by rewrite Heq.
Qed.

Lemma seen_lookup_push_all seen decl items ptr :
  seen_lookup (push_all seen decl items) ptr
  = if canon_ptr decl =? ptr then seen_lookup seen ptr ++ items
    else seen_lookup seen ptr.
Proof.
  revert seen. induction items as [|item items IH]; intros seen; simpl.
  - destruct (canon_ptr decl =? ptr); [by rewrite app_nil_r|done].
  - unfold push_all in *. simpl. rewrite IH, seen_lookup_push_back.
    destruct (canon_ptr decl =? ptr); [by rewrite <- app_assoc|done].
Qed.

(** C7 (as amended). A member function whose access is not public gets no
    [Func] item: the function importer records unsupported items only, and
    when the types of its implicit [this], of its parameters and of its
    result all translate and no record is passed or returned by value that
    cannot be passed in registers, it records nothing at all. *)
Theorem non_public_member_function_dropped self decl function_decl method_decl self' :
  dyn_cast_CXXMethodDecl function_decl = Some method_decl →
  getAccess method_decl ≠ AS_public →
  VisitFunctionDecl self decl function_decl = Some self' →
  (∃ items, Forall (λ i, is_UnsupportedItem i = true) items
            ∧ self' = with_items self (getCanonicalDecl decl) items)
  ∧ (types_translate self function_decl = true →
     records_passable_by_value function_decl = true →
     self' = self).
Proof.
  intros Hmethod Haccess Hvisit.
  apply VisitFunctionDecl_inv in Hvisit
    as (st & [Hitems _] & Hok & [->|(func & _ & _ & _ & Hpublic)]).
  - split; [exact Hitems|]. intros Ht Hp. by destruct (Hok Ht Hp).
  - by specialize (Hpublic _ Hmethod).
Qed.

Lemma non_public_member_function_dropped_witness :
  ∃ self',
    VisitFunctionDecl Examples.visitor_knowing_S Examples.method_f_common
                      (Examples.private_method_f Examples.int_type) = Some self'
    ∧ self' = Examples.visitor_knowing_S.
Proof.
  destruct (VisitFunctionDecl Examples.visitor_knowing_S Examples.method_f_common
              (Examples.private_method_f Examples.int_type)) as [self'|] eqn:Hrun;
    [|vm_compute in Hrun; discriminate].
  exists self'. split; [reflexivity|].
  refine (proj2 (non_public_member_function_dropped Examples.visitor_knowing_S
                   Examples.method_f_common (Examples.private_method_f Examples.int_type)
                   _ self' eq_refl _ Hrun) _ _).
  - discriminate.
  - vm_compute; reflexivity.
  - vm_compute; reflexivity.
Defined.

(** The claim C7 as stated fails: a private method with a parameter of an
    unsupported type gets an unsupported item. *)
Lemma non_public_member_function_counterexample :
  getAccess <$> dyn_cast_CXXMethodDecl (Examples.private_method_f Examples.int128_type)
  = Some AS_private
  ∧ ∃ self',
      VisitFunctionDecl Examples.visitor_knowing_S Examples.method_f_common
                        (Examples.private_method_f Examples.int128_type) = Some self'
      ∧ seen_lookup (seen_decls_ self') 20
        = [IR.ItemUnsupported
             (UnsupportedItem.mk "S::f" "Parameter type '__int128' is not supported"
                (mkSourceLoc "test/testing_header_0.h" 5 1))].
Proof. split; [reflexivity|]. eexists. split; vm_compute; reflexivity. Qed.

Lemma GetTranslatedName_other_kind named_decl :
  getNameKind named_decl
    ∉ [NK_Identifier; NK_CXXConstructorName; NK_CXXDestructorName] →
  GetTranslatedName named_decl = None.
Proof.
  rewrite !not_elem_of_cons. intros (? & ? & ? & _).
  unfold GetTranslatedName. by destruct (getNameKind named_decl).
Qed.

(** C9 (as amended). A function whose name is neither an identifier nor a
    constructor nor a destructor name (an overloaded operator, a conversion
    function) gets no [Func] item: the importer records unsupported items
    only, and none when the types of its implicit [this], of its parameters
    and of its result all translate and no record is passed or returned by
    value that cannot be passed in registers. *)
Theorem untranslated_name_function_dropped self decl function_decl self' :
  getNameKind (named decl)
    ∉ [NK_Identifier; NK_CXXConstructorName; NK_CXXDestructorName] →
  VisitFunctionDecl self decl function_decl = Some self' →
  (∃ items, Forall (λ i, is_UnsupportedItem i = true) items
            ∧ self' = with_items self (getCanonicalDecl decl) items)
  ∧ (types_translate self function_decl = true →
     records_passable_by_value function_decl = true →
     self' = self).
Proof.
  intros Hname%GetTranslatedName_other_kind Hvisit.
  apply VisitFunctionDecl_inv in Hvisit
    as (st & [Hitems _] & Hok & [->|(func & _ & _ & Hsome & _)]).
  - split; [exact Hitems|]. intros Ht Hp. by destruct (Hok Ht Hp).
  - congruence.
Qed.

Lemma untranslated_name_function_dropped_witness :
  ∃ self',
    VisitFunctionDecl Examples.visitor Examples.operator_eq_common
                      (Examples.operator_eq Examples.int_type) = Some self'
    ∧ self' = Examples.visitor.
Proof.
  destruct (VisitFunctionDecl Examples.visitor Examples.operator_eq_common
              (Examples.operator_eq Examples.int_type)) as [self'|] eqn:Hrun;
    [|vm_compute in Hrun; discriminate].
  exists self'. split; [reflexivity|].
  refine (proj2 (untranslated_name_function_dropped Examples.visitor
                   Examples.operator_eq_common (Examples.operator_eq Examples.int_type)
                   self' _ Hrun) _ _).
  - rewrite !not_elem_of_cons. split_and!; [discriminate..|apply not_elem_of_nil].
  - vm_compute; reflexivity.
  - vm_compute; reflexivity.
Defined.

(** The claim C9 as stated fails: [bool operator==(N, N)] for an imported
    record [N] that cannot be passed in registers is a free function from
    the current target, not deleted, all its types translate, and it gets
    unsupported items. *)
Lemma untranslated_name_function_counterexample :
  getNameKind (named Examples.operator_eq_common) = NK_CXXOperatorName
  ∧ IsFromCurrentTarget Examples.visitor_knowing_N Examples.operator_eq_common = true
  ∧ isDeleted (Examples.operator_eq Examples.N_type) = false
  ∧ dyn_cast_CXXMethodDecl (Examples.operator_eq Examples.N_type) = None
  ∧ types_translate Examples.visitor_knowing_N (Examples.operator_eq Examples.N_type)
    = true
  ∧ ∃ self',
      VisitFunctionDecl Examples.visitor_knowing_N Examples.operator_eq_common
                        (Examples.operator_eq Examples.N_type) = Some self'
      ∧ seen_lookup (seen_decls_ self') 30
        = [IR.ItemUnsupported
             (UnsupportedItem.mk "operator=="
                "Non-trivial_abi type 'N' is not supported by value as a parameter"
                (mkSourceLoc "test/testing_header_0.h" 7 1));
           IR.ItemUnsupported
             (UnsupportedItem.mk "operator=="
                "Non-trivial_abi type 'N' is not supported by value as a parameter"
                (mkSourceLoc "test/testing_header_0.h" 7 1))].
Proof.
  split_and!; try (vm_compute; reflexivity).
  eexists. split; vm_compute; reflexivity.
Qed.

(** ** Record importer *)

(** The import of the fields stops at the first field that fails, with the
    unsupported item for it; otherwise it returns all fields and leaves the
    visitor alone. *)
Lemma ImportFields_loop_spec self definition record_decl default_access field_decls :
  default_access ≠ AS_none →
  ∀ fields,
    ∃ self' result,
      ImportFields_loop self definition record_decl default_access field_decls fields
      = Some (self', result)
      ∧ if existsb (field_fails self) field_decls then
          result = None
          ∧ ∃ items, Forall (λ i, is_UnsupportedItem i = true) items
                     ∧ length items
                       = (if IsFromCurrentTarget self definition then 1 else 0)%nat
                     ∧ self' = with_items self (getCanonicalDecl definition) items
        else
          self' = self
          ∧ ∃ imported, result = Some (fields ++ imported)
                        ∧ length imported = length field_decls.
Proof.
  intros Hdefault.
  induction field_decls as [|field_decl rest IH]; intros fields; simpl.
  { exists self, (Some fields). split; [done|]. split; [done|].
    exists []. by rewrite app_nil_r. }
  unfold field_fails at 1, converts.
  destruct (ConvertType_no_lifetimes_total self (field_getType field_decl)
              ConvertType_default_nullable) as [r Hr].
  change ConvertType_default_lifetimes with (@None (list devtools_rust.Lifetime)).
  rewrite Hr. simpl.
  destruct r as [status|type]; simpl.
  { eexists _, None. split; [reflexivity|]. split; [done|].
    apply PushUnsupportedItem_effect. }
  destruct (GetTranslatedIdentifier (field_named field_decl)) as [field_name|]; simpl.
  2:{ eexists _, None. split; [reflexivity|]. split; [done|].
      apply PushUnsupportedItem_effect. }
  set (access := match field_getAccess field_decl with
                 | AS_none => default_access | _ => _ end).
  assert (∃ a, TranslateAccessSpecifier access = Some a) as [a Ha].
  { subst access. destruct (field_getAccess field_decl); simpl; eauto.
    destruct default_access; simpl; eauto. done. }
  rewrite Ha. simpl.
  destruct (IH (fields ++ [Field.mk field_name
                              (GetComment (field_raw_comment field_decl)) type a
                              (getFieldOffset (getASTRecordLayout record_decl)
                                              (getFieldIndex field_decl))]))
    as (self' & result & Hloop & Hspec).
  exists self', result. split; [exact Hloop|].
  destruct (existsb (field_fails self) rest); [exact Hspec|].
  destruct Hspec as (-> & imported & -> & Hlen). split; [done|].
  eexists (_ :: imported). rewrite <- app_assoc. simpl. split; [reflexivity|by rewrite Hlen].
Qed.

(** A tag type whose declaration is not in [known_type_decls_] is not
    mapped. *)
Lemma unknown_tag_unsupported self qual_type tag_decl lifetimes nullable :
  getAsAdjusted_TagType qual_type = Some tag_decl →
  tag_ptr tag_decl ∉ known_type_decls_ self →
  fixed_flat_map_find kWellKnownTypes (getAsString (getUnqualifiedType qual_type)) = None →
  ConvertType self qual_type lifetimes nullable
  = Some (inl (UnsupportedTypeError (getAsString (getUnqualifiedType qual_type)))).
Proof.
  intros Htag Hunknown Hfind. rewrite ConvertType_unfold. cbv zeta. rewrite Hfind.
  destruct qual_type as [quals [|s sugar] []]; try done.
  unfold getAsAdjusted_TagType in Htag. simpl in Htag. injection Htag as ->.
  unfold getAs_PointerType, getAs_LValueReferenceType, ConvertNonPointerType,
    getAsAdjusted_BuiltinType, getAsAdjusted_TagType. simpl.
  by rewrite bool_decide_eq_false_2.
Qed.

(** The visitor after a record import that reached the fields: the items
    recorded for the record and the new [known_type_decls_]. *)
Lemma VisitRecordDecl_fields self decl record_decl definition record_name :
  reaches_field_import decl record_decl definition record_name →
  ∃ items,
    VisitRecordDecl self decl record_decl
    = Some (set_known_type_decls_
              (if existsb (field_fails (provisionally_known self definition))
                          (record_fields definition)
               then ({[ def_this_ptr definition ]} ∪ known_type_decls_ self)
                    ∖ {[ def_this_ptr definition ]}
               else {[ def_this_ptr definition ]} ∪ known_type_decls_ self)
              (with_items self (getCanonicalDecl decl) items))
    ∧ if existsb (field_fails (provisionally_known self definition))
                 (record_fields definition)
      then
        Forall (λ i, is_UnsupportedItem i = true) items
        ∧ length items
          = (if IsFromCurrentTarget self (def_common decl definition) then 1 else 0)%nat
      else
        ∃ record, items = [IR.ItemRecord record]
                  ∧ Record_.identifier record = record_name
                  ∧ length (Record_.fields record) = length (record_fields definition).
Proof.
  intros [Hlocal Hnested Hunion Hdef Hcomplete Htemplate Hname].
  unfold VisitRecordDecl. rewrite Hlocal, Hnested, Hunion, Hdef, Hcomplete, Htemplate.
  change (named (def_common decl definition)) with (def_named definition).
  rewrite Hname.
  set (default_access := if from_option isClass false (dyn_cast_CXXRecordDecl definition)
                         then AS_private else AS_public).
  assert (default_access ≠ AS_none) as Hdefault.
  { subst default_access.
    by destruct (from_option isClass false (dyn_cast_CXXRecordDecl definition)). }
  change (set_known_type_decls_ _ self) with (provisionally_known self definition).
  unfold ImportFields.
  destruct (ImportFields_loop_spec (provisionally_known self definition)
              (def_common decl definition) definition default_access
              (record_fields definition) Hdefault [])
    as (self1 & result & -> & Hspec).
  simpl.
  destruct (existsb (field_fails (provisionally_known self definition))
                    (record_fields definition)).
  - destruct Hspec as (-> & items & Hitems & Hlen & ->).
    exists items. split; [reflexivity|]. by split.
  - destruct Hspec as (-> & imported & -> & Hlen).
    eexists [IR.ItemRecord _]. split; [reflexivity|].
    eexists. split_and!; [reflexivity|reflexivity|exact Hlen].
Qed.

Lemma existsb_find {A} (p : A → bool) l :
  existsb p l = true → ∃ x, find p l = Some x.
Proof.
  induction l as [|y l IH]; simpl; [done|].
  destruct (p y); [by eauto|exact IH].
Qed.

(** The import of the fields stops at the first field that fails, with the
    unsupported item for that field. *)
Lemma ImportFields_loop_failure self definition record_decl default_access field_decls
    field_decl :
  default_access ≠ AS_none →
  find (field_fails self) field_decls = Some field_decl →
  ∀ fields,
    ImportFields_loop self definition record_decl default_access field_decls fields
    = Some (PushUnsupportedItem self definition (field_failure_message self field_decl)
              (field_getBeginLoc field_decl), None).
Proof.
  intros Hdefault.
  induction field_decls as [|first rest IH]; intros Hfind fields; simpl in *; [done|].
  unfold field_fails at 1, converts in Hfind.
  destruct (ConvertType_no_lifetimes_total self (field_getType first)
              ConvertType_default_nullable) as [r Hr].
  change ConvertType_default_lifetimes with (@None (list devtools_rust.Lifetime)) in *.
  rewrite Hr in Hfind |- *. simpl.
  destruct r as [status|type]; simpl in *.
  { injection Hfind as <-. unfold field_failure_message, converts.
    change ConvertType_default_lifetimes with (@None (list devtools_rust.Lifetime)).
    by rewrite Hr. }
  destruct (GetTranslatedIdentifier (field_named first)) as [field_name|]; simpl in *.
  2:{ injection Hfind as <-. unfold field_failure_message, converts.
      change ConvertType_default_lifetimes with (@None (list devtools_rust.Lifetime)).
      by rewrite Hr. }
  set (access := match field_getAccess first with
                 | AS_none => default_access | _ => _ end).
  assert (∃ a, TranslateAccessSpecifier access = Some a) as [a Ha].
  { subst access. destruct (field_getAccess first); simpl; eauto.
    destruct default_access; simpl; eauto. done. }
  rewrite Ha. simpl. by apply IH.
Qed.

(** The visitor after a record import in which a field failed. *)
Lemma VisitRecordDecl_field_failure self decl record_decl definition record_name
    field_decl :
  reaches_field_import decl record_decl definition record_name →
  find (field_fails (provisionally_known self definition)) (record_fields definition)
  = Some field_decl →
  VisitRecordDecl self decl record_decl
  = Some (set_known_type_decls_
            (({[ def_this_ptr definition ]} ∪ known_type_decls_ self)
               ∖ {[ def_this_ptr definition ]})
            (with_items self (getCanonicalDecl decl)
               (if IsFromCurrentTarget self (def_common decl definition)
                then [field_failure_item (provisionally_known self definition)
                        (def_common decl definition) field_decl]
                else []))).
Proof.
  intros [Hlocal Hnested Hunion Hdef Hcomplete Htemplate Hname] Hfind.
  unfold VisitRecordDecl. rewrite Hlocal, Hnested, Hunion, Hdef, Hcomplete, Htemplate.
  change (named (def_common decl definition)) with (def_named definition).
  rewrite Hname.
  set (default_access := if from_option isClass false (dyn_cast_CXXRecordDecl definition)
                         then AS_private else AS_public).
  assert (default_access ≠ AS_none) as Hdefault.
  { subst default_access.
    by destruct (from_option isClass false (dyn_cast_CXXRecordDecl definition)). }
  change (set_known_type_decls_ _ self) with (provisionally_known self definition).
  unfold ImportFields.
  rewrite (ImportFields_loop_failure _ _ _ _ _ field_decl Hdefault Hfind). simpl.
  unfold PushUnsupportedItem.
  change (IsFromCurrentTarget (provisionally_known self definition)
                              (def_common decl definition))
    with (IsFromCurrentTarget self (def_common decl definition)).
  by destruct (IsFromCurrentTarget self (def_common decl definition)).
Qed.

(** C6 (as amended). When the import of a record reaches its fields: if the
    type or the name of a field cannot be translated, the provisional entry
    of the record in [known_type_decls_] is retracted, so that a later
    mention of the record type is not mapped, and no [Record] item is
    recorded; what is recorded is the single unsupported item of the first
    field that fails, when the record is from the current target, and
    nothing otherwise: an item under the qualified name of the record, at
    the begin location of that field, whose message names the type of the
    field, if the type is not translated, and else its name.  If all fields
    translate, the entry stays and exactly one [Record] item is recorded.
    Apart from the retracted entry [known_type_decls_] only grows. *)
Theorem record_field_failure_retracts self decl record_decl definition record_name :
  reaches_field_import decl record_decl definition record_name →
  let ptr := def_this_ptr definition in
  ∃ self',
    VisitRecordDecl self decl record_decl = Some self'
    ∧ known_type_decls_ self ∖ {[ ptr ]} ⊆ known_type_decls_ self'
    ∧ if existsb (field_fails (provisionally_known self definition))
                 (record_fields definition)
      then
        known_type_decls_ self' = known_type_decls_ self ∖ {[ ptr ]}
        ∧ (∀ qual_type tag_decl lifetimes nullable,
             getAsAdjusted_TagType qual_type = Some tag_decl →
             tag_ptr tag_decl = ptr →
             fixed_flat_map_find kWellKnownTypes
               (getAsString (getUnqualifiedType qual_type)) = None →
             ok <$> ConvertType self' qual_type lifetimes nullable = Some false)
        ∧ (∃ items,
             Forall (λ i, is_UnsupportedItem i = true) items
             ∧ length items
               = (if IsFromCurrentTarget self (def_common decl definition)
                  then 1 else 0)%nat
             ∧ seen_decls_ self'
               = push_all (seen_decls_ self) (getCanonicalDecl decl) items)
        ∧ ∃ field_decl,
            find (field_fails (provisionally_known self definition))
                 (record_fields definition) = Some field_decl
            ∧ field_fails (provisionally_known self definition) field_decl = true
            ∧ field_decl ∈ record_fields definition
            ∧ seen_decls_ self'
              = push_all (seen_decls_ self) (getCanonicalDecl decl)
                  (if IsFromCurrentTarget self (def_common decl definition)
                   then [IR.ItemUnsupported
                           (UnsupportedItem.mk
                              (getQualifiedNameAsString (def_named definition))
                              (field_failure_message
                                 (provisionally_known self definition) field_decl)
                              (ConvertSourceLocation self
                                 (field_getBeginLoc field_decl)))]
                   else [])
      else
        known_type_decls_ self' = {[ ptr ]} ∪ known_type_decls_ self
        ∧ ∃ record,
            Record_.identifier record = record_name
            ∧ length (Record_.fields record) = length (record_fields definition)
            ∧ seen_decls_ self'
              = push_all (seen_decls_ self) (getCanonicalDecl decl)
                         [IR.ItemRecord record].
Proof.
  intros Hreaches ptr. subst ptr.
  destruct (VisitRecordDecl_fields self decl record_decl definition record_name Hreaches)
    as (items & Hvisit & Hitems).
  eexists. split; [exact Hvisit|]. simpl.
  assert (({[def_this_ptr definition]} ∪ known_type_decls_ self)
            ∖ {[def_this_ptr definition]}
          = known_type_decls_ self ∖ {[def_this_ptr definition]})
    as Hknown by set_solver.
  destruct (existsb (field_fails (provisionally_known self definition))
                    (record_fields definition)) eqn:Hfails.
  - destruct Hitems as [Hunsupported Hlen]. rewrite Hknown.
    split_and!; [done|done| |by exists items|].
    + intros qual_type tag_decl lifetimes nullable Htag Hptr Hfind.
      rewrite (unknown_tag_unsupported _ _ tag_decl); [done|done| |done].
      simpl. rewrite Hptr. set_solver.
    + destruct (existsb_find _ _ Hfails) as [field_decl Hfind].
      exists field_decl. split; [exact Hfind|].
      destruct (find_some _ _ Hfind) as [Hin Hfield].
      split; [exact Hfield|]. split; [by apply list_elem_of_In|].
      pose proof (VisitRecordDecl_field_failure self decl record_decl definition
                    record_name field_decl Hreaches Hfind) as Hvisit'.
      rewrite Hvisit in Hvisit'. injection Hvisit' as Hseen. exact Hseen.
  - destruct Hitems as (record & -> & Hname & Hlen).
    split_and!; [set_solver|done|by exists record].
Qed.

Lemma Examples_T_reaches_field_import field_type :
  reaches_field_import Examples.T_common (Examples.struct_T field_type)
                       (Examples.T_definition field_type) (mkIdentifier "T").
Proof. by constructor. Qed.

Lemma record_field_failure_retracts_witness :
  (∃ self',
     VisitRecordDecl Examples.visitor Examples.T_common
                     (Examples.struct_T Examples.int128_type) = Some self'
     ∧ known_type_decls_ self' = known_type_decls_ Examples.visitor ∖ {[ 40 ]}
     ∧ seen_decls_ self'
       = [(Examples.T_canonical,
           [IR.ItemUnsupported
              (UnsupportedItem.mk "T" "Field type '__int128' is not supported"
                 (mkSourceLoc "test/testing_header_0.h" 9 1))])])
  ∧ ∃ self',
      VisitRecordDecl Examples.visitor Examples.T_common
                      (Examples.struct_T Examples.int_type) = Some self'
      ∧ known_type_decls_ self' = {[ 40 ]} ∪ ∅
      ∧ ∃ record,
          Record_.identifier record = mkIdentifier "T"
          ∧ length (Record_.fields record) = 1%nat
          ∧ seen_decls_ self' = [(Examples.T_canonical, [IR.ItemRecord record])].
Proof.
  split.
  - destruct (record_field_failure_retracts Examples.visitor Examples.T_common
                (Examples.struct_T Examples.int128_type)
                (Examples.T_definition Examples.int128_type) (mkIdentifier "T")
                (Examples_T_reaches_field_import Examples.int128_type))
      as (self' & Hvisit & _ & Hspec).
    exists self'. split; [exact Hvisit|].
    change (existsb _ _) with true in Hspec.
    destruct Hspec as (Hknown & _ & _ & field_decl & Hfind & _ & _ & Hseen).
    split; [exact Hknown|].
    vm_compute in Hfind. injection Hfind as <-. exact Hseen.
  - destruct (record_field_failure_retracts Examples.visitor Examples.T_common
                (Examples.struct_T Examples.int_type)
                (Examples.T_definition Examples.int_type) (mkIdentifier "T")
                (Examples_T_reaches_field_import Examples.int_type))
      as (self' & Hvisit & _ & Hspec).
    exists self'. split; [exact Hvisit|].
    change (existsb _ _) with false in Hspec. exact Hspec.
Defined.

(** The claim C6 as stated fails: for [struct T { __int128 x; };] from the
    current target a field fails, yet an item is recorded for the record,
    and it is emitted into the IR. *)
Lemma record_field_failure_counterexample :
  existsb (field_fails (provisionally_known Examples.visitor
                          (Examples.T_definition Examples.int128_type)))
          (record_fields (Examples.T_definition Examples.int128_type)) = true
  ∧ ∃ self',
      VisitRecordDecl Examples.visitor Examples.T_common
                      (Examples.struct_T Examples.int128_type) = Some self'
      ∧ seen_lookup (seen_decls_ self') 40
        = [IR.ItemUnsupported
             (UnsupportedItem.mk "T" "Field type '__int128' is not supported"
                (mkSourceLoc "test/testing_header_0.h" 9 1))]
      ∧ IR.items (ir_ (EmitIRItems self'))
        = [IR.ItemUnsupported
             (UnsupportedItem.mk "T" "Field type '__int128' is not supported"
                (mkSourceLoc "test/testing_header_0.h" 9 1))].
Proof.
  split; [vm_compute; reflexivity|].
  eexists. split_and!; vm_compute; reflexivity.
Qed.

(** ** Traversal driver *)

Lemma VisitFunctionDecl_seen self decl function_decl self' :
  VisitFunctionDecl self decl function_decl = Some self' →
  ∃ items, (count_primary items ≤ 1)%nat
           ∧ seen_decls_ self'
             = push_all (seen_decls_ self) (getCanonicalDecl decl) items.
Proof.
  intros (st & [(items & Hitems & Est) Hflag] & _ & Hself')%VisitFunctionDecl_inv.
  simpl in Est, Hflag. destruct Hself' as [->|(func & -> & Hsuccess & _)].
  - exists items. rewrite Est. split; [|done].
    rewrite count_primary_unsupported by done. lia.
  - destruct (Hflag Hsuccess) as [-> _]. exists [IR.ItemFunc func].
    split; [reflexivity|done].
Qed.

Lemma PushUnsupportedItem_seen self decl message loc :
  ∃ items, (count_primary items ≤ 1)%nat
           ∧ Forall (λ i, is_primary i = false) items
           ∧ seen_decls_ (PushUnsupportedItem self decl message loc)
             = push_all (seen_decls_ self) (getCanonicalDecl decl) items.
Proof.
  destruct (PushUnsupportedItem_effect self decl message loc)
    as (items & Hitems & _ & ->).
  exists items. split_and!; [|eapply Forall_impl; [exact Hitems|]|done].
  - rewrite count_primary_unsupported by done. lia.
  - by intros [] Hi.
Qed.

Lemma VisitRecordDecl_seen self decl record_decl self' :
  VisitRecordDecl self decl record_decl = Some self' →
  ∃ items, (count_primary items ≤ 1)%nat
           ∧ seen_decls_ self'
             = push_all (seen_decls_ self) (getCanonicalDecl decl) items.
Proof.
  assert (∃ items, (count_primary items ≤ 1)%nat
                   ∧ seen_decls_ self
                     = push_all (seen_decls_ self) (getCanonicalDecl decl) items)
    as Hnothing by (exists []; split; [unfold count_primary; simpl; lia|done]).
  assert (∀ common message loc,
            getCanonicalDecl common = getCanonicalDecl decl →
            ∃ items, (count_primary items ≤ 1)%nat
                     ∧ seen_decls_ (PushUnsupportedItem self common message loc)
                       = push_all (seen_decls_ self) (getCanonicalDecl decl) items)
    as Hpush.
  { intros common message loc <-.
    destruct (PushUnsupportedItem_seen self common message loc)
      as (items & ? & _ & ?). by exists items. }
  intros Hvisit.
  destruct (from_option isFunctionOrMethod false (getDeclContext decl)) eqn:Hlocal.
  { unfold VisitRecordDecl in Hvisit. rewrite Hlocal in Hvisit. by injection Hvisit as <-. }
  destruct (from_option isRecord false (getDeclContext decl)) eqn:Hnested.
  { unfold VisitRecordDecl in Hvisit. rewrite Hlocal, Hnested in Hvisit.
    injection Hvisit as <-. by apply Hpush. }
  destruct (isUnion record_decl) eqn:Hunion.
  { unfold VisitRecordDecl in Hvisit. rewrite Hlocal, Hnested, Hunion in Hvisit.
    injection Hvisit as <-. by apply Hpush. }
  destruct (getDefinition record_decl) as [definition|] eqn:Hdef.
  2:{ unfold VisitRecordDecl in Hvisit. rewrite Hlocal, Hnested, Hunion, Hdef in Hvisit.
      by injection Hvisit as <-. }
  destruct (isInvalidDecl definition || negb (isCompleteDefinition definition))
    eqn:Hcomplete.
  { unfold VisitRecordDecl in Hvisit.
    rewrite Hlocal, Hnested, Hunion, Hdef, Hcomplete in Hvisit.
    by injection Hvisit as <-. }
  destruct (from_option (λ cxx, getDescribedClassTemplate cxx
                                || isa_ClassTemplateSpecializationDecl cxx)
                        false (dyn_cast_CXXRecordDecl definition)) eqn:Htemplate.
  { unfold VisitRecordDecl in Hvisit.
    rewrite Hlocal, Hnested, Hunion, Hdef, Hcomplete, Htemplate in Hvisit.
    injection Hvisit as <-. by apply Hpush. }
  destruct (GetTranslatedIdentifier (def_named definition)) as [record_name|] eqn:Hname.
  2:{ unfold VisitRecordDecl in Hvisit.
      rewrite Hlocal, Hnested, Hunion, Hdef, Hcomplete, Htemplate in Hvisit.
      change (named (def_common decl definition)) with (def_named definition) in Hvisit.
      rewrite Hname in Hvisit. by injection Hvisit as <-. }
  destruct (VisitRecordDecl_fields self decl record_decl definition record_name)
    as (items & Hvisit' & Hitems); [by constructor|].
  rewrite Hvisit in Hvisit'. injection Hvisit' as ->. simpl.
  exists items. split; [|done].
  destruct (existsb _ _).
  - destruct Hitems as [Hunsupported _].
    rewrite count_primary_unsupported by done. lia.
  - by destruct Hitems as (record & -> & _).
Qed.

Lemma VisitTypedefNameDecl_seen self decl typedef_name_decl self' :
  VisitTypedefNameDecl self decl typedef_name_decl = Some self' →
  ∃ items, (count_primary items ≤ 1)%nat
           ∧ seen_decls_ self'
             = push_all (seen_decls_ self) (getCanonicalDecl decl) items.
Proof.
  assert (∃ items, (count_primary items ≤ 1)%nat
                   ∧ seen_decls_ self
                     = push_all (seen_decls_ self) (getCanonicalDecl decl) items)
    as Hnothing by (exists []; split; [unfold count_primary; simpl; lia|done]).
  assert (∀ message loc,
            ∃ items, (count_primary items ≤ 1)%nat
                     ∧ seen_decls_ (PushUnsupportedItem self decl message loc)
                       = push_all (seen_decls_ self) (getCanonicalDecl decl) items)
    as Hpush.
  { intros message loc.
    destruct (PushUnsupportedItem_seen self decl message loc) as (items & ? & _ & ?).
    by exists items. }
  unfold VisitTypedefNameDecl.
  destruct (from_option isFunctionOrMethod false (getDeclContext decl));
    [by intros [= <-]|].
  destruct (from_option isRecord false (getDeclContext decl));
    [intros [= <-]; apply Hpush|].
  destruct (fixed_flat_map_contains _ _); [by intros [= <-]|].
  destruct (GetTranslatedIdentifier (named decl)) as [identifier|]; simpl; [|done].
  destruct (ConvertType _ _ _ _) as [[status|underlying_type]|]; simpl; [| |done].
  - intros [= <-]. apply Hpush.
  - intros [= <-]. simpl. eexists [IR.ItemTypeAlias _]. split; [reflexivity|done].
Qed.

(** Induction over a declaration and the declarations under it. *)
Lemma Decl_children_ind (P : Decl → Prop) :
  (∀ common kind children,
     Forall (λ child, from_option P True child) children →
     P (mkDecl common kind children)) →
  ∀ decl, P decl.
Proof.
  intros step.
  refine (fix go (decl : Decl) : P decl :=
            match decl with
            | mkDecl common kind children => step common kind children _
            end).
  induction children as [|[child|] children IH]; constructor; simpl; auto.
Qed.

Lemma TraverseDecl_unfold common kind children self :
  TraverseDecl (mkDecl common kind children) self =
  if seen_contains (seen_decls_ self) (canon_ptr (getCanonicalDecl common))
     && negb (isa_NamespaceDecl kind)
  then Some self
  else if from_option isNamespace false (getDeclContext common) then
    Some (PushUnsupportedItem self common
            "Items contained in namespaces are not supported yet"
            (getBeginLoc common))
  else
    let decl_ast_context :=
      match kind with
      | Kind_TranslationUnit ast_context => ast_context
      | _ => ctx_ self
      end in
    let self :=
      set_comment_manager_
        (CommentManager_TraverseDecl decl_ast_context (comment_manager_ self)
                                     common kind)
        self in
    match kind with
    | Kind_TranslationUnit ast_context =>
        let self := set_ctx_ ast_context self in
        let self :=
          set_ir_ (IR.mk (IR.used_headers (ir_ self) ++ public_header_names_ self)
                         (current_target_ self) (IR.items (ir_ self)))
                  self in
        self ← TraverseDecls children self;
        let self :=
          set_comment_manager_ (FlushComments (comment_manager_ self)) self in
        Some (EmitIRItems self)
    | Kind_Function function_decl =>
        self ← VisitFunctionDecl self common function_decl;
        TraverseDecls children self
    | Kind_Record record_decl =>
        self ← VisitRecordDecl self common record_decl;
        TraverseDecls children self
    | Kind_TypedefName typedef_name_decl =>
        self ← VisitTypedefNameDecl self common typedef_name_decl;
        TraverseDecls children self
    | Kind_Namespace | Kind_Other => TraverseDecls children self
    end.
Proof. reflexivity. Qed.

Lemma TraverseDecls_dedup_ok children :
  Forall (λ child,
            from_option
              (λ decl, ∀ self self',
                 TraverseDecl decl self = Some self' →
                 dedup_ok (seen_decls_ self) → dedup_ok (seen_decls_ self'))
              True child) children →
  ∀ self self',
    TraverseDecls children self = Some self' →
    dedup_ok (seen_decls_ self) → dedup_ok (seen_decls_ self').
Proof.
  induction 1 as [|[child|] children Hchild _ IH]; intros self self'; simpl.
  - by intros [= <-].
  - destruct (TraverseDecl child self) as [self1|] eqn:H1; simpl; [|done].
    intros Hrest Hok. eapply IH; [exact Hrest|]. by eapply Hchild.
  - apply IH.
Qed.

Lemma TraverseDecl_dedup_ok decl :
  ∀ self self',
    TraverseDecl decl self = Some self' →
    dedup_ok (seen_decls_ self) → dedup_ok (seen_decls_ self').
Proof.
  induction decl as [common kind children IH] using Decl_children_ind.
  intros self self'. rewrite TraverseDecl_unfold.
  destruct (seen_contains _ _) eqn:Hseen; simpl.
  - (* already seen *)
    destruct kind; simpl; try (by intros [= <-]).
    (* a namespace that is reopened *)
    destruct (from_option isNamespace false (getDeclContext common)).
    + intros [= <-] Hok.
      destruct (PushUnsupportedItem_seen self common
                  "Items contained in namespaces are not supported yet"
                  (getBeginLoc common)) as (items & _ & Hitems & ->).
      by apply dedup_ok_push_all_non_primary.
    + intros Hrest Hok. by eapply (TraverseDecls_dedup_ok children IH); [exact Hrest|].
  - destruct (from_option isNamespace false (getDeclContext common)).
    { intros [= <-] Hok.
      destruct (PushUnsupportedItem_seen self common
                  "Items contained in namespaces are not supported yet"
                  (getBeginLoc common)) as (items & _ & Hitems & ->).
      by apply dedup_ok_push_all_non_primary. }
    cbv zeta.
    destruct kind as [ast_context| |function_decl|record_decl|typedef_name_decl|].
    + destruct (TraverseDecls children _) as [self1|] eqn:H1; simpl; [|done].
      intros [= <-] Hok. simpl.
      by eapply (TraverseDecls_dedup_ok children IH); [exact H1|].
    + intros Hrest Hok. by eapply (TraverseDecls_dedup_ok children IH); [exact Hrest|].
    + destruct (VisitFunctionDecl _ _ _) as [self1|] eqn:H1; simpl; [|done].
      intros Hrest Hok. eapply (TraverseDecls_dedup_ok children IH); [exact Hrest|].
      apply VisitFunctionDecl_seen in H1 as (items & Hcount & ->).
      by apply dedup_ok_push_all_fresh.
    + destruct (VisitRecordDecl _ _ _) as [self1|] eqn:H1; simpl; [|done].
      intros Hrest Hok. eapply (TraverseDecls_dedup_ok children IH); [exact Hrest|].
      apply VisitRecordDecl_seen in H1 as (items & Hcount & ->).
      by apply dedup_ok_push_all_fresh.
    + destruct (VisitTypedefNameDecl _ _ _) as [self1|] eqn:H1; simpl; [|done].
      intros Hrest Hok. eapply (TraverseDecls_dedup_ok children IH); [exact Hrest|].
      apply VisitTypedefNameDecl_seen in H1 as (items & Hcount & ->).
      by apply dedup_ok_push_all_fresh.
    + intros Hrest Hok. by eapply (TraverseDecls_dedup_ok children IH); [exact Hrest|].
Qed.

Lemma count_primary_by_kind items :
  (length (List.filter is_Func items) + length (List.filter is_Record items)
   + length (List.filter is_TypeAlias items))%nat
  = count_primary items.
Proof.
  unfold count_primary, is_primary.
  induction items as [|[] items IH]; simpl; lia.
Qed.

(** ** Emitter *)

Section StableSortFacts.
Context {A : Type} (comp : A → A → bool).
Hypothesis comp_asymmetric : ∀ x y, comp x y = true → comp y x = false.
Hypothesis comp_negatively_transitive :
  ∀ x y z, comp x z = true → comp x y = true ∨ comp y z = true.

Lemma stable_insert_Permutation x l : stable_insert comp x l ≡ₚ x :: l.
Proof.
  induction l as [|y l IH]; simpl; [done|].
  destruct (comp y x); [|done]. rewrite IH. apply Permutation_swap.
Qed.

Lemma stable_sort_Permutation l : stable_sort comp l ≡ₚ l.
Proof.
  induction l as [|x l IH]; simpl; [done|].
  by rewrite stable_insert_Permutation, IH.
Qed.

Lemma stable_insert_sorted x l :
  StronglySorted (λ a b, comp b a = false) l →
  StronglySorted (λ a b, comp b a = false) (stable_insert comp x l).
Proof.
  induction 1 as [|y l Hsorted IH Hy]; simpl; [by repeat constructor|].
  destruct (comp y x) eqn:Hyx.
  - constructor; [exact IH|].
    rewrite Forall_forall. intros b Hb.
    rewrite list_elem_of_In, stable_insert_Permutation, <- list_elem_of_In in Hb.
    apply elem_of_cons in Hb as [->|Hb]; [by apply comp_asymmetric|].
    rewrite Forall_forall in Hy. by apply Hy.
  - constructor; [by constructor|].
    constructor; [exact Hyx|].
    rewrite Forall_forall in Hy |- *. intros b Hb.
    destruct (comp b x) eqn:Hbx; [|done].
    destruct (comp_negatively_transitive b y x Hbx) as [Hby|Hyx']; [|congruence].
    rewrite (Hy b Hb) in Hby. done.
Qed.

Lemma stable_sort_sorted l :
  StronglySorted (λ a b, comp b a = false) (stable_sort comp l).
Proof.
  induction l as [|x l IH]; simpl; [constructor|]. by apply stable_insert_sorted.
Qed.

(** Elements that compare equivalent keep their order. *)
Lemma stable_insert_filter (p : A → bool) x l :
  (∀ a b, p a = true → p b = true → comp a b = false) →
  List.filter p (stable_insert comp x l) = List.filter p (x :: l).
Proof.
  intros Hclass. induction l as [|y l IH]; simpl; [done|].
  destruct (comp y x) eqn:Hyx; simpl; [|done].
  rewrite IH. simpl.
  destruct (p x) eqn:Hx, (p y) eqn:Hy; try done.
  rewrite (Hclass y x Hy Hx) in Hyx. done.
Qed.

Lemma stable_sort_filter (p : A → bool) l :
  (∀ a b, p a = true → p b = true → comp a b = false) →
  List.filter p (stable_sort comp l) = List.filter p l.
Proof.
  intros Hclass. induction l as [|x l IH]; simpl; [done|].
  rewrite stable_insert_filter by done. simpl. by rewrite IH.
Qed.

(** In the sorted list an element that compares before another one stands
    before it. *)
Lemma stable_sort_positions l i j a b :
  stable_sort comp l !! i = Some a → stable_sort comp l !! j = Some b →
  comp a b = true → (i < j)%nat.
Proof.
  intros Hi Hj Hab. pose proof (stable_sort_sorted l) as Hsorted.
  destruct (decide (i < j)%nat) as [|Hge]; [done|]. exfalso.
  destruct (decide (i = j)) as [->|Hne].
  - rewrite Hi in Hj. injection Hj as ->.
    pose proof (comp_asymmetric _ _ Hab). congruence.
  - assert (j < i)%nat as Hlt by lia.
    revert Hsorted Hi Hj. generalize (stable_sort comp l). clear -Hab Hlt.
    intros s Hsorted. revert i j Hlt.
    induction Hsorted as [|x s Hsorted IH Hx]; intros i j Hlt Hi Hj; [done|].
    destruct j as [|j]; destruct i as [|i]; try lia; simpl in *.
    + injection Hj as ->. rewrite Forall_forall in Hx.
      rewrite (Hx a) in Hab; [done|]. by eapply list_elem_of_lookup_2.
    + eapply (IH i j); [lia|done|done].
Qed.
End StableSortFacts.

Section SourceOrder.
Context (sm : SourceManager) (Horder : orders_translation_unit sm).

Lemma items_before_asymmetric a b :
  items_before sm a b = true → items_before sm b a = false.
Proof.
  unfold items_before.
  destruct a as [[aloc aorder] aitem], b as [[bloc border] bitem]. simpl.
  destruct (isValid aloc) eqn:Ha, (isValid bloc) eqn:Hb; simpl; try done.
  intros [Hbefore|[Heq Hlt]%andb_true_iff]%orb_true_iff.
  - apply orb_false_iff. split.
    + destruct (isBeforeInTranslationUnit sm bloc aloc) eqn:Hba; [|done].
      pose proof (before_transitive sm Horder _ _ _ Hbefore Hba) as Haa.
      by rewrite (before_irreflexive sm Horder) in Haa.
    + destruct (bloc =? aloc) eqn:Heq; [|done]. apply N.eqb_eq in Heq. subst.
      by rewrite (before_irreflexive sm Horder) in Hbefore.
  - apply N.eqb_eq in Heq. subst. rewrite (before_irreflexive sm Horder).
    rewrite N.eqb_refl. simpl. lia.
Qed.

Lemma items_before_negatively_transitive a b c :
  items_before sm a c = true →
  items_before sm a b = true ∨ items_before sm b c = true.
Proof.
  unfold items_before.
  destruct a as [[aloc aorder] aitem], b as [[bloc border] bitem],
           c as [[cloc corder] citem]. simpl.
  destruct (isValid aloc) eqn:Ha, (isValid bloc) eqn:Hb, (isValid cloc) eqn:Hc;
    simpl; try done; try (by left); try (by right).
  intros Hac.
  destruct (decide (aloc = bloc)) as [->|Hab].
  - rewrite N.eqb_refl, (before_irreflexive sm Horder). simpl.
    apply orb_true_iff in Hac as [Hbefore|[Heq Hlt]%andb_true_iff].
    + right. by rewrite Hbefore.
    + rewrite Heq. simpl.
      destruct (aorder <? border)%Z eqn:H1; [by left|].
      right. apply orb_true_iff. right. lia.
  - destruct (before_total sm Horder aloc bloc Ha Hb Hab) as [Hbefore|Hbefore].
    + left. by rewrite Hbefore.
    + right. apply orb_true_iff in Hac as [Hac|[Heq Hlt]%andb_true_iff].
      * by rewrite (before_transitive sm Horder _ _ _ Hbefore Hac).
      * apply N.eqb_eq in Heq. subst. by rewrite Hbefore.
Qed.
End SourceOrder.

Lemma local_order_matches_spec decl : local_order decl = local_order_spec decl.
Proof.
  unfold local_order, local_order_spec.
  by destruct (canon_class decl) as [|[] [] []| |].
Qed.

(** The keys that [EmitIRItems] attaches are those of the specification. *)
Lemma collect_items_keyed self : collect_items self = keyed_by_position self.
Proof. reflexivity. Qed.

Lemma keyed_by_position_items self :
  map snd (keyed_by_position self) = recorded_items self.
Proof.
  unfold keyed_by_position, recorded_items. rewrite map_app, map_map. f_equal.
  induction (seen_decls_ self) as [|e seen IH]; simpl; [done|].
  rewrite map_app, IH, map_map. f_equal. apply map_id.
Qed.

Lemma elem_of_keyed_by_position_declaration self decl items item :
  (decl, items) ∈ seen_decls_ self → item ∈ items →
  (canon_getBeginLoc decl, local_order_spec decl, item) ∈ keyed_by_position self.
Proof.
  intros Hentry Hitem. unfold keyed_by_position. apply elem_of_app. left.
  apply list_elem_of_In, in_flat_map. exists (decl, items).
  split; [by apply list_elem_of_In|]. simpl.
  apply in_map. by apply list_elem_of_In.
Qed.

Lemma elem_of_keyed_by_position_comment self comment :
  comment ∈ comments_ (comment_manager_ self) →
  (comment_getBeginLoc comment, 0%Z, comment_item comment) ∈ keyed_by_position self.
Proof.
  intros Hcomment. unfold keyed_by_position. apply elem_of_app. right.
  apply list_elem_of_In, (in_map (λ c, (comment_getBeginLoc c, 0%Z, comment_item c))).
  by apply list_elem_of_In.
Qed.

Lemma sorted_items_keyed self : sorted_items self ≡ₚ keyed_by_position self.
Proof. rewrite <-collect_items_keyed. apply stable_sort_Permutation. Qed.

Lemma sorted_items_in_source_order self :
  orders_translation_unit (getSourceManager (ctx_ self)) →
  in_source_order (getSourceManager (ctx_ self)) (sorted_items self).
Proof.
  intros Horder i j a b Hi Hj.
  pose proof (stable_sort_positions (items_before (getSourceManager (ctx_ self)))
                (items_before_asymmetric _ Horder)
                (items_before_negatively_transitive _ Horder)
                (collect_items self) i j a b Hi Hj) as Hpos.
  unfold items_before, key_loc, key_order in *.
  split_and!.
  - intros Ha Hb Hbefore. apply Hpos. by rewrite Ha, Hb, Hbefore.
  - intros Ha Hb Heq Hlt. apply Hpos. rewrite Ha, Hb, Heq, N.eqb_refl. simpl.
    apply orb_true_iff. right. lia.
  - intros Ha Hb. apply Hpos. by rewrite Ha, Hb.
Qed.

(** C1. With a source manager that orders the valid locations of the
    translation unit, what [EmitIRItems] appends to the IR is the third
    projection of a list of keyed items that holds, once each, every item
    recorded for a declaration under the begin location of that declaration
    and its tiebreak, and every collected comment under its own begin
    location and the tiebreak 0, and that is sorted: of two items with valid
    begin locations the one that begins earlier comes first; at one location
    the one with the smaller tiebreak comes first, and items with the same
    location and tiebreak keep the order in which they were recorded; every
    item with an invalid location comes before every item with a valid one.
    The tiebreak is 0 for comments and top-level records, 1 for nested
    records, 2, 3, 4, 5 for default, copy, move and other constructors, 6
    for destructors and 7 otherwise, and it is the [local_order] of the
    code. *)
Theorem emitted_items_in_source_order self :
  orders_translation_unit (getSourceManager (ctx_ self)) →
  let sm := getSourceManager (ctx_ self) in
  ∃ sorted : list KeyedItem,
    IR.items (ir_ (EmitIRItems self)) = IR.items (ir_ self) ++ map snd sorted
    ∧ sorted ≡ₚ keyed_by_position self
    ∧ (∀ decl items item,
         (decl, items) ∈ seen_decls_ self → item ∈ items →
         (canon_getBeginLoc decl, local_order_spec decl, item) ∈ sorted)
    ∧ (∀ comment,
         comment ∈ comments_ (comment_manager_ self) →
         (comment_getBeginLoc comment, 0%Z, comment_item comment) ∈ sorted)
    ∧ (∀ i j a b,
         sorted !! i = Some a → sorted !! j = Some b →
         (isValid (key_loc a) = true → isValid (key_loc b) = true →
          isBeforeInTranslationUnit sm (key_loc a) (key_loc b) = true → (i < j)%nat)
         ∧ (isValid (key_loc a) = true → isValid (key_loc b) = true →
            key_loc a = key_loc b → (key_order a < key_order b)%Z → (i < j)%nat)
         ∧ (isValid (key_loc a) = false → isValid (key_loc b) = true → (i < j)%nat))
    ∧ (∀ loc order,
         List.filter (same_key loc order) sorted
         = List.filter (same_key loc order) (keyed_by_position self))
    ∧ List.filter (λ k, negb (isValid (key_loc k))) sorted
      = List.filter (λ k, negb (isValid (key_loc k))) (keyed_by_position self)
    ∧ ∀ decl, local_order decl = local_order_spec decl.
Proof.
  intros Horder sm. exists (sorted_items self).
  pose proof (items_before_asymmetric sm Horder) as Hasym.
  pose proof (items_before_negatively_transitive sm Horder) as Hneg.
  split_and!.
  - reflexivity.
  - apply sorted_items_keyed.
  - intros decl items item Hentry Hitem. rewrite sorted_items_keyed.
    by eapply elem_of_keyed_by_position_declaration.
  - intros comment Hcomment. rewrite sorted_items_keyed.
    by apply elem_of_keyed_by_position_comment.
  - by apply sorted_items_in_source_order.
  - intros loc order. rewrite <-collect_items_keyed. apply stable_sort_filter.
    intros a b [Ha1 Ha2]%andb_true_iff [Hb1 Hb2]%andb_true_iff.
    unfold key_loc, key_order in *.
    apply N.eqb_eq in Ha1, Hb1. apply Z.eqb_eq in Ha2, Hb2.
    unfold items_before. rewrite Ha1, Hb1, Ha2, Hb2.
    destruct (isValid loc); simpl; [|done].
    rewrite (before_irreflexive sm Horder), N.eqb_refl. simpl. lia.
  - rewrite <-collect_items_keyed. apply stable_sort_filter.
    intros a b Ha Hb. unfold items_before, key_loc in *.
    apply negb_true_iff in Ha, Hb. by rewrite Ha, Hb.
  - apply local_order_matches_spec.
Qed.

Lemma Examples_sm_orders_translation_unit : orders_translation_unit Examples.sm.
Proof.
  constructor; simpl.
  - apply N.ltb_irrefl.
  - intros a b c ?%N.ltb_lt ?%N.ltb_lt. apply N.ltb_lt. lia.
  - intros a b _ _ Hne. rewrite !N.ltb_lt. lia.
Qed.

Lemma emitted_items_in_source_order_witness :
  keyed_by_position Examples.visitor_emitting
  = [(10, 2%Z, Examples.note "R::R"); (0, 6%Z, Examples.note "R::~R");
     (10, 0%Z, Examples.note "R"); (5, 7%Z, Examples.note "f");
     (7, 0%Z, IR.ItemComment (mkComment "a comment"))]
  ∧ IR.items (ir_ (EmitIRItems Examples.visitor_emitting))
    = [Examples.note "R::~R"; Examples.note "f";
       IR.ItemComment (mkComment "a comment");
       Examples.note "R"; Examples.note "R::R"]
  ∧ ∃ sorted,
      IR.items (ir_ (EmitIRItems Examples.visitor_emitting)) = [] ++ map snd sorted
      ∧ sorted ≡ₚ keyed_by_position Examples.visitor_emitting.
Proof.
  split; [reflexivity|]. split; [vm_compute; reflexivity|].
  destruct (emitted_items_in_source_order Examples.visitor_emitting
              Examples_sm_orders_translation_unit) as (sorted & Hitems & Hperm & _).
  exists sorted. split; [exact Hitems|exact Hperm].
Defined.

(** * Further properties of the code *)

(** ** Type mapper *)

(** X1. The local qualifiers of a type reach [ConvertType] only through the
    [is_const] flag set on the cc side of the result: two types that differ
    in their local qualifiers alone abort together, fail with the same error,
    or translate to the same type up to that flag; [volatile] changes
    nothing. *)
Theorem local_qualifiers_only_set_cc_const self sugar node lifetimes nullable quals quals' :
  let q := mkQualType quals sugar node in
  let q' := mkQualType quals' sugar node in
  match ConvertType self q lifetimes nullable with
  | None => ConvertType self q' lifetimes nullable = None
  | Some (inl status) => ConvertType self q' lifetimes nullable = Some (inl status)
  | Some (inr m) =>
      ∃ t, m = MappedType.SetCcIsConst (isConstQualified q) t
           ∧ ConvertType self q' lifetimes nullable
             = Some (inr (MappedType.SetCcIsConst (isConstQualified q') t))
  end
  ∧ (q_const quals = q_const quals' →
     ConvertType self q lifetimes nullable = ConvertType self q' lifetimes nullable).
Proof.
  intros q q'.
  assert (Hcore : ∃ core,
             ConvertType self q lifetimes nullable
             = (type ← core; Some (ConvertType_finish q (getAsString (getUnqualifiedType q)) type))
             ∧ ConvertType self q' lifetimes nullable
               = (type ← core;
                  Some (ConvertType_finish q' (getAsString (getUnqualifiedType q)) type))).
  { eexists. split; [rewrite ConvertType_unfold; reflexivity|].
    rewrite ConvertType_unfold. reflexivity. }
  destruct Hcore as (core & -> & ->). split.
  - destruct core as [[t|]|]; simpl; eauto.
  - intros Hconst. destruct core as [[t|]|]; simpl; try done.
    unfold isConstQualified. simpl. by rewrite Hconst.
Qed.

Lemma local_qualifiers_only_set_cc_const_witness :
  ConvertType Examples.visitor MoreExamples.const_volatile_int None false
  = Some (inr (MappedType.SetCcIsConst true (MappedType.Simple "i32" "int")))
  ∧ ConvertType Examples.visitor Examples.int_type None false
    = Some (inr (MappedType.SetCcIsConst false (MappedType.Simple "i32" "int")))
  ∧ ConvertType Examples.visitor MoreExamples.const_volatile_int None false
    = ConvertType Examples.visitor
        (mkQualType (mkQualifiers true false) [] (Builtin BuiltinType.Int)) None false.
Proof.
  pose proof (local_qualifiers_only_set_cc_const Examples.visitor [] (Builtin BuiltinType.Int)
                None false (mkQualifiers true true) (mkQualifiers true false)) as [_ Hvolatile].
  split_and!; [reflexivity..|].
  apply Hvolatile. reflexivity.
Defined.

Lemma ConvertType_error self qual_type lifetimes nullable status :
  ConvertType self qual_type lifetimes nullable = Some (inl status) →
  status = UnsupportedTypeError (getAsString (getUnqualifiedType qual_type))
  ∧ fixed_flat_map_find kWellKnownTypes (getAsString (getUnqualifiedType qual_type)) = None.
Proof.
  rewrite ConvertType_unfold. cbv zeta. intros Hconvert.
  destruct (fixed_flat_map_find kWellKnownTypes _) eqn:Hfind; [done|].
  apply bind_Some in Hconvert as (type & _ & Hfinish).
  destruct type; simplify_eq/=. done.
Qed.

(** X2. The only error of [ConvertType] is the Unimplemented status
    "Unsupported type '<spelling>'" whose payload is that spelling, and the
    spelling is the unqualified one of the type that was asked for, also
    when it is the pointee of the type that has no translation. *)
Theorem unsupported_type_error_names_the_type self qual_type lifetimes nullable status :
  ConvertType self qual_type lifetimes nullable = Some (inl status) →
  let type_string := getAsString (getUnqualifiedType qual_type) in
  status = UnsupportedTypeError type_string
  ∧ status_message status = "Unsupported type '" +:+ type_string +:+ "'"
  ∧ status_payloads status = [(kTypeStatusPayloadUrl, type_string)]
  ∧ fixed_flat_map_find kWellKnownTypes type_string = None.
Proof.
  intros Hconvert type_string.
  destruct (ConvertType_error _ _ _ _ _ Hconvert) as [-> Hfind]. done.
Qed.

Lemma unsupported_type_error_names_the_type_witness :
  ConvertType Examples.visitor MoreExamples.long_double_ptr None false
  = Some (inl (UnsupportedTypeError "long double *"))
  ∧ status_message (UnsupportedTypeError "long double *")
    = "Unsupported type 'long double *'".
Proof.
  destruct (ConvertType Examples.visitor MoreExamples.long_double_ptr None false)
    as [[status|]|] eqn:Hconvert; [|vm_compute in Hconvert; discriminate..].
  destruct (unsupported_type_error_names_the_type _ _ _ _ _ Hconvert) as (-> & _).
  split; reflexivity.
Defined.

Lemma ConvertType_pointer_layer self qual_type pointee lifetimes lifetime rest nullable :
  fixed_flat_map_find kWellKnownTypes (getAsString (getUnqualifiedType qual_type)) = None →
  getAs_PointerType qual_type = Some pointee
  ∨ getAs_LValueReferenceType qual_type = Some pointee →
  take_lifetime lifetimes = Some (lifetime, rest) →
  ConvertType self qual_type lifetimes nullable
  = match ConvertType self pointee rest ConvertType_default_nullable with
    | None => None
    | Some (inl _) =>
        Some (inl (UnsupportedTypeError (getAsString (getUnqualifiedType qual_type))))
    | Some (inr p) =>
        Some (inr (MappedType.SetCcIsConst (isConstQualified qual_type)
                     (match getAs_PointerType qual_type with
                      | Some _ => MappedType.PointerTo p lifetime nullable
                      | None => MappedType.LValueReferenceTo p lifetime
                      end)))
    end.
Proof.
  intros Hfind Hlayer Htake. rewrite ConvertType_unfold. cbv zeta. rewrite Hfind.
  assert (Hnode : getAs_PointerType qual_type = Some pointee
                  ∨ getAs_PointerType qual_type = None
                    ∧ getAs_LValueReferenceType qual_type = Some pointee).
  { destruct Hlayer as [?|Href]; [by left|]. right. split; [|done].
    destruct qual_type as [? ? []]; simplify_eq/=; done. }
  destruct Hnode as [->|[-> ->]]; rewrite Htake; simpl;
    by destruct (ConvertType self pointee rest _) as [[?|?]|].
Qed.

(** X3. A pointer or lvalue-reference type whose spelling is not well known
    translates exactly when its pointee does, converted with the lifetimes
    left below this layer and the default for [nullable]; the result is the
    pointee's translation under one pointer or reference layer that carries
    the layer's lifetime, and a failure is reported for the whole type. *)
Theorem pointer_translates_iff_pointee self qual_type pointee lifetimes lifetime rest
    nullable :
  fixed_flat_map_find kWellKnownTypes (getAsString (getUnqualifiedType qual_type)) = None →
  getAs_PointerType qual_type = Some pointee
  ∨ getAs_LValueReferenceType qual_type = Some pointee →
  take_lifetime lifetimes = Some (lifetime, rest) →
  converts self qual_type lifetimes nullable
  = converts self pointee rest ConvertType_default_nullable
  ∧ (∀ m, ConvertType self qual_type lifetimes nullable = Some (inr m) →
          ∃ p, ConvertType self pointee rest ConvertType_default_nullable = Some (inr p)
               ∧ pointee_of m = Some p
               ∧ layer_lifetimes m = lifetime :: layer_lifetimes p)
  ∧ (converts self pointee rest ConvertType_default_nullable = false →
     is_Some (ConvertType self pointee rest ConvertType_default_nullable) →
     ConvertType self qual_type lifetimes nullable
     = Some (inl (UnsupportedTypeError (getAsString (getUnqualifiedType qual_type))))).
Proof.
  intros Hfind Hlayer Htake. unfold converts.
  rewrite (ConvertType_pointer_layer _ _ _ _ _ _ _ Hfind Hlayer Htake).
  destruct (ConvertType self pointee rest _) as [[status|p]|]; split_and!; try done.
  intros m [= <-]. exists p. by destruct (getAs_PointerType qual_type).
Qed.

Lemma pointer_translates_iff_pointee_witness :
  converts Examples.visitor Examples.int_ptr_ref None false
  = converts Examples.visitor Examples.int_ptr None false
  ∧ converts Examples.visitor Examples.int_ptr None false = true.
Proof.
  split; [|reflexivity].
  refine (proj1 (pointer_translates_iff_pointee Examples.visitor Examples.int_ptr_ref
                   Examples.int_ptr None None None false _ _ _));
    [reflexivity|right; reflexivity|reflexivity].
Defined.

(** X4. Of the builtin kinds that are no integers, [float], [double] and
    [void] translate (to [f32], [f64] and the void type) and every other one
    ([long double], [__fp16], [__float128], [std::nullptr_t]) is an
    unsupported type; [bool] translates to [bool] whatever its size. *)
Theorem builtin_non_integer_support self qual_type lifetimes nullable k :
  getAsAdjusted_BuiltinType qual_type = Some k →
  BuiltinType.isIntegerType k = false ∨ k = BuiltinType.Bool →
  ConvertType self qual_type lifetimes nullable
  = Some (match named_builtin k with
          | Some t => inr (MappedType.SetCcIsConst (isConstQualified qual_type) t)
          | None => inl (UnsupportedTypeError (BuiltinType.getName k))
          end)
  ∧ (is_Some (named_builtin k)
     ↔ k ∈ [BuiltinType.Bool; BuiltinType.Float; BuiltinType.Double; BuiltinType.Void]).
Proof.
  intros Hbuiltin Hkind.
  destruct (builtin_spelling _ _ Hbuiltin) as (Hspelling & Hpointer & Hreference).
  split.
  - rewrite ConvertType_unfold. cbv zeta.
    rewrite Hspelling, Hpointer, Hreference.
    unfold ConvertNonPointerType. rewrite Hbuiltin.
    destruct Hkind as [Hkind| ->]; [|reflexivity].
    destruct k; try discriminate Hkind; reflexivity.
  - rewrite !elem_of_cons, elem_of_nil.
    destruct k; simpl; split; intros H; try (by eauto);
      try (by destruct H as [? [=]]); naive_solver.
Qed.

Lemma builtin_non_integer_support_witness :
  ConvertType Examples.visitor (Examples.builtin BuiltinType.Double) None false
  = Some (inr (MappedType.SetCcIsConst false (MappedType.Simple "f64" "double")))
  ∧ ConvertType Examples.visitor (Examples.builtin BuiltinType.LongDouble) None false
    = Some (inl (UnsupportedTypeError "long double")).
Proof.
  split.
  - refine (proj1 (builtin_non_integer_support Examples.visitor
                     (Examples.builtin BuiltinType.Double) None false BuiltinType.Double
                     _ _)); [reflexivity|left; reflexivity].
  - refine (proj1 (builtin_non_integer_support Examples.visitor
                     (Examples.builtin BuiltinType.LongDouble) None false
                     BuiltinType.LongDouble _ _)); [reflexivity|left; reflexivity].
Defined.

Lemma ConvertNonPointerType_mono ctx known known' qual_type type_string t :
  known ⊆ known' →
  ConvertNonPointerType ctx known qual_type type_string = Some t →
  ConvertNonPointerType ctx known' qual_type type_string = Some t.
Proof.
  intros Hsub. unfold ConvertNonPointerType.
  repeat case_match; try done; intros;
    repeat match goal with
           | H : bool_decide _ = true |- _ => apply bool_decide_eq_true in H
           | H : bool_decide _ = false |- _ => apply bool_decide_eq_false in H
           end; set_solver.
Qed.

Lemma ConvertType_mono self self' qual_type :
  ctx_ self = ctx_ self' → known_type_decls_ self ⊆ known_type_decls_ self' →
  ∀ lifetimes nullable m,
    ConvertType self qual_type lifetimes nullable = Some (inr m) →
    ConvertType self' qual_type lifetimes nullable = Some (inr m).
Proof.
  intros Hctx Hknown. induction qual_type as [q IHpointer IHreference]
    using QualType_pointee_ind.
  intros lifetimes nullable m. rewrite !ConvertType_unfold. cbv zeta.
  destruct (fixed_flat_map_find kWellKnownTypes _); [done|].
  destruct (getAs_PointerType q) as [pointee|] eqn:Hpointer.
  { destruct (take_lifetime lifetimes) as [[lifetime rest]|]; [simpl|done].
    destruct (ConvertType self pointee rest _) as [[status|p]|] eqn:Hpointee; [done| |done].
    by rewrite (IHpointer _ eq_refl _ _ _ Hpointee). }
  destruct (getAs_LValueReferenceType q) as [pointee|] eqn:Hreference.
  { destruct (take_lifetime lifetimes) as [[lifetime rest]|]; [simpl|done].
    destruct (ConvertType self pointee rest _) as [[status|p]|] eqn:Hpointee; [done| |done].
    by rewrite (IHreference _ eq_refl _ _ _ Hpointee). }
  simpl. rewrite <-Hctx.
  destruct (ConvertNonPointerType (ctx_ self) (known_type_decls_ self) q _) as [t|] eqn:Hleaf;
    [|done].
  by rewrite (ConvertNonPointerType_mono _ _ _ _ _ _ Hknown Hleaf).
Qed.

Lemma ConvertType_aborts_alike self self' qual_type :
  ∀ lifetimes nullable,
    is_Some (ConvertType self qual_type lifetimes nullable) →
    is_Some (ConvertType self' qual_type lifetimes nullable).
Proof.
  induction qual_type as [q IHpointer IHreference] using QualType_pointee_ind.
  intros lifetimes nullable. rewrite !ConvertType_unfold. cbv zeta.
  destruct (fixed_flat_map_find kWellKnownTypes _); [done|].
  destruct (getAs_PointerType q) as [pointee|] eqn:Hpointer.
  { destruct (take_lifetime lifetimes) as [[lifetime rest]|]; [simpl|done].
    destruct (ConvertType self pointee rest _) as [r|] eqn:Hpointee;
      [|by intros [? [=]]].
    destruct (IHpointer _ eq_refl rest ConvertType_default_nullable) as [r' ->]; [by eauto|].
    by eauto. }
  destruct (getAs_LValueReferenceType q) as [pointee|] eqn:Hreference; [|by eauto].
  destruct (take_lifetime lifetimes) as [[lifetime rest]|]; [simpl|done].
  destruct (ConvertType self pointee rest _) as [r|] eqn:Hpointee;
    [|by intros [? [=]]].
  destruct (IHreference _ eq_refl rest ConvertType_default_nullable) as [r' ->]; [by eauto|].
  by eauto.
Qed.

(** X5. Knowing more type declarations only adds translations: a type that
    translates still translates, to the same result, once further
    declarations are in [known_type_decls_]; a type that is unsupported then
    was unsupported before; and whether the [CHECK] on the lifetime stack
    fires does not depend on the known declarations at all. *)
Theorem known_types_only_add_translations self self' qual_type lifetimes nullable :
  ctx_ self = ctx_ self' →
  known_type_decls_ self ⊆ known_type_decls_ self' →
  (∀ m, ConvertType self qual_type lifetimes nullable = Some (inr m) →
        ConvertType self' qual_type lifetimes nullable = Some (inr m))
  ∧ (∀ status, ConvertType self' qual_type lifetimes nullable = Some (inl status) →
               ConvertType self qual_type lifetimes nullable = Some (inl status))
  ∧ (ConvertType self qual_type lifetimes nullable = None
     ↔ ConvertType self' qual_type lifetimes nullable = None).
Proof.
  intros Hctx Hknown. split_and!.
  - apply ConvertType_mono; done.
  - intros status Hfails.
    destruct (ConvertType self qual_type lifetimes nullable) as [[status'|m]|] eqn:Hconvert.
    + destruct (ConvertType_error _ _ _ _ _ Hconvert) as [-> _].
      destruct (ConvertType_error _ _ _ _ _ Hfails) as [-> _]. done.
    + rewrite (ConvertType_mono _ _ _ Hctx Hknown _ _ _ Hconvert) in Hfails. done.
    + destruct (ConvertType_aborts_alike self' self qual_type lifetimes nullable)
        as [? [=]]; [by eauto|].
      congruence.
  - rewrite !eq_None_not_Some. split; intros Hnone Hsome; apply Hnone;
      eapply ConvertType_aborts_alike; done.
Qed.

Lemma known_types_only_add_translations_witness :
  ConvertType Examples.visitor_knowing_S Examples.int_ptr None false
  = Some (inr (MappedType.SetCcIsConst false
                 (MappedType.PointerTo
                    (MappedType.SetCcIsConst false (MappedType.Simple "i32" "int"))
                    None false))).
Proof.
  refine (proj1 (known_types_only_add_translations Examples.visitor
                   Examples.visitor_knowing_S Examples.int_ptr None false _ _) _ _);
    [reflexivity|set_solver|reflexivity].
Defined.

Lemma erase_lifetimes_leaf t : is_leaf t → erase_lifetimes t = t.
Proof. by destruct t. Qed.

Lemma ConvertType_without_lifetimes self qual_type :
  ∀ lifetimes nullable r,
    ConvertType self qual_type lifetimes nullable = Some r →
    ConvertType self qual_type None nullable
    = Some (match r with
            | inl status => inl status
            | inr m => inr (erase_lifetimes m)
            end).
Proof.
  induction qual_type as [q IHpointer IHreference] using QualType_pointee_ind.
  intros lifetimes nullable r. rewrite !ConvertType_unfold. cbv zeta.
  destruct (fixed_flat_map_find kWellKnownTypes _); [by intros [= <-]|].
  destruct (getAs_PointerType q) as [pointee|] eqn:Hpointer.
  { destruct (take_lifetime lifetimes) as [[lifetime rest]|]; [simpl|done].
    destruct (ConvertType self pointee rest _) as [rp|] eqn:Hpointee; [simpl|done].
    rewrite (IHpointer _ eq_refl _ _ _ Hpointee). intros [= <-].
    by destruct rp. }
  destruct (getAs_LValueReferenceType q) as [pointee|] eqn:Hreference.
  { destruct (take_lifetime lifetimes) as [[lifetime rest]|]; [simpl|done].
    destruct (ConvertType self pointee rest _) as [rp|] eqn:Hpointee; [simpl|done].
    rewrite (IHreference _ eq_refl _ _ _ Hpointee). intros [= <-].
    by destruct rp. }
  simpl. intros [= <-].
  destruct (ConvertNonPointerType _ _ _ _) as [t|] eqn:Hleaf; [|done]. simpl.
  by rewrite (erase_lifetimes_leaf t (ConvertNonPointerType_leaf _ _ _ _ _ Hleaf)).
Qed.

(** X27. Lifetime annotations only annotate: whenever [ConvertType] returns
    for a type with a lifetime stack, it returns for the type without one
    as well, with the same error or with the same translation but for the
    lifetimes on its pointer and reference layers, which are absent then;
    so whether a type translates never depends on the annotations. *)
Theorem lifetimes_only_annotate self qual_type stack nullable r :
  ConvertType self qual_type (Some stack) nullable = Some r →
  ConvertType self qual_type None nullable
  = Some (match r with
          | inl status => inl status
          | inr m => inr (erase_lifetimes m)
          end)
  ∧ converts self qual_type (Some stack) nullable = converts self qual_type None nullable
  ∧ ∀ m, r = inr m →
         Forall (λ lifetime, lifetime = None) (layer_lifetimes (erase_lifetimes m))
         ∧ length (layer_lifetimes (erase_lifetimes m)) = length (layer_lifetimes m).
Proof.
  intros Hconvert.
  pose proof (ConvertType_without_lifetimes _ _ _ _ _ Hconvert) as Hwithout.
  split; [exact Hwithout|]. split.
  - unfold converts. rewrite Hconvert, Hwithout. by destruct r.
  - intros m _. clear. induction m; simpl; try done.
    + destruct IHm. split; [by constructor|by f_equal].
    + destruct IHm. split; [by constructor|by f_equal].
Qed.

Lemma lifetimes_only_annotate_witness :
  ConvertType Examples.visitor Examples.int_ptr_ref None true
  = Some (inr (MappedType.SetCcIsConst false
                 (MappedType.LValueReferenceTo
                    (MappedType.SetCcIsConst false
                       (MappedType.PointerTo
                          (MappedType.SetCcIsConst false (MappedType.Simple "i32" "int"))
                          None false))
                    None))).
Proof.
  destruct (ConvertType Examples.visitor Examples.int_ptr_ref
              (Some [Examples.lifetime_a; Examples.lifetime_b]) true)
    as [r|] eqn:Hannotated; [|vm_compute in Hannotated; discriminate].
  rewrite (proj1 (lifetimes_only_annotate _ _ _ _ _ Hannotated)).
  vm_compute in Hannotated. by injection Hannotated as <-.
Defined.

(** X28. The [nullable] argument of [ConvertType] decides the flag of the
    outermost pointer layer and nothing else: a pointer type that is
    converted carries the argument as the flag of its outer pointer, and
    with another argument the conversion returns the same type but for that
    flag, so the pointee, with all the layers in it, does not depend on the
    argument; nor does it depend on the argument whether the conversion
    fails. *)
Theorem nullable_sets_outermost_flag_only self qual_type lifetimes nullable nullable' r :
  ConvertType self qual_type lifetimes nullable = r →
  match r with
  | Some (inr m) =>
      (∀ n, outer_pointer_nullable m = Some n → n = nullable)
      ∧ (fixed_flat_map_find kWellKnownTypes (getAsString (getUnqualifiedType qual_type))
           = None →
         is_Some (getAs_PointerType qual_type) →
         outer_pointer_nullable m = Some nullable)
      ∧ ConvertType self qual_type lifetimes nullable'
        = Some (inr (set_outer_nullable nullable' m))
      ∧ pointee_of (set_outer_nullable nullable' m) = pointee_of m
  | _ => ConvertType self qual_type lifetimes nullable' = r
  end.
Proof.
  intros <-. rewrite !ConvertType_unfold. cbv zeta.
  destruct (fixed_flat_map_find _ _) as [rs|] eqn:Hfind; simpl.
  { split_and!; done. }
  destruct (getAs_PointerType qual_type) as [pointee|] eqn:Hptr.
  { destruct (take_lifetime lifetimes) as [[lifetime rest]|]; simpl; [|done].
    destruct (ConvertType self pointee rest _) as [[status|p]|]; simpl; [done| |done].
    split_and!; try done. by intros n [= <-]. }
  destruct (getAs_LValueReferenceType qual_type) as [pointee|] eqn:Href.
  { destruct (take_lifetime lifetimes) as [[lifetime rest]|]; simpl; [|done].
    destruct (ConvertType self pointee rest _) as [[status|p]|]; simpl; [done| |done].
    split_and!; done. }
  simpl. destruct (ConvertNonPointerType _ _ _ _) as [t|] eqn:Ht; simpl; [|done].
  apply ConvertNonPointerType_leaf in Ht.
  destruct t; try done; split_and!; done.
Qed.

Lemma nullable_sets_outermost_flag_only_witness :
  ∃ p lifetime,
    ConvertType Examples.visitor Examples.int_ptr_ptr None true
    = Some (inr (MappedType.SetCcIsConst false (MappedType.PointerTo p lifetime true)))
    ∧ ConvertType Examples.visitor Examples.int_ptr_ptr None false
      = Some (inr (MappedType.SetCcIsConst false (MappedType.PointerTo p lifetime false))).
Proof.
  eexists _, _. split; [reflexivity|].
  exact (proj1 (proj2 (proj2 (nullable_sets_outermost_flag_only Examples.visitor
                                Examples.int_ptr_ptr None true false _ eq_refl)))).
Defined.

(** ** Record importer *)

Lemma ImportFields_loop_imported self definition record_decl default_access field_decls :
  default_access ≠ AS_none →
  existsb (field_fails self) field_decls = false →
  ∀ fields,
    ∃ imported,
      ImportFields_loop self definition record_decl default_access field_decls fields
      = Some (self, Some (fields ++ imported))
      ∧ Forall2 (field_imported self record_decl default_access) field_decls imported.
Proof.
  intros Hdefault.
  induction field_decls as [|field_decl rest IH]; intros Hfields fields; simpl.
  { exists []. rewrite app_nil_r. split; [done|constructor]. }
  simpl in Hfields. apply orb_false_iff in Hfields as [Hfield Hrest].
  unfold field_fails, converts in Hfield. apply orb_false_iff in Hfield as [Htype Hname].
  destruct (ConvertType self (field_getType field_decl) ConvertType_default_lifetimes
              ConvertType_default_nullable) as [[status|type]|] eqn:Hconvert; try done.
  destruct (GetTranslatedIdentifier (field_named field_decl)) as [field_name|] eqn:Hident;
    [|done].
  simpl.
  set (access := match field_getAccess field_decl with
                 | AS_none => default_access | _ => _ end).
  assert (∃ a, TranslateAccessSpecifier access = Some a) as [a Ha].
  { subst access. destruct (field_getAccess field_decl); simpl; eauto.
    destruct default_access; simpl; eauto. done. }
  rewrite Ha. simpl.
  destruct (IH Hrest (fields ++ [Field.mk field_name
                              (GetComment (field_raw_comment field_decl)) type a
                              (getFieldOffset (getASTRecordLayout record_decl)
                                              (getFieldIndex field_decl))]))
    as (imported & -> & Himported).
  eexists (_ :: imported). rewrite <- app_assoc. split; [reflexivity|].
  constructor; [|exact Himported]. by repeat split.
Qed.

(** The visitor after the import of a record all of whose fields
    translate. *)
Lemma VisitRecordDecl_success self decl record_decl definition record_name :
  reaches_field_import decl record_decl definition record_name →
  existsb (field_fails (provisionally_known self definition)) (record_fields definition)
  = false →
  ∃ fields,
    Forall2 (field_imported (provisionally_known self definition) definition
                            (default_access_of definition))
            (record_fields definition) fields
    ∧ VisitRecordDecl self decl record_decl
      = Some (set_seen_decls_
                (seen_push_back (seen_decls_ self) (getCanonicalDecl decl)
                   (IR.ItemRecord
                      (Record_.mk record_name
                         (GenerateDeclId (canon_ptr (getCanonicalDecl decl)))
                         (GetOwningTarget self (def_common decl definition))
                         (GetComment (def_getRawCommentForDeclNoCache definition))
                         fields
                         (getSize (getASTRecordLayout definition))
                         (getAlignment (getASTRecordLayout definition))
                         (GetCopyCtorSpecialMemberFunc definition)
                         (GetMoveCtorSpecialMemberFunc definition)
                         (GetDestructorSpecialMemberFunc definition)
                         (record_canPassInRegisters definition)
                         (from_option isEffectivelyFinal true
                                      (dyn_cast_CXXRecordDecl definition)))))
                (provisionally_known self definition)).
Proof.
  intros [Hlocal Hnested Hunion Hdef Hcomplete Htemplate Hname] Hfields.
  unfold VisitRecordDecl. rewrite Hlocal, Hnested, Hunion, Hdef, Hcomplete, Htemplate.
  change (named (def_common decl definition)) with (def_named definition).
  rewrite Hname.
  change (if from_option isClass false (dyn_cast_CXXRecordDecl definition)
          then AS_private else AS_public) with (default_access_of definition).
  assert (default_access_of definition ≠ AS_none) as Hdefault.
  { unfold default_access_of.
    by destruct (from_option isClass false (dyn_cast_CXXRecordDecl definition)). }
  change (set_known_type_decls_ _ self) with (provisionally_known self definition).
  unfold ImportFields.
  destruct (ImportFields_loop_imported (provisionally_known self definition)
              (def_common decl definition) definition (default_access_of definition)
              (record_fields definition) Hdefault Hfields [])
    as (fields & -> & Himported).
  exists fields. split; [exact Himported|]. reflexivity.
Qed.

(** X6. A record whose import reaches its fields and all of whose fields
    translate is recorded as one [Record] item, whatever target owns it: the
    item carries the record's name, the id of its canonical declaration, its
    owning target, its doc comment, the size and the alignment of its layout
    and whether it can be passed in registers; its fields are those of the
    definition, one for one and in declaration order, each with its
    translated name and type, its comment and its offset in the layout, and a
    field declared under no access specifier is public in a struct and
    private in a class. *)
Theorem imported_record_contents self decl record_decl definition record_name :
  reaches_field_import decl record_decl definition record_name →
  existsb (field_fails (provisionally_known self definition)) (record_fields definition)
  = false →
  ∃ self' record,
    VisitRecordDecl self decl record_decl = Some self'
    ∧ seen_lookup (seen_decls_ self') (canon_ptr (getCanonicalDecl decl))
      = seen_lookup (seen_decls_ self) (canon_ptr (getCanonicalDecl decl))
        ++ [IR.ItemRecord record]
    ∧ Record_.identifier record = record_name
    ∧ Record_.id record = GenerateDeclId (canon_ptr (getCanonicalDecl decl))
    ∧ Record_.owning_target record = GetOwningTarget self (def_common decl definition)
    ∧ Record_.doc_comment record = GetComment (def_getRawCommentForDeclNoCache definition)
    ∧ Record_.size record = getSize (getASTRecordLayout definition)
    ∧ Record_.alignment record = getAlignment (getASTRecordLayout definition)
    ∧ Record_.is_trivial_abi record = record_canPassInRegisters definition
    ∧ Forall2 (field_imported (provisionally_known self definition) definition
                              (default_access_of definition))
              (record_fields definition) (Record_.fields record)
    ∧ Forall2 (λ field_decl field,
                 field_getAccess field_decl = AS_none →
                 Field.access field
                 = if from_option isClass false (dyn_cast_CXXRecordDecl definition)
                   then kPrivate else kPublic)
              (record_fields definition) (Record_.fields record).
Proof.
  intros Hreaches Hfields.
  destruct (VisitRecordDecl_success self _ _ _ _ Hreaches Hfields)
    as (fields & Himported & ->).
  eexists _, _. split; [reflexivity|]. simpl.
  rewrite seen_lookup_push_back, N.eqb_refl.
  split_and!; try reflexivity; [exact Himported|].
  eapply Forall2_impl; [exact Himported|].
  intros field_decl field (_ & _ & _ & Haccess & _) Hnone. rewrite Hnone in Haccess.
  unfold default_access_of in Haccess.
  destruct (from_option isClass false (dyn_cast_CXXRecordDecl definition));
    by injection Haccess.
Qed.

Lemma Examples_list_node_reaches_field_import :
  reaches_field_import Examples.T_common MoreExamples.list_node
                       MoreExamples.list_node_definition (mkIdentifier "T").
Proof. by split. Qed.

Lemma imported_record_contents_witness :
  ∃ self' record,
    VisitRecordDecl Examples.visitor Examples.T_common MoreExamples.list_node = Some self'
    ∧ seen_lookup (seen_decls_ self') 40 = [] ++ [IR.ItemRecord record]
    ∧ Record_.identifier record = mkIdentifier "T"
    ∧ Record_.size record = 16
    ∧ map Field.offset (Record_.fields record) = [0; 64]
    ∧ map Field.access (Record_.fields record) = [kPublic; kPublic].
Proof.
  destruct (imported_record_contents Examples.visitor Examples.T_common
              MoreExamples.list_node MoreExamples.list_node_definition (mkIdentifier "T")
              Examples_list_node_reaches_field_import eq_refl)
    as (self' & record & Hvisit & Hseen & Hname & _ & _ & _ & Hsize & _).
  exists self', record. split; [exact Hvisit|].
  split; [exact Hseen|]. split; [exact Hname|]. split; [exact Hsize|].
  vm_compute in Hvisit. injection Hvisit as <-.
  vm_compute in Hseen. injection Hseen as <-. split; reflexivity.
Defined.

Lemma has_space_app s1 s2 : has_space (s1 +:+ s2) = has_space s1 || has_space s2.
Proof. induction s1 as [|c s1 IH]; simpl; [done|]. by rewrite IH, orb_assoc. Qed.

Lemma well_known_spelling_has_no_space key :
  has_space key = true → fixed_flat_map_find kWellKnownTypes key = None.
Proof.
  intros Hspace.
  assert (Hkeys : Forall (λ e, has_space e.1 = false) kWellKnownTypes)
    by (repeat constructor).
  induction Hkeys as [|[k v] m Hk _ IH]; [done|].
  unfold fixed_flat_map_find; fold fixed_flat_map_find.
  destruct (String.eqb_spec k key) as [->|_]; [|exact IH].
  simpl in Hk. congruence.
Qed.

Lemma pointer_spelling_not_well_known quals pointee :
  fixed_flat_map_find kWellKnownTypes
    (getAsString (getUnqualifiedType (mkQualType quals [] (Pointer pointee)))) = None
  ∧ fixed_flat_map_find kWellKnownTypes
      (getAsString (getUnqualifiedType (mkQualType quals [] (LValueReference pointee))))
    = None.
Proof.
  split; apply well_known_spelling_has_no_space.
  - change (has_space (getAsString pointee +:+ " *") = true).
    rewrite has_space_app. apply orb_true_r.
  - change (has_space (getAsString pointee +:+ " &") = true).
    rewrite has_space_app. apply orb_true_r.
Qed.

Lemma known_tag_translates self quals tag_decl id lifetimes nullable :
  tag_ptr tag_decl ∈ known_type_decls_ self →
  GetTranslatedIdentifier (tag_named tag_decl) = Some id →
  fixed_flat_map_find kWellKnownTypes (tag_spelling tag_decl) = None →
  ConvertType self (mkQualType quals [] (Tag tag_decl)) lifetimes nullable
  = Some (inr (MappedType.SetCcIsConst
                 (isConstQualified (mkQualType quals [] (Tag tag_decl)))
                 (MappedType.WithDeclIds (Ident id)
                    (GenerateDeclId (tag_canonical_ptr tag_decl))
                    (Ident id) (GenerateDeclId (tag_canonical_ptr tag_decl))))).
Proof.
  intros Hknown Hname Hfind. rewrite ConvertType_unfold. cbv zeta.
  change (getAsString (getUnqualifiedType (mkQualType quals [] (Tag tag_decl))))
    with (tag_spelling tag_decl).
  rewrite Hfind.
  unfold getAs_PointerType, getAs_LValueReferenceType, ConvertNonPointerType,
    getAsAdjusted_BuiltinType, getAsAdjusted_TagType. simpl.
  by rewrite bool_decide_eq_true_2, Hname.
Qed.

(** X7. A type that names a record translates exactly when the record has
    been imported: before the import it is an unsupported type; after an
    import in which all fields translate it is the record's name with, on
    both sides, the id of the [Record] item that the import recorded. *)
Theorem record_type_resolves_to_imported_record self decl record_decl definition
    record_name quals tag_decl lifetimes nullable :
  reaches_field_import decl record_decl definition record_name →
  existsb (field_fails (provisionally_known self definition)) (record_fields definition)
  = false →
  tag_ptr tag_decl = def_this_ptr definition →
  tag_canonical_ptr tag_decl = canon_ptr (getCanonicalDecl decl) →
  tag_named tag_decl = def_named definition →
  fixed_flat_map_find kWellKnownTypes (tag_spelling tag_decl) = None →
  let qual_type := mkQualType quals [] (Tag tag_decl) in
  (def_this_ptr definition ∉ known_type_decls_ self →
   ConvertType self qual_type lifetimes nullable
   = Some (inl (UnsupportedTypeError (tag_spelling tag_decl))))
  ∧ ∃ self' record,
      VisitRecordDecl self decl record_decl = Some self'
      ∧ last (seen_lookup (seen_decls_ self') (canon_ptr (getCanonicalDecl decl)))
        = Some (IR.ItemRecord record)
      ∧ ConvertType self' qual_type lifetimes nullable
        = Some (inr (MappedType.SetCcIsConst (isConstQualified qual_type)
                       (MappedType.WithDeclIds
                          (Ident (Record_.identifier record)) (Record_.id record)
                          (Ident (Record_.identifier record)) (Record_.id record)))).
Proof.
  intros Hreaches Hfields Hptr Hcanonical Hnamed Hfind qual_type. split.
  - intros Hunknown.
    apply (unknown_tag_unsupported self qual_type tag_decl); [done| |done].
    by rewrite Hptr.
  - destruct (VisitRecordDecl_success self _ _ _ _ Hreaches Hfields)
      as (fields & _ & ->).
    eexists _, _. split; [reflexivity|]. simpl.
    rewrite seen_lookup_push_back, N.eqb_refl, last_snoc. split; [reflexivity|].
    simpl. rewrite <-Hcanonical.
    apply known_tag_translates; [|by rewrite Hnamed; apply Hreaches|done].
    simpl. rewrite Hptr. set_solver.
Qed.

Lemma record_type_resolves_to_imported_record_witness :
  ConvertType Examples.visitor MoreExamples.T_type None false
  = Some (inl (UnsupportedTypeError "T"))
  ∧ ∃ self',
      VisitRecordDecl Examples.visitor Examples.T_common MoreExamples.list_node
      = Some self'
      ∧ ConvertType self' MoreExamples.T_type None false
        = Some (inr (MappedType.SetCcIsConst false
                       (MappedType.WithDeclIds "T" (mkDeclId 40) "T" (mkDeclId 40)))).
Proof.
  destruct (record_type_resolves_to_imported_record Examples.visitor Examples.T_common
              MoreExamples.list_node MoreExamples.list_node_definition (mkIdentifier "T")
              Examples.unqualified MoreExamples.T_tag None false
              Examples_list_node_reaches_field_import eq_refl eq_refl eq_refl eq_refl
              eq_refl)
    as [Hbefore (self' & record & Hvisit & Hlast & Hafter)].
  split; [apply Hbefore; set_solver|].
  exists self'. split; [exact Hvisit|]. unfold MoreExamples.T_type. rewrite Hafter.
  vm_compute in Hvisit. injection Hvisit as <-.
  vm_compute in Hlast. injection Hlast as <-. reflexivity.
Defined.

Lemma refers_to_record_translates self definition qual_type :
  refers_to_record definition qual_type →
  is_Some (GetTranslatedIdentifier (def_named definition)) →
  def_this_ptr definition ∈ known_type_decls_ self →
  ∀ nullable, converts self qual_type None nullable = true.
Proof.
  intros Hrefers [id Hname] Hknown.
  induction Hrefers as [quals tag_decl Hptr Hnamed Hfind|quals pointee _ IH
                        |quals pointee _ IH]; intros nullable; unfold converts.
  - rewrite (known_tag_translates self quals tag_decl id); [done| |by rewrite Hnamed|done].
    by rewrite Hptr.
  - rewrite (ConvertType_pointer_layer self _ pointee None None None);
      [|apply pointer_spelling_not_well_known|by left|done].
    specialize (IH ConvertType_default_nullable). unfold converts in IH.
    by destruct (ConvertType self pointee None _) as [[?|?]|].
  - rewrite (ConvertType_pointer_layer self _ pointee None None None);
      [|apply pointer_spelling_not_well_known|by right|done].
    specialize (IH ConvertType_default_nullable). unfold converts in IH.
    by destruct (ConvertType self pointee None _) as [[?|?]|].
Qed.

(** X8. A record may refer to itself: when the import of a record reaches
    its fields, a field whose type names the record under pointer or
    reference layers translates although the record is not imported yet, so
    a record whose other fields translate already is imported, with one
    [Record] item, and is known afterwards. *)
Theorem self_referential_record_imported self decl record_decl definition record_name :
  reaches_field_import decl record_decl definition record_name →
  Forall (λ field_decl,
            is_Some (GetTranslatedIdentifier (field_named field_decl))
            ∧ (converts self (field_getType field_decl) ConvertType_default_lifetimes
                        ConvertType_default_nullable = true
               ∨ refers_to_record definition (field_getType field_decl)))
         (record_fields definition) →
  ∃ self' record,
    VisitRecordDecl self decl record_decl = Some self'
    ∧ seen_lookup (seen_decls_ self') (canon_ptr (getCanonicalDecl decl))
      = seen_lookup (seen_decls_ self) (canon_ptr (getCanonicalDecl decl))
        ++ [IR.ItemRecord record]
    ∧ length (Record_.fields record) = length (record_fields definition)
    ∧ known_type_decls_ self' = {[ def_this_ptr definition ]} ∪ known_type_decls_ self.
Proof.
  intros Hreaches Hfields.
  assert (existsb (field_fails (provisionally_known self definition))
                  (record_fields definition) = false) as Hok.
  { apply not_true_iff_false. rewrite existsb_exists. intros (field_decl & Hin & Hfails).
    rewrite Forall_forall in Hfields.
    destruct (Hfields field_decl) as [[id Hname] Htype]; [by apply list_elem_of_In|].
    unfold field_fails in Hfails. rewrite Hname, orb_false_r in Hfails.
    apply negb_true_iff in Hfails.
    assert (converts (provisionally_known self definition) (field_getType field_decl)
                     ConvertType_default_lifetimes ConvertType_default_nullable = true);
      [|congruence].
    destruct Htype as [Htype|Hrefers].
    - apply converts_true in Htype as [t Ht]. unfold converts.
      rewrite (ConvertType_mono self (provisionally_known self definition) _ eq_refl
                 (union_subseteq_r _ _) _ _ _ Ht). done.
    - apply (refers_to_record_translates _ definition); [done| |simpl; set_solver].
      destruct Hreaches. by eauto. }
  destruct (VisitRecordDecl_success self _ _ _ _ Hreaches Hok)
    as (fields & Himported & ->).
  eexists _, _. split; [reflexivity|]. simpl.
  rewrite seen_lookup_push_back, N.eqb_refl.
  split_and!; [reflexivity| |reflexivity].
  simpl. symmetry. by eapply Forall2_length.
Qed.

Lemma self_referential_record_imported_witness :
  converts Examples.visitor (Examples.pointer_to MoreExamples.T_type) None false = false
  ∧ ∃ self' record,
      VisitRecordDecl Examples.visitor Examples.T_common MoreExamples.list_node
      = Some self'
      ∧ seen_lookup (seen_decls_ self') 40 = [] ++ [IR.ItemRecord record]
      ∧ length (Record_.fields record) = 2%nat
      ∧ known_type_decls_ self' = {[ 40 ]} ∪ ∅.
Proof.
  split; [reflexivity|].
  apply (self_referential_record_imported Examples.visitor Examples.T_common
           MoreExamples.list_node MoreExamples.list_node_definition (mkIdentifier "T")
           Examples_list_node_reaches_field_import).
  constructor; [split; [by eexists|left; reflexivity]|].
  constructor; [|constructor]. split; [by eexists|].
  right. apply refers_by_pointer. by apply refers_by_name.
Defined.

(** ** Typedef importer *)




(** ** Names *)

(** X10. An identifier that [GetTranslatedName] returns is never empty: it
    is the name of the declaration when that is not empty, and
    [__param_<position>] for an unnamed function parameter; any other
    unnamed declaration has no translated name. *)
Theorem translated_identifier_never_empty named_decl id :
  GetTranslatedName named_decl = Some (UI_Identifier id) →
  Ident id ≠ ""
  ∧ getNameKind named_decl = NK_Identifier
  ∧ (getName named_decl ≠ "" → Ident id = getName named_decl)
  ∧ (getName named_decl = "" →
     ∃ param_pos, getFunctionScopeIndex named_decl = Some param_pos
                  ∧ Ident id = "__param_" +:+ pretty param_pos).
Proof.
  unfold GetTranslatedName.
  destruct (getNameKind named_decl); try done.
  destruct (String.eqb_spec (getName named_decl) "") as [Hempty|Hname].
  - destruct (getFunctionScopeIndex named_decl) as [param_pos|]; [|done].
    intros [= <-]. split_and!; try done. by eauto.
  - intros [= <-]. split_and!; done.
Qed.

Lemma translated_identifier_never_empty_witness :
  GetTranslatedName (MoreExamples.unnamed_param 1)
  = Some (UI_Identifier (mkIdentifier "__param_1"))
  ∧ String.eqb (Ident (mkIdentifier "__param_1")) "" = false.
Proof.
  split; [reflexivity|].
  apply String.eqb_neq.
  exact (proj1 (translated_identifier_never_empty (MoreExamples.unnamed_param 1)
                  (mkIdentifier "__param_1") eq_refl)).
Defined.

(** X11. Every function parameter has a translated name, so the
    [CHECK(param_name.has_value())] of the function importer holds for a
    parameter whose name is an identifier; and unnamed parameters get the
    same name only when they are at the same position. *)
Theorem unnamed_parameters_named_apart param param' param_pos param_pos' :
  getNameKind param = NK_Identifier → getNameKind param' = NK_Identifier →
  getFunctionScopeIndex param = Some param_pos →
  getFunctionScopeIndex param' = Some param_pos' →
  (∃ id, GetTranslatedName param = Some (UI_Identifier id))
  ∧ (getName param = "" → getName param' = "" →
     GetTranslatedName param = GetTranslatedName param' → param_pos = param_pos').
Proof.
  intros Hkind Hkind' Hpos Hpos'. unfold GetTranslatedName.
  rewrite Hkind, Hkind', Hpos, Hpos'. split.
  - destruct (String.eqb _ _); by eauto.
  - intros -> ->. simpl. intros [= Hpretty]. exact (pretty_N_inj _ _ Hpretty).
Qed.

Lemma unnamed_parameters_named_apart_witness :
  ∃ id, GetTranslatedName (MoreExamples.unnamed_param 0) = Some (UI_Identifier id).
Proof.
  exact (proj1 (unnamed_parameters_named_apart (MoreExamples.unnamed_param 0)
                  (MoreExamples.unnamed_param 1) 0 1 eq_refl eq_refl eq_refl eq_refl)).
Defined.

(** ** Owning targets *)

Lemma GetOwningTarget_loop_textual self textual include_stack :
  Forall (is_textual_header self) textual →
  GetOwningTarget_loop (headers_to_targets_ self) (textual ++ include_stack)
  = GetOwningTarget_loop (headers_to_targets_ self) include_stack.
Proof.
  induction 1 as [|frame textual (Hsystem & filename & Hfilename & Hlookup) _ IH];
    [done|].
  simpl. by rewrite Hsystem, Hfilename, Hlookup.
Qed.

(** X12. The owning target of a declaration is a target of the header map,
    or one of the two fictional targets: [//:builtin] and
    [//:virtual_clang_resource_dir_target]. *)
Theorem owning_target_is_mapped_or_fictional self decl :
  GetOwningTarget self decl = "//:virtual_clang_resource_dir_target"
  ∨ GetOwningTarget self decl = "//:builtin"
  ∨ ∃ header, headers_to_targets_ self !! header = Some (GetOwningTarget self decl).
Proof.
  unfold GetOwningTarget.
  induction (getLocation_include_stack decl) as [|frame includers IH]; simpl; [by left|].
  destruct (isInSystemHeader frame); [by left|].
  destruct (getNonBuiltinFilenameForID frame) as [filename|]; [|by right; left].
  destruct (headers_to_targets_ self !! strip_dot_slash filename) eqn:Hlookup; [|exact IH].
  right; right. by eauto.
Qed.

(** X13. A declaration in a textual header, one that no target owns,
    belongs to the target of the nearest file up the include stack that is
    owned, where a leading [./] of a file name is not part of the header
    name; it belongs to [//:virtual_clang_resource_dir_target] when a system
    header or the end of the stack comes first, and to [//:builtin] when a
    file without name does. *)
Theorem textual_header_belongs_to_includer self decl textual include_stack :
  getLocation_include_stack decl = textual ++ include_stack →
  Forall (is_textual_header self) textual →
  GetOwningTarget self decl
  = match include_stack with
    | [] => "//:virtual_clang_resource_dir_target"
    | frame :: includers =>
        if isInSystemHeader frame then "//:virtual_clang_resource_dir_target"
        else
          match getNonBuiltinFilenameForID frame with
          | None => "//:builtin"
          | Some filename =>
              match headers_to_targets_ self !! strip_dot_slash filename with
              | Some target => target
              | None =>
                  GetOwningTarget_loop (headers_to_targets_ self) includers
              end
          end
    end
  ∧ (∀ frame includers header target,
       include_stack = frame :: includers →
       isInSystemHeader frame = false →
       getNonBuiltinFilenameForID frame = Some header
       ∨ getNonBuiltinFilenameForID frame = Some ("./" +:+ header) →
       headers_to_targets_ self !! header = Some target →
       strip_dot_slash header = header →
       GetOwningTarget self decl = target
       ∧ IsFromCurrentTarget self decl = String.eqb (current_target_ self) target).
Proof.
  intros Hstack Htextual. unfold IsFromCurrentTarget, GetOwningTarget.
  rewrite Hstack, (GetOwningTarget_loop_textual _ _ _ Htextual). split.
  - by destruct include_stack.
  - intros frame includers header target -> Hsystem Hfilename Hlookup Hstrip. simpl.
    rewrite Hsystem.
    destruct Hfilename as [-> | ->]; simpl;
      [rewrite Hstrip|change ("" +:+ header) with header]; by rewrite Hlookup.
Qed.

Lemma textual_header_belongs_to_includer_witness :
  GetOwningTarget Examples.visitor MoreExamples.textual_common = Examples.target
  ∧ IsFromCurrentTarget Examples.visitor MoreExamples.textual_common = true.
Proof.
  refine (proj2 (textual_header_belongs_to_includer Examples.visitor
                   MoreExamples.textual_common
                   [mkIncludeFrame false (Some "./test/detail.inc")] Examples.in_header
                   eq_refl _)
                _ _ "test/testing_header_0.h" Examples.target eq_refl eq_refl
                (or_intror eq_refl) eq_refl eq_refl).
  constructor; [|constructor]. split; [reflexivity|].
  eexists. split; [reflexivity|]. reflexivity.
Defined.

(** ** Comment manager *)

Lemma drop_length_take_while {A} (p : A → bool) l :
  drop (length (take_while p l)) l = drop_while p l.
Proof. induction l as [|x l IH]; simpl; [done|]. by destruct (p x). Qed.

Lemma Forall_take_while {A} (p : A → bool) l : Forall (λ x, p x = true) (take_while p l).
Proof.
  induction l as [|x l IH]; simpl; [constructor|].
  destruct (p x) eqn:Hp; by constructor.
Qed.

Lemma head_drop_while {A} (p : A → bool) l x : head (drop_while p l) = Some x → p x = false.
Proof.
  induction l as [|y l IH]; simpl; [done|].
  destruct (p y) eqn:Hp; [exact IH|]. by intros [= <-].
Qed.

Lemma take_drop_while {A} (p : A → bool) l : take_while p l ++ drop_while p l = l.
Proof. induction l as [|x l IH]; simpl; [done|]. destruct (p x); simpl; by f_equal. Qed.

Lemma sublist_filter {A} (p : A → bool) l : List.filter p l `sublist_of` l.
Proof.
  induction l as [|x l IH]; simpl; [done|].
  destruct (p x); [by apply sublist_skip|by apply sublist_cons].
Qed.

Lemma drop_while_sublist {A} (p : A → bool) l : drop_while p l `sublist_of` l.
Proof.
  induction l as [|x l IH]; simpl; [done|].
  destruct (p x); [by apply sublist_cons|done].
Qed.

Lemma drop_while_suffix {A} (p : A → bool) l : drop_while p l `suffix_of` l.
Proof.
  induction l as [|x l IH]; simpl; [done|].
  destruct (p x); [by apply suffix_cons_r|done].
Qed.

Lemma visit_comments_before_spec pending decl_comment decl_begin cm :
  visit_comments_before pending decl_comment decl_begin cm
  = mkCommentManager (current_file_ cm) (file_comments_ cm)
      (next_comment_ cm + length (take_while (begins_before decl_begin) pending))
      (comments_ cm
       ++ List.filter (λ comment, negb (same_comment comment decl_comment))
                      (take_while (begins_before decl_begin) pending)).
Proof.
  revert cm. induction pending as [|comment rest IH]; intros cm; simpl.
  { rewrite Nat.add_0_r, app_nil_r. by destruct cm. }
  unfold begins_before at 1 3.
  destruct (comment_getBeginLoc comment <? decl_begin); simpl.
  - rewrite IH. simpl.
    destruct (same_comment comment decl_comment); simpl;
      rewrite <-?app_assoc, Nat.add_succ_r; done.
  - rewrite Nat.add_0_r, app_nil_r. by destruct cm.
Qed.

Lemma skip_comments_within_spec pending decl_end cm :
  skip_comments_within pending decl_end cm
  = mkCommentManager (current_file_ cm) (file_comments_ cm)
      (next_comment_ cm + length (take_while (begins_before decl_end) pending))
      (comments_ cm).
Proof.
  revert cm. induction pending as [|comment rest IH]; intros cm; simpl.
  { rewrite Nat.add_0_r. by destruct cm. }
  unfold begins_before at 1.
  destruct (comment_getBeginLoc comment <? decl_end); simpl.
  - rewrite IH. simpl. by rewrite Nat.add_succ_r.
  - rewrite Nat.add_0_r. by destruct cm.
Qed.

(** The two loops of [CommentManager::TraverseDecl] on the comments of the
    current file. *)
Lemma comment_loops_spec cm decl kind :
  let visited :=
    visit_comments_before (pending_comments cm) (getRawCommentForDeclNoCache decl)
                          (getBeginLoc decl) cm in
  let cm' :=
    if negb (isa_NamespaceDecl kind) then
      skip_comments_within (pending_comments visited) (getEndLoc decl) visited
    else visited in
  current_file_ cm' = current_file_ cm
  ∧ file_comments_ cm' = file_comments_ cm
  ∧ comments_ cm'
    = comments_ cm
      ++ List.filter (λ comment,
                        negb (same_comment comment (getRawCommentForDeclNoCache decl)))
                     (take_while (begins_before (getBeginLoc decl)) (pending_comments cm))
  ∧ pending_comments cm'
    = (if isa_NamespaceDecl kind then id
       else drop_while (begins_before (getEndLoc decl)))
        (drop_while (begins_before (getBeginLoc decl)) (pending_comments cm)).
Proof.
  intros visited cm'.
  assert (Hvisited : pending_comments visited
                     = drop_while (begins_before (getBeginLoc decl)) (pending_comments cm)).
  { subst visited. rewrite visit_comments_before_spec. unfold pending_comments at 1. simpl.
    rewrite <-(drop_drop (file_comments_ cm)). apply drop_length_take_while. }
  subst cm'. destruct (isa_NamespaceDecl kind); simpl.
  - split_and!; [..|exact Hvisited]; subst visited; by rewrite visit_comments_before_spec.
  - assert (Hskipped :
              pending_comments
                (skip_comments_within (pending_comments visited) (getEndLoc decl) visited)
              = drop_while (begins_before (getEndLoc decl)) (pending_comments visited)).
    { rewrite skip_comments_within_spec. unfold pending_comments at 1. simpl.
      rewrite <-(drop_drop (file_comments_ visited)). apply drop_length_take_while. }
    rewrite Hskipped, Hvisited, skip_comments_within_spec. simpl.
    subst visited. by rewrite visit_comments_before_spec.
Qed.

Lemma CommentManager_TraverseDecl_same_file ctx cm decl kind :
  FileID_isInvalid (getFileID (getSourceManager ctx) (getBeginLoc decl)) = false →
  getFileID (getSourceManager ctx) (getBeginLoc decl) = current_file_ cm →
  CommentManager_TraverseDecl ctx cm decl kind
  = let visited :=
      visit_comments_before (pending_comments cm) (getRawCommentForDeclNoCache decl)
                            (getBeginLoc decl) cm in
    if negb (isa_NamespaceDecl kind) then
      skip_comments_within (pending_comments visited) (getEndLoc decl) visited
    else visited.
Proof.
  intros Hvalid Hfile. unfold CommentManager_TraverseDecl.
  by rewrite Hvalid, Hfile, N.eqb_refl.
Qed.

(** X14. For a declaration in the file the comment manager is reading, the
    comments emitted as top-level comments are, in order, the pending
    comments that begin before the declaration, without the declaration's
    own doc comment; afterwards the pending comments are those from the
    first one that does not begin before the declaration, and for a
    declaration that is no namespace those that begin before its end are
    dropped as well, unseen.  No comment is emitted twice or out of order:
    the emitted comments followed by the pending ones are taken in order
    from the comments that were pending. *)
Theorem comments_before_declaration ctx cm decl kind :
  let file := getFileID (getSourceManager ctx) (getBeginLoc decl) in
  FileID_isInvalid file = false →
  file = current_file_ cm →
  let cm' := CommentManager_TraverseDecl ctx cm decl kind in
  let emitted :=
    List.filter (λ comment,
                   negb (same_comment comment (getRawCommentForDeclNoCache decl)))
                (take_while (begins_before (getBeginLoc decl)) (pending_comments cm)) in
  comments_ cm' = comments_ cm ++ emitted
  ∧ Forall (λ comment,
              (comment_getBeginLoc comment < getBeginLoc decl)%N
              ∧ same_comment comment (getRawCommentForDeclNoCache decl) = false)
           emitted
  ∧ pending_comments cm'
    = (if isa_NamespaceDecl kind then id
       else drop_while (begins_before (getEndLoc decl)))
        (drop_while (begins_before (getBeginLoc decl)) (pending_comments cm))
  ∧ pending_comments cm' `suffix_of` pending_comments cm
  ∧ emitted ++ pending_comments cm' `sublist_of` pending_comments cm
  ∧ (∀ comment, head (pending_comments cm') = Some comment →
                if isa_NamespaceDecl kind
                then (getBeginLoc decl ≤ comment_getBeginLoc comment)%N
                else (getEndLoc decl ≤ comment_getBeginLoc comment)%N).
Proof.
  intros file Hvalid Hfile cm' emitted.
  destruct (comment_loops_spec cm decl kind) as (_ & _ & Hcomments & Hpending).
  subst cm'. rewrite (CommentManager_TraverseDecl_same_file _ _ _ _ Hvalid Hfile).
  cbv zeta. split; [exact Hcomments|]. split.
  { subst emitted. apply Forall_forall. intros comment Hin.
    apply list_elem_of_In, filter_In in Hin as [Hin Hown].
    apply negb_true_iff in Hown. split; [|done].
    pose proof (Forall_take_while (begins_before (getBeginLoc decl)) (pending_comments cm))
      as Hbefore.
    rewrite Forall_forall in Hbefore. apply N.ltb_lt.
    apply (Hbefore comment). by apply list_elem_of_In. }
  split; [exact Hpending|]. split.
  { rewrite Hpending. destruct (isa_NamespaceDecl kind); simpl.
    - apply drop_while_suffix.
    - etrans; apply drop_while_suffix. }
  split.
  { rewrite Hpending. subst emitted. generalize (pending_comments cm). intros pending.
    rewrite <-(take_drop_while (begins_before (getBeginLoc decl)) pending) at 3.
    apply sublist_app; [apply sublist_filter|].
    destruct (isa_NamespaceDecl kind); simpl; [done|].
    apply drop_while_sublist. }
  intros comment. rewrite Hpending.
  destruct (isa_NamespaceDecl kind); simpl; intros Hhead;
    apply head_drop_while in Hhead; by apply N.ltb_ge in Hhead.
Qed.

Lemma comments_before_declaration_witness :
  comments_ (CommentManager_TraverseDecl Examples.ctx MoreExamples.reading_header
               MoreExamples.documented_function Kind_Other)
  = [] ++ [mkRawComment 1 5 "File comment"]
  ∧ pending_comments (CommentManager_TraverseDecl Examples.ctx MoreExamples.reading_header
                        MoreExamples.documented_function Kind_Other)
    = [mkRawComment 4 50 "After"].
Proof.
  destruct (comments_before_declaration Examples.ctx MoreExamples.reading_header
              MoreExamples.documented_function Kind_Other eq_refl eq_refl)
    as (Hcomments & _ & Hpending & _).
  split; [exact Hcomments|exact Hpending].
Defined.

Lemma CommentManager_TraverseDecl_loops ctx cm decl kind :
  FileID_isInvalid (getFileID (getSourceManager ctx) (getBeginLoc decl)) = false →
  let file := getFileID (getSourceManager ctx) (getBeginLoc decl) in
  let entered :=
    if negb (file =? current_file_ cm) then
      mkCommentManager file (default [] (getCommentsInFile ctx file)) 0%nat
        (comments_ cm ++ pending_comments cm)
    else cm in
  let visited :=
    visit_comments_before (pending_comments entered) (getRawCommentForDeclNoCache decl)
                          (getBeginLoc decl) entered in
  CommentManager_TraverseDecl ctx cm decl kind
  = if negb (isa_NamespaceDecl kind) then
      skip_comments_within (pending_comments visited) (getEndLoc decl) visited
    else visited.
Proof.
  intros Hvalid. unfold CommentManager_TraverseDecl. rewrite Hvalid. cbv zeta.
  by destruct (negb (_ =? current_file_ cm)).
Qed.

(** X15. When a declaration lies in another file than the one the comment
    manager is reading, every comment still pending in the old file is
    emitted first, in order, and the comments of the new file are loaded in
    its place; then the comments of the new file that begin before the
    declaration follow, as within one file.  A declaration without valid
    file leaves the comment manager as it is. *)
Theorem file_switch_flushes_pending_comments ctx cm decl kind :
  let file := getFileID (getSourceManager ctx) (getBeginLoc decl) in
  let cm' := CommentManager_TraverseDecl ctx cm decl kind in
  let loaded := default [] (getCommentsInFile ctx file) in
  (FileID_isInvalid file = true → cm' = cm)
  ∧ (FileID_isInvalid file = false → file ≠ current_file_ cm →
     current_file_ cm' = file
     ∧ file_comments_ cm' = loaded
     ∧ comments_ cm'
       = comments_ cm ++ pending_comments cm
         ++ List.filter (λ comment,
                           negb (same_comment comment (getRawCommentForDeclNoCache decl)))
                        (take_while (begins_before (getBeginLoc decl)) loaded)
     ∧ pending_comments cm'
       = (if isa_NamespaceDecl kind then id
          else drop_while (begins_before (getEndLoc decl)))
           (drop_while (begins_before (getBeginLoc decl)) loaded)).
Proof.
  intros file cm' loaded. split.
  - intros Hinvalid. subst cm'. unfold CommentManager_TraverseDecl. fold file.
    by rewrite Hinvalid.
  - intros Hvalid Hfile. subst cm'.
    rewrite (CommentManager_TraverseDecl_loops _ _ _ _ Hvalid). cbv zeta. fold file.
    apply N.eqb_neq in Hfile. rewrite Hfile. simpl negb. cbv iota.
    destruct (comment_loops_spec
                (mkCommentManager file loaded 0%nat (comments_ cm ++ pending_comments cm))
                decl kind) as (Hcurrent & Hcomments_file & Hcomments & Hpending).
    fold loaded. split; [exact Hcurrent|]. split; [exact Hcomments_file|].
    split; [|exact Hpending].
    rewrite Hcomments. simpl. by rewrite <-app_assoc.
Qed.

Lemma file_switch_flushes_pending_comments_witness :
  comments_ (CommentManager_TraverseDecl
               (mkASTContext Examples.sm Examples.x86_64_getTypeSize
                  (λ _, Some [mkRawComment 7 3 "Next file"]))
               (mkCommentManager 2 MoreExamples.header_comments 3%nat [])
               MoreExamples.documented_function Kind_Other)
  = [] ++ [mkRawComment 4 50 "After"] ++ [mkRawComment 7 3 "Next file"].
Proof.
  refine (proj1 (proj2 (proj2
            (proj2 (file_switch_flushes_pending_comments
                      (mkASTContext Examples.sm Examples.x86_64_getTypeSize
                         (λ _, Some [mkRawComment 7 3 "Next file"]))
                      (mkCommentManager 2 MoreExamples.header_comments 3%nat [])
                      MoreExamples.documented_function Kind_Other) eq_refl _))));
    discriminate.
Defined.

Lemma CommentManager_TraverseDecl_comments ctx cm decl kind :
  comments_ cm `prefix_of` comments_ (CommentManager_TraverseDecl ctx cm decl kind).
Proof.
  destruct (FileID_isInvalid (getFileID (getSourceManager ctx) (getBeginLoc decl)))
    eqn:Hvalid.
  { unfold CommentManager_TraverseDecl. by rewrite Hvalid. }
  rewrite (CommentManager_TraverseDecl_loops _ _ _ _ Hvalid). cbv zeta.
  match goal with
  | |- context [visit_comments_before (pending_comments ?e) _ _ _] =>
      destruct (comment_loops_spec e decl kind) as (_ & _ & -> & _);
      assert (comments_ cm `prefix_of` comments_ e) as Hentered
  end.
  { destruct (negb _); simpl; [by apply prefix_app_r|done]. }
  by apply prefix_app_r.
Qed.

(** ** Traversal driver *)

Lemma importer_frame_refl self : importer_frame self self.
Proof. by repeat split. Qed.

Lemma importer_frame_trans self1 self2 self3 :
  importer_frame self1 self2 → importer_frame self2 self3 → importer_frame self1 self3.
Proof.
  intros ((? & ? & ?) & ? & ? & ?) ((? & ? & ?) & ? & ? & ?).
  repeat split; congruence.
Qed.

Lemma importer_frame_with_items self decl items :
  importer_frame self (with_items self decl items).
Proof. by repeat split. Qed.

Lemma importer_frame_known self known :
  importer_frame self (set_known_type_decls_ known self).
Proof. by repeat split. Qed.

Lemma PushUnsupportedItem_frame self decl message loc :
  importer_frame self (PushUnsupportedItem self decl message loc).
Proof.
  destruct (PushUnsupportedItem_effect self decl message loc) as (items & _ & _ & ->).
  apply importer_frame_with_items.
Qed.

Lemma VisitFunctionDecl_frame self decl function_decl self' :
  VisitFunctionDecl self decl function_decl = Some self' → importer_frame self self'.
Proof.
  intros (st & [(items & _ & Est) _] & _ & Hself')%VisitFunctionDecl_inv.
  simpl in Est.
  assert (importer_frame self (fi_self st)) as Hst
    by (rewrite Est; apply importer_frame_with_items).
  destruct Hself' as [->|(func & -> & _)]; [done|].
  eapply importer_frame_trans; [exact Hst|apply importer_frame_with_items].
Qed.

Lemma ImportFields_loop_frame definition record_decl default_access field_decls :
  ∀ self fields self' result,
    ImportFields_loop self definition record_decl default_access field_decls fields
    = Some (self', result) →
    importer_frame self self'.
Proof.
  induction field_decls as [|field_decl rest IH]; intros self fields self' result; simpl.
  { intros [= <- _]. apply importer_frame_refl. }
  destruct (ConvertType self _ _ _) as [[status|type]|]; simpl; [| |done].
  { intros [= <- _]. apply PushUnsupportedItem_frame. }
  destruct (GetTranslatedIdentifier _); simpl.
  2:{ intros [= <- _]. apply PushUnsupportedItem_frame. }
  destruct (TranslateAccessSpecifier _); simpl; [|done].
  apply IH.
Qed.

Lemma VisitRecordDecl_frame self decl record_decl self' :
  VisitRecordDecl self decl record_decl = Some self' → importer_frame self self'.
Proof.
  unfold VisitRecordDecl.
  destruct (from_option isFunctionOrMethod false _);
    [intros [= <-]; apply importer_frame_refl|].
  destruct (from_option isRecord false _);
    [intros [= <-]; apply PushUnsupportedItem_frame|].
  destruct (isUnion record_decl); [intros [= <-]; apply PushUnsupportedItem_frame|].
  destruct (getDefinition record_decl) as [definition|];
    [|intros [= <-]; apply importer_frame_refl].
  destruct (isInvalidDecl definition || _); [intros [= <-]; apply importer_frame_refl|].
  destruct (from_option _ false (dyn_cast_CXXRecordDecl definition));
    [intros [= <-]; apply PushUnsupportedItem_frame|].
  destruct (GetTranslatedIdentifier _); [|intros [= <-]; apply importer_frame_refl].
  unfold ImportFields.
  destruct (ImportFields_loop _ _ _ _ _ _) as [[self1 fields]|] eqn:Hfields; simpl; [|done].
  apply ImportFields_loop_frame in Hfields.
  assert (importer_frame self self1) as Hself1.
  { eapply importer_frame_trans; [apply importer_frame_known|exact Hfields]. }
  destruct fields; intros [= <-].
  - eapply importer_frame_trans; [exact Hself1|]. by repeat split.
  - eapply importer_frame_trans; [exact Hself1|apply importer_frame_known].
Qed.

Lemma VisitTypedefNameDecl_frame self decl typedef_name_decl self' :
  VisitTypedefNameDecl self decl typedef_name_decl = Some self' → importer_frame self self'.
Proof.
  unfold VisitTypedefNameDecl.
  destruct (from_option isFunctionOrMethod false _);
    [intros [= <-]; apply importer_frame_refl|].
  destruct (from_option isRecord false _);
    [intros [= <-]; apply PushUnsupportedItem_frame|].
  destruct (fixed_flat_map_contains _ _); [intros [= <-]; apply importer_frame_refl|].
  destruct (GetTranslatedIdentifier _); simpl; [|done].
  destruct (ConvertType _ _ _ _) as [[status|underlying_type]|]; simpl; [| |done].
  - intros [= <-]. apply PushUnsupportedItem_frame.
  - intros [= <-]. by repeat split.
Qed.

Lemma has_translation_unit_inv common kind children :
  has_translation_unit (mkDecl common kind children) = false →
  (∀ ast_context, kind ≠ Kind_TranslationUnit ast_context)
  ∧ Forall (λ child, from_option (λ decl, has_translation_unit decl = false) True child)
           children.
Proof.
  simpl. intros [Hkind Hchildren]%orb_false_iff. split.
  - intros ast_context ->. done.
  - apply Forall_forall. intros [child|] Hin; simpl; [|done].
    apply not_true_iff_false. intros Hchild.
    apply not_true_iff_false in Hchildren. apply Hchildren.
    apply existsb_exists. exists (Some child). split; [by apply list_elem_of_In|done].
Qed.

(** A relation between the visitor before and after a step that every step
    of the traversal establishes holds across a traversal; the steps of a
    translation unit need not establish it when the tree has none. *)
Section TraversalInvariant.
Context (R : AstVisitor → AstVisitor → Prop) (with_translation_units : bool).
Hypothesis R_refl : ∀ self, R self self.
Hypothesis R_trans : ∀ self1 self2 self3, R self1 self2 → R self2 self3 → R self1 self3.
Hypothesis R_unsupported :
  ∀ self decl message loc, R self (PushUnsupportedItem self decl message loc).
Hypothesis R_function :
  ∀ self decl function_decl self',
    VisitFunctionDecl self decl function_decl = Some self' → R self self'.
Hypothesis R_record :
  ∀ self decl record_decl self',
    VisitRecordDecl self decl record_decl = Some self' → R self self'.
Hypothesis R_typedef :
  ∀ self decl typedef_name_decl self',
    VisitTypedefNameDecl self decl typedef_name_decl = Some self' → R self self'.
Hypothesis R_comments :
  ∀ self ast_context decl kind,
    R self (set_comment_manager_
              (CommentManager_TraverseDecl ast_context (comment_manager_ self) decl kind)
              self).
Hypothesis R_enter :
  with_translation_units = true →
  ∀ self ast_context,
    R self (set_ir_ (IR.mk (IR.used_headers (ir_ self) ++ public_header_names_ self)
                           (current_target_ self) (IR.items (ir_ self)))
                    (set_ctx_ ast_context self)).
Hypothesis R_leave :
  with_translation_units = true →
  ∀ self, R self (EmitIRItems
                    (set_comment_manager_ (FlushComments (comment_manager_ self)) self)).

Lemma TraverseDecls_preserves children :
  Forall (λ child,
            from_option
              (λ decl, with_translation_units = true ∨ has_translation_unit decl = false →
                       ∀ self self', TraverseDecl decl self = Some self' → R self self')
              True child) children →
  with_translation_units = true
  ∨ Forall (λ child, from_option (λ decl, has_translation_unit decl = false) True child)
           children →
  ∀ self self', TraverseDecls children self = Some self' → R self self'.
Proof.
  induction 1 as [|[child|] children Hchild _ IH]; intros Htree self self'; simpl.
  - intros [= <-]. apply R_refl.
  - destruct (TraverseDecl child self) as [self1|] eqn:H1; simpl; [|done].
    intros Hrest. eapply R_trans.
    + eapply Hchild; [|exact H1].
      destruct Htree as [?|Htree]; [by left|]. right. by inversion Htree.
    + eapply IH; [|exact Hrest].
      destruct Htree as [?|Htree]; [by left|]. right. by inversion Htree.
  - apply IH. destruct Htree as [?|Htree]; [by left|]. right. by inversion Htree.
Qed.

Lemma TraverseDecl_preserves decl :
  with_translation_units = true ∨ has_translation_unit decl = false →
  ∀ self self', TraverseDecl decl self = Some self' → R self self'.
Proof.
  induction decl as [common kind children IH] using Decl_children_ind.
  intros Htree self self'.
  assert (Hchildren : ∀ self self', TraverseDecls children self = Some self' → R self self').
  { apply (TraverseDecls_preserves children IH).
    destruct Htree as [?|Htree]; [by left|].
    right. by apply has_translation_unit_inv in Htree as [_ ?]. }
  rewrite TraverseDecl_unfold.
  destruct (seen_contains _ _ && negb _); [intros [= <-]; apply R_refl|].
  destruct (from_option isNamespace false (getDeclContext common));
    [intros [= <-]; apply R_unsupported|].
  cbv zeta.
  destruct kind as [ast_context| |function_decl|record_decl|typedef_name_decl|].
  - destruct Htree as [Hunits|Htree];
      [|by apply has_translation_unit_inv in Htree as [Hkind _];
           destruct (Hkind ast_context)].
    destruct (TraverseDecls children _) as [self1|] eqn:H1; simpl; [|done].
    intros [= <-].
    eapply R_trans; [apply R_comments|].
    eapply R_trans; [apply (R_enter Hunits)|].
    eapply R_trans; [apply Hchildren; exact H1|apply (R_leave Hunits)].
  - intros Hrest. eapply R_trans; [apply R_comments|by apply Hchildren].
  - destruct (VisitFunctionDecl _ _ _) as [self1|] eqn:H1; simpl; [|done].
    intros Hrest. eapply R_trans; [apply R_comments|].
    eapply R_trans; [eapply R_function; exact H1|by apply Hchildren].
  - destruct (VisitRecordDecl _ _ _) as [self1|] eqn:H1; simpl; [|done].
    intros Hrest. eapply R_trans; [apply R_comments|].
    eapply R_trans; [eapply R_record; exact H1|by apply Hchildren].
  - destruct (VisitTypedefNameDecl _ _ _) as [self1|] eqn:H1; simpl; [|done].
    intros Hrest. eapply R_trans; [apply R_comments|].
    eapply R_trans; [eapply R_typedef; exact H1|by apply Hchildren].
  - intros Hrest. eapply R_trans; [apply R_comments|by apply Hchildren].
Qed.
End TraversalInvariant.

Lemma importer_frame_output self self' :
  importer_frame self self' → same_configuration self self' ∧ output_grows self self'.
Proof.
  intros (Hconfiguration & _ & Hir & Hcomments). unfold output_grows.
  by rewrite Hir, Hcomments.
Qed.

(** X16. A traversal never changes the configuration of the visitor (the
    public headers, the current target, the map from headers to targets),
    and what it has put out already stays: the comments collected, the items
    and the used headers of the IR are only ever extended at their end. *)
Theorem traversal_keeps_configuration_and_output decl self self' :
  TraverseDecl decl self = Some self' →
  same_configuration self self' ∧ output_grows self self'.
Proof.
  apply (TraverseDecl_preserves
           (λ self self', same_configuration self self' ∧ output_grows self self') true);
    try (by left); clear.
  - intros self. by repeat split.
  - intros self1 self2 self3 [(? & ? & ?) (? & ? & ?)] [(? & ? & ?) (? & ? & ?)].
    repeat split; try congruence; by etrans.
  - intros. apply importer_frame_output, PushUnsupportedItem_frame.
  - intros ???? Hvisit. by apply VisitFunctionDecl_frame, importer_frame_output in Hvisit.
  - intros ???? Hvisit. by apply VisitRecordDecl_frame, importer_frame_output in Hvisit.
  - intros ???? Hvisit. by apply VisitTypedefNameDecl_frame, importer_frame_output in Hvisit.
  - intros self ast_context decl kind. repeat split; try done.
    apply CommentManager_TraverseDecl_comments.
  - intros _ self ast_context. repeat split; try done. simpl. by apply prefix_app_r.
  - intros _ self. repeat split; try done; simpl; by apply prefix_app_r.
Qed.

Lemma traversal_keeps_configuration_and_output_witness :
  ∃ self',
    TraverseDecl MoreExamples.commented_unit Examples.visitor = Some self'
    ∧ current_target_ self' = Examples.target
    ∧ [] `prefix_of` IR.items (ir_ self').
Proof.
  destruct (TraverseDecl MoreExamples.commented_unit Examples.visitor) as [self'|] eqn:Hrun;
    [|vm_compute in Hrun; discriminate].
  destruct (traversal_keeps_configuration_and_output _ _ _ Hrun)
    as [(_ & Htarget & _) (_ & Hitems & _)].
  exists self'. split; [reflexivity|]. split; [exact Htarget|exact Hitems].
Defined.

Lemma seen_contains_push_all seen decl items ptr :
  seen_contains seen ptr = true → seen_contains (push_all seen decl items) ptr = true.
Proof.
  revert seen. induction items as [|item items IH]; intros seen Hseen; simpl; [done|].
  apply IH. by rewrite seen_push_back_contains, Hseen.
Qed.

Lemma push_all_grows self self' decl items :
  seen_decls_ self' = push_all (seen_decls_ self) decl items →
  records_grow self self'
  ∧ ∀ ptr, seen_contains (seen_decls_ self) ptr = true →
           seen_contains (seen_decls_ self') ptr = true.
Proof.
  intros Hseen. split.
  - intros ptr. rewrite Hseen, seen_lookup_push_all.
    destruct (canon_ptr decl =? ptr); [by apply prefix_app_r|done].
  - intros ptr. rewrite Hseen. apply seen_contains_push_all.
Qed.

(** X17. What a traversal has recorded for a declaration stays: the items
    under every canonical declaration are only ever extended at their end,
    and a declaration that was seen remains seen. *)
Theorem traversal_keeps_recorded_items decl self self' :
  TraverseDecl decl self = Some self' →
  records_grow self self'
  ∧ ∀ ptr, seen_contains (seen_decls_ self) ptr = true →
           seen_contains (seen_decls_ self') ptr = true.
Proof.
  apply (TraverseDecl_preserves
           (λ self self',
              records_grow self self'
              ∧ ∀ ptr, seen_contains (seen_decls_ self) ptr = true →
                       seen_contains (seen_decls_ self') ptr = true) true);
    try (by left); clear.
  - intros self. by apply (push_all_grows self self (mkCanonicalDecl 0 Class_Other None 0) []).
  - intros self1 self2 self3 [Hgrow12 Hseen12] [Hgrow23 Hseen23]. split.
    + intros ptr. etrans; [apply Hgrow12|apply Hgrow23].
    + intros ptr Hseen. by apply Hseen23, Hseen12.
  - intros self decl message loc.
    destruct (PushUnsupportedItem_seen self decl message loc) as (items & _ & _ & Hseen).
    by eapply push_all_grows.
  - intros ???? (items & _ & Hseen)%VisitFunctionDecl_seen. by eapply push_all_grows.
  - intros ???? (items & _ & Hseen)%VisitRecordDecl_seen. by eapply push_all_grows.
  - intros ???? (items & _ & Hseen)%VisitTypedefNameDecl_seen. by eapply push_all_grows.
  - intros self ???.
    by apply (push_all_grows self _ (mkCanonicalDecl 0 Class_Other None 0) []).
  - intros _ self ?.
    by apply (push_all_grows self _ (mkCanonicalDecl 0 Class_Other None 0) []).
  - intros _ self.
    by apply (push_all_grows self _ (mkCanonicalDecl 0 Class_Other None 0) []).
Qed.

Lemma traversal_keeps_recorded_items_witness :
  ∃ self',
    TraverseDecl (Examples.Foo_decl 51 20) (with_items Examples.visitor
                                              Examples.Foo_canonical [Examples.note "Foo"])
    = Some self'
    ∧ [Examples.note "Foo"] `prefix_of` seen_lookup (seen_decls_ self') 50.
Proof.
  destruct (TraverseDecl (Examples.Foo_decl 51 20)
              (with_items Examples.visitor Examples.Foo_canonical [Examples.note "Foo"]))
    as [self'|] eqn:Hrun; [|vm_compute in Hrun; discriminate].
  exists self'. split; [reflexivity|].
  exact (proj1 (traversal_keeps_recorded_items _ _ _ Hrun) 50).
Defined.

Lemma TraverseDecl_without_translation_unit decl self self' :
  has_translation_unit decl = false →
  TraverseDecl decl self = Some self' →
  same_configuration self self' ∧ ctx_ self' = ctx_ self ∧ ir_ self' = ir_ self.
Proof.
  intros Htree.
  assert (∀ self self', importer_frame self self' →
                        same_configuration self self' ∧ ctx_ self' = ctx_ self
                        ∧ ir_ self' = ir_ self) as Hframe
    by (by intros ?? (? & ? & ? & ?)).
  apply (TraverseDecl_preserves
           (λ self self', same_configuration self self' ∧ ctx_ self' = ctx_ self
                          ∧ ir_ self' = ir_ self) false).
  - intros s. by repeat split.
  - intros s1 s2 s3 [(? & ? & ?) (? & ?)] [(? & ? & ?) (? & ?)].
    repeat split; congruence.
  - intros. apply Hframe, PushUnsupportedItem_frame.
  - intros ???? Hvisit. by apply VisitFunctionDecl_frame, Hframe in Hvisit.
  - intros ???? Hvisit. by apply VisitRecordDecl_frame, Hframe in Hvisit.
  - intros ???? Hvisit. by apply VisitTypedefNameDecl_frame, Hframe in Hvisit.
  - intros. by repeat split.
  - done.
  - done.
  - by right.
Qed.

Lemma TraverseDecls_without_translation_unit children self self' :
  Forall (λ child, from_option (λ decl, has_translation_unit decl = false) True child)
         children →
  TraverseDecls children self = Some self' →
  same_configuration self self' ∧ ctx_ self' = ctx_ self ∧ ir_ self' = ir_ self.
Proof.
  intros Hchildren.
  apply (TraverseDecls_preserves
           (λ self self', same_configuration self self' ∧ ctx_ self' = ctx_ self
                          ∧ ir_ self' = ir_ self) false); [| | |by right].
  - intros s. by repeat split.
  - intros s1 s2 s3 [(? & ? & ?) (? & ?)] [(? & ? & ?) (? & ?)].
    repeat split; congruence.
  - apply Forall_forall. intros [child|] _; simpl; [|done].
    intros [?|Htree] s s'; [done|]. by apply TraverseDecl_without_translation_unit.
Qed.

(** The traversal of a translation unit without another one under it: the
    headers and the target go into the IR at its start, the sorted items at
    its end. *)
Lemma translation_unit_emission common ast_context children self self' :
  TraverseDecl (mkDecl common (Kind_TranslationUnit ast_context) children) self
  = Some self' →
  seen_contains (seen_decls_ self) (canon_ptr (getCanonicalDecl common)) = false →
  from_option isNamespace false (getDeclContext common) = false →
  Forall (λ child, from_option (λ decl, has_translation_unit decl = false) True child)
         children →
  IR.used_headers (ir_ self') = IR.used_headers (ir_ self) ++ public_header_names_ self
  ∧ IR.current_target (ir_ self') = current_target_ self
  ∧ ctx_ self' = ast_context
  ∧ IR.items (ir_ self') = IR.items (ir_ self) ++ map snd (sorted_items self')
  ∧ pending_comments (comment_manager_ self') = [].
Proof.
  rewrite TraverseDecl_unfold. intros Hrun Hseen Hnamespace Hchildren.
  rewrite Hseen, Hnamespace in Hrun. simpl in Hrun.
  apply bind_Some in Hrun as (self1 & Htraverse & [= <-]).
  apply (TraverseDecls_without_translation_unit _ _ _ Hchildren) in Htraverse
    as ((Hheaders & Htarget & _) & Hctx & Hir).
  simpl in Hheaders, Htarget, Hctx, Hir. unfold EmitIRItems. simpl.
  rewrite Hir, Hctx. simpl. split_and!; done.
Qed.

(** X18. The traversal of the translation unit, with no other translation
    unit under it: the public headers are appended to the used headers of
    the IR and its current target is set; nothing is put into the items of
    the IR before the end of the unit, and then every item that is recorded
    under a declaration and the item of every collected comment is, once
    each: what is appended is a permutation of these items, and it is the
    projection of the list that holds each of them under the begin location
    and the tiebreak of its declaration, or of the comment, which is in
    source order when the source manager orders the locations; no comment of
    the last file is left pending. *)
Theorem translation_unit_emits_everything common ast_context children self self' :
  TraverseDecl (mkDecl common (Kind_TranslationUnit ast_context) children) self
  = Some self' →
  seen_contains (seen_decls_ self) (canon_ptr (getCanonicalDecl common)) = false →
  from_option isNamespace false (getDeclContext common) = false →
  Forall (λ child, from_option (λ decl, has_translation_unit decl = false) True child)
         children →
  IR.used_headers (ir_ self') = IR.used_headers (ir_ self) ++ public_header_names_ self
  ∧ IR.current_target (ir_ self') = current_target_ self
  ∧ ctx_ self' = ast_context
  ∧ (∃ sorted : list KeyedItem,
       IR.items (ir_ self') = IR.items (ir_ self) ++ map snd sorted
       ∧ map snd sorted
         ≡ₚ flat_map snd (seen_decls_ self')
            ++ map (λ comment, IR.ItemComment (mkComment (getFormattedText comment)))
                   (comments_ (comment_manager_ self'))
       ∧ sorted ≡ₚ keyed_by_position self'
       ∧ (orders_translation_unit (getSourceManager ast_context) →
          in_source_order (getSourceManager ast_context) sorted))
  ∧ pending_comments (comment_manager_ self') = [].
Proof.
  intros Hrun Hseen Hnamespace Hchildren.
  destruct (translation_unit_emission _ _ _ _ _ Hrun Hseen Hnamespace Hchildren)
    as (Hheaders & Htarget & Hctx & Hitems & Hpending).
  split_and!; try done.
  exists (sorted_items self'). split_and!.
  - exact Hitems.
  - rewrite (Permutation_map snd (sorted_items_keyed self')).
    by rewrite keyed_by_position_items.
  - apply sorted_items_keyed.
  - rewrite <-Hctx. apply sorted_items_in_source_order.
Qed.

Lemma translation_unit_emits_everything_witness :
  ∃ self' func,
    TraverseDecl MoreExamples.commented_unit Examples.visitor = Some self'
    ∧ IR.used_headers (ir_ self') = [] ++ ["test/testing_header_0.h"]
    ∧ IR.current_target (ir_ self') = Examples.target
    ∧ IR.items (ir_ self')
      = [IR.ItemComment (mkComment "File comment"); IR.ItemFunc func;
         IR.ItemComment (mkComment "After")]
    ∧ seen_decls_ self'
      = [(getCanonicalDecl MoreExamples.documented_function, [IR.ItemFunc func])]
    ∧ map getFormattedText (comments_ (comment_manager_ self'))
      = ["File comment"; "After"]
    ∧ Func.doc_comment func = Some "Doc comment".
Proof.
  destruct (TraverseDecl MoreExamples.commented_unit Examples.visitor) as [self'|] eqn:Hrun;
    [|vm_compute in Hrun; discriminate].
  destruct (translation_unit_emits_everything _ _ _ _ _ Hrun eq_refl eq_refl)
    as (Hheaders & Htarget & _).
  { repeat constructor. }
  vm_compute in Hrun. injection Hrun as <-.
  eexists _, _. split; [reflexivity|]. split; [exact Hheaders|]. split; [exact Htarget|].
  split_and!; reflexivity.
Defined.

(** ** Canonical declarations in the IR *)

Lemma filter_Permutation {A} (p : A → bool) l1 l2 :
  l1 ≡ₚ l2 → List.filter p l1 ≡ₚ List.filter p l2.
Proof.
  induction 1 as [|x l1 l2 _ IH|x y l|l1 l2 l3 _ IH12 _ IH23]; simpl.
  - done.
  - destruct (p x); [by constructor|done].
  - destruct (p x), (p y); try done. apply Permutation_swap.
  - by etrans.
Qed.

Lemma item_owned_by_non_primary decl item : is_primary item = false → item_owned_by decl item.
Proof. by destruct item. Qed.

Lemma ids_match_push_back seen decl item :
  ids_match seen → item_owned_by decl item → ids_match (seen_push_back seen decl item).
Proof.
  intros Hall Hitem. induction Hall as [|e seen He Hall IH]; simpl.
  - by repeat constructor.
  - destruct (canon_ptr e.1 =? canon_ptr decl) eqn:Hkey; constructor; simpl; auto.
    apply N.eqb_eq in Hkey. apply Forall_app. split; [done|].
    constructor; [|done]. unfold item_owned_by in *. by rewrite Hkey.
Qed.

Lemma ids_match_push_all seen decl items :
  ids_match seen → Forall (item_owned_by decl) items → ids_match (push_all seen decl items).
Proof.
  intros Hseen Hitems. revert seen Hseen.
  induction Hitems as [|item items Hitem _ IH]; intros seen Hseen; simpl; [done|].
  apply IH. by apply ids_match_push_back.
Qed.

(** What the record importer records: unsupported items, or the one
    [Record], under the id of the canonical declaration. *)
Lemma VisitRecordDecl_owned self decl record_decl self' :
  VisitRecordDecl self decl record_decl = Some self' →
  ∃ items, Forall (item_owned_by (getCanonicalDecl decl)) items
           ∧ seen_decls_ self'
             = push_all (seen_decls_ self) (getCanonicalDecl decl) items.
Proof.
  assert (∃ items, Forall (item_owned_by (getCanonicalDecl decl)) items
                   ∧ seen_decls_ self
                     = push_all (seen_decls_ self) (getCanonicalDecl decl) items)
    as Hnothing by (by exists []).
  assert (∀ items, Forall (λ i, is_UnsupportedItem i = true) items →
                   Forall (item_owned_by (getCanonicalDecl decl)) items) as Hunsupported.
  { intros items Hitems. eapply Forall_impl; [exact Hitems|]. by intros []. }
  assert (∀ common message loc,
            getCanonicalDecl common = getCanonicalDecl decl →
            ∃ items, Forall (item_owned_by (getCanonicalDecl decl)) items
                     ∧ seen_decls_ (PushUnsupportedItem self common message loc)
                       = push_all (seen_decls_ self) (getCanonicalDecl decl) items)
    as Hpush.
  { intros common message loc <-.
    destruct (PushUnsupportedItem_effect self common message loc)
      as (items & ? & _ & ->). exists items. split; [|done].
    eapply Forall_impl; [done|]. by intros []. }
  intros Hvisit.
  destruct (from_option isFunctionOrMethod false (getDeclContext decl)) eqn:Hlocal.
  { unfold VisitRecordDecl in Hvisit. rewrite Hlocal in Hvisit. by injection Hvisit as <-. }
  destruct (from_option isRecord false (getDeclContext decl)) eqn:Hnested.
  { unfold VisitRecordDecl in Hvisit. rewrite Hlocal, Hnested in Hvisit.
    injection Hvisit as <-. by apply Hpush. }
  destruct (isUnion record_decl) eqn:Hunion.
  { unfold VisitRecordDecl in Hvisit. rewrite Hlocal, Hnested, Hunion in Hvisit.
    injection Hvisit as <-. by apply Hpush. }
  destruct (getDefinition record_decl) as [definition|] eqn:Hdef.
  2:{ unfold VisitRecordDecl in Hvisit. rewrite Hlocal, Hnested, Hunion, Hdef in Hvisit.
      by injection Hvisit as <-. }
  destruct (isInvalidDecl definition || negb (isCompleteDefinition definition))
    eqn:Hcomplete.
  { unfold VisitRecordDecl in Hvisit.
    rewrite Hlocal, Hnested, Hunion, Hdef, Hcomplete in Hvisit.
    by injection Hvisit as <-. }
  destruct (from_option (λ cxx, getDescribedClassTemplate cxx
                                || isa_ClassTemplateSpecializationDecl cxx)
                        false (dyn_cast_CXXRecordDecl definition)) eqn:Htemplate.
  { unfold VisitRecordDecl in Hvisit.
    rewrite Hlocal, Hnested, Hunion, Hdef, Hcomplete, Htemplate in Hvisit.
    injection Hvisit as <-. by apply Hpush. }
  destruct (GetTranslatedIdentifier (def_named definition)) as [record_name|] eqn:Hname.
  2:{ unfold VisitRecordDecl in Hvisit.
      rewrite Hlocal, Hnested, Hunion, Hdef, Hcomplete, Htemplate in Hvisit.
      change (named (def_common decl definition)) with (def_named definition) in Hvisit.
      rewrite Hname in Hvisit. by injection Hvisit as <-. }
  assert (reaches_field_import decl record_decl definition record_name) as Hreaches
    by (by constructor).
  destruct (existsb (field_fails (provisionally_known self definition))
                    (record_fields definition)) eqn:Hfails.
  - destruct (VisitRecordDecl_fields self decl record_decl definition record_name Hreaches)
      as (items & Hvisit' & Hitems).
    rewrite Hvisit in Hvisit'. injection Hvisit' as ->. simpl.
    rewrite Hfails in Hitems. exists items. split; [|done].
    apply Hunsupported, Hitems.
  - destruct (VisitRecordDecl_success self decl record_decl definition record_name
                Hreaches Hfails) as (fields & _ & Hvisit').
    rewrite Hvisit in Hvisit'. injection Hvisit' as ->. simpl.
    eexists [IR.ItemRecord _]. split; [|reflexivity].
    constructor; [|done]. by intros id [= <-].
Qed.

Lemma VisitTypedefNameDecl_owned self decl typedef_name_decl self' :
  VisitTypedefNameDecl self decl typedef_name_decl = Some self' →
  ∃ items, Forall (item_owned_by (getCanonicalDecl decl)) items
           ∧ seen_decls_ self'
             = push_all (seen_decls_ self) (getCanonicalDecl decl) items.
Proof.
  assert (∃ items, Forall (item_owned_by (getCanonicalDecl decl)) items
                   ∧ seen_decls_ self
                     = push_all (seen_decls_ self) (getCanonicalDecl decl) items)
    as Hnothing by (by exists []).
  assert (∀ message loc,
            ∃ items, Forall (item_owned_by (getCanonicalDecl decl)) items
                     ∧ seen_decls_ (PushUnsupportedItem self decl message loc)
                       = push_all (seen_decls_ self) (getCanonicalDecl decl) items)
    as Hpush.
  { intros message loc.
    destruct (PushUnsupportedItem_effect self decl message loc) as (items & ? & _ & ->).
    exists items. split; [|done]. eapply Forall_impl; [done|]. by intros []. }
  unfold VisitTypedefNameDecl.
  destruct (from_option isFunctionOrMethod false (getDeclContext decl));
    [by intros [= <-]|].
  destruct (from_option isRecord false (getDeclContext decl));
    [intros [= <-]; apply Hpush|].
  destruct (fixed_flat_map_contains _ _); [by intros [= <-]|].
  destruct (GetTranslatedIdentifier (named decl)) as [identifier|]; simpl; [|done].
  destruct (ConvertType _ _ _ _) as [[status|underlying_type]|]; simpl; [| |done].
  - intros [= <-]. apply Hpush.
  - intros [= <-]. simpl. eexists [IR.ItemTypeAlias _]. split; [|reflexivity].
    constructor; [|done]. by intros id [= <-].
Qed.

Lemma VisitFunctionDecl_owned self decl function_decl self' :
  VisitFunctionDecl self decl function_decl = Some self' →
  ∃ items, Forall (item_owned_by (getCanonicalDecl decl)) items
           ∧ seen_decls_ self'
             = push_all (seen_decls_ self) (getCanonicalDecl decl) items.
Proof.
  intros (st & [(items & Hitems & Est) Hflag] & _ & Hself')%VisitFunctionDecl_inv.
  simpl in Est, Hflag. destruct Hself' as [->|(func & -> & Hsuccess & _)].
  - exists items. rewrite Est. split; [|done].
    eapply Forall_impl; [exact Hitems|]. by intros [].
  - destruct (Hflag Hsuccess) as [-> _]. exists [IR.ItemFunc func].
    split; [by constructor|reflexivity].
Qed.

(** Through a traversal the items that carry an id stay under the
    declaration of that id. *)
Lemma TraverseDecl_ids_match decl self self' :
  TraverseDecl decl self = Some self' →
  ids_match (seen_decls_ self) → ids_match (seen_decls_ self').
Proof.
  apply (TraverseDecl_preserves
           (λ self self', ids_match (seen_decls_ self) → ids_match (seen_decls_ self'))
           true);
    try (by left); clear.
  - done.
  - intros self1 self2 self3 H12 H23 H1. by apply H23, H12.
  - intros self decl message loc Hseen.
    destruct (PushUnsupportedItem_effect self decl message loc) as (items & Hitems & _ & ->).
    apply ids_match_push_all; [done|]. eapply Forall_impl; [done|]. by intros [].
  - intros ???? (items & Hitems & ->)%VisitFunctionDecl_owned Hseen.
    by apply ids_match_push_all.
  - intros ???? (items & Hitems & ->)%VisitRecordDecl_owned Hseen.
    by apply ids_match_push_all.
  - intros ???? (items & Hitems & ->)%VisitTypedefNameDecl_owned Hseen.
    by apply ids_match_push_all.
  - done.
  - done.
  - done.
Qed.

Lemma length_ids_primary items :
  (length (omap item_decl_id items) ≤ count_primary items)%nat.
Proof.
  unfold count_primary, is_primary.
  induction items as [|[] items IH]; simpl; unfold omap in *; lia.
Qed.

(** No two items recorded carry the same id. *)
Lemma dedup_ids_NoDup seen :
  dedup_ok seen → ids_match seen → NoDup (omap item_decl_id (flat_map snd seen)).
Proof.
  intros [Hkeys Hcounts] Hids. unfold ids_match in Hids.
  induction seen as [|e seen IH]; simpl; [apply NoDup_nil_2|].
  apply NoDup_cons in Hkeys as [Hfresh Hkeys].
  apply Forall_cons in Hcounts as [Hcount Hcounts].
  apply Forall_cons in Hids as [Hid Hids].
  rewrite omap_app. apply NoDup_app. split_and!; [| |by apply IH].
  - pose proof (length_ids_primary e.2) as Hlen.
    destruct (omap item_decl_id e.2) as [|id [|id' ids]]; simpl in *;
      [apply NoDup_nil_2|apply NoDup_singleton|lia].
  - intros id (item & Hitem & Hsome)%list_elem_of_omap
               (item' & Hitem' & Hsome')%list_elem_of_omap.
    apply list_elem_of_In, in_flat_map in Hitem' as (e' & He' & Hitem').
    apply list_elem_of_In in He', Hitem'.
    rewrite Forall_forall in Hid. rewrite Forall_forall in Hids.
    pose proof (Hid item Hitem id Hsome) as H1.
    pose proof (Hids e' He') as Hall. rewrite Forall_forall in Hall.
    pose proof (Hall item' Hitem' id Hsome') as H2.
    rewrite H1 in H2. injection H2 as Hptr.
    apply Hfresh. rewrite Hptr.
    apply list_elem_of_In, (in_map (λ e, canon_ptr e.1)). by apply list_elem_of_In.
Qed.

(** The [Func], [Record] and [TypeAlias] items recorded belong to pairwise
    different canonical declarations. *)
Lemma primary_owners_spec seen :
  dedup_ok seen →
  map snd (primary_owners seen) = List.filter is_primary (flat_map snd seen)
  ∧ NoDup (map (λ o, canon_ptr o.1) (primary_owners seen))
  ∧ ∀ decl item, (decl, item) ∈ primary_owners seen →
                 is_primary item = true
                 ∧ ∃ recorded, (decl, recorded) ∈ seen ∧ item ∈ recorded.
Proof.
  intros [Hkeys Hcounts]. unfold primary_owners. split_and!.
  - clear. induction seen as [|e seen IH]; simpl; [done|].
    rewrite map_app, IH, List.filter_app, map_map. simpl. by rewrite map_id.
  - induction seen as [|e seen IH]; simpl; [apply NoDup_nil_2|].
    apply NoDup_cons in Hkeys as [Hfresh Hkeys].
    apply Forall_cons in Hcounts as [Hcount Hcounts].
    rewrite map_app, map_map. simpl. apply NoDup_app. split_and!; [| |by apply IH].
    + unfold count_primary in Hcount.
      destruct (List.filter is_primary e.2) as [|item [|item' items]]; simpl in *;
        [apply NoDup_nil_2|apply NoDup_singleton|lia].
    + intros ptr (item & -> & _)%list_elem_of_fmap Hin. apply Hfresh.
      apply list_elem_of_fmap in Hin as ([decl item'] & -> & Hin). simpl.
      apply list_elem_of_In, in_flat_map in Hin as (e' & He' & Hin).
      apply in_map_iff in Hin as (? & [= <- <-] & _).
      unfold seen_keys. by apply list_elem_of_In, (in_map (λ e, canon_ptr e.1)).
  - intros decl item Hin.
    apply list_elem_of_In, in_flat_map in Hin as ([decl' recorded] & He & Hin).
    apply in_map_iff in Hin as (? & [= <- <-] & [Hitem Hprimary]%filter_In).
    split; [done|]. exists recorded. split; by apply list_elem_of_In.
Qed.

(** C2. A declaration whose canonical declaration already has items, and
    which is not a namespace, is skipped: [TraverseDecl] returns the visitor
    as it is, no importer and no comment-manager step has run.  A namespace
    is exempt: whether seen or not, one inside a namespace gets another
    unsupported item, and of any other one the comment manager is stepped
    and the declarations in it are traversed.  Through any traversal every
    canonical declaration stays a key of [seen_decls_] at most once and has
    at most one [Func], [Record] or [TypeAlias] item among the items
    recorded for it, however often the entity is declared.  Hence in the IR
    of a translation unit: what is appended to its items is a permutation of
    the items recorded and the comments collected; the [Func], [Record] and
    [TypeAlias] items among them belong to pairwise different canonical
    declarations, each being recorded for its declaration; and no two
    [Record] or [TypeAlias] items carry the same declaration id. *)
Theorem canonical_dedup decl self :
  (seen_contains (seen_decls_ self) (canon_ptr (getCanonicalDecl (decl_common decl)))
   = true →
   isa_NamespaceDecl (decl_kind decl) = false →
   TraverseDecl decl self = Some self)
  ∧ (isa_NamespaceDecl (decl_kind decl) = true →
     TraverseDecl decl self
     = if from_option isNamespace false (getDeclContext (decl_common decl))
       then Some (PushUnsupportedItem self (decl_common decl)
                    "Items contained in namespaces are not supported yet"
                    (getBeginLoc (decl_common decl)))
       else TraverseDecls (decl_children decl)
              (set_comment_manager_
                 (CommentManager_TraverseDecl (ctx_ self) (comment_manager_ self)
                    (decl_common decl) (decl_kind decl))
                 self))
  ∧ (∀ self',
       TraverseDecl decl self = Some self' →
       dedup_ok (seen_decls_ self) →
       dedup_ok (seen_decls_ self')
       ∧ ∀ canonical items,
           (canonical, items) ∈ seen_decls_ self' →
           (length (List.filter is_Func items)
            + length (List.filter is_Record items)
            + length (List.filter is_TypeAlias items) ≤ 1)%nat)
  ∧ (∀ ast_context self',
       decl_kind decl = Kind_TranslationUnit ast_context →
       TraverseDecl decl self = Some self' →
       seen_contains (seen_decls_ self) (canon_ptr (getCanonicalDecl (decl_common decl)))
       = false →
       from_option isNamespace false (getDeclContext (decl_common decl)) = false →
       Forall (λ child, from_option (λ decl, has_translation_unit decl = false) True child)
              (decl_children decl) →
       dedup_ok (seen_decls_ self) →
       ids_match (seen_decls_ self) →
       ∃ emitted owners,
         IR.items (ir_ self') = IR.items (ir_ self) ++ emitted
         ∧ emitted
           ≡ₚ flat_map snd (seen_decls_ self')
              ++ map (λ comment, IR.ItemComment (mkComment (getFormattedText comment)))
                     (comments_ (comment_manager_ self'))
         ∧ map snd owners ≡ₚ List.filter is_primary emitted
         ∧ NoDup (map (λ o, canon_ptr o.1) owners)
         ∧ (∀ canonical item,
              (canonical, item) ∈ owners →
              ∃ recorded, (canonical, recorded) ∈ seen_decls_ self' ∧ item ∈ recorded)
         ∧ NoDup (omap item_decl_id emitted)).
Proof.
  split_and!.
  - intros Hseen Hkind. destruct decl as [common kind children].
    rewrite TraverseDecl_unfold. simpl in Hseen, Hkind. by rewrite Hseen, Hkind.
  - intros Hkind. destruct decl as [common kind children].
    destruct kind; try done. rewrite TraverseDecl_unfold.
    cbn [decl_common decl_kind decl_children isa_NamespaceDecl negb].
    by rewrite andb_false_r.
  - intros self' Htraverse Hok.
    pose proof (TraverseDecl_dedup_ok decl self self' Htraverse Hok) as Hok'.
    split; [exact Hok'|].
    intros canonical items Hin. destruct Hok' as [_ Hall].
    rewrite Forall_forall in Hall. specialize (Hall _ Hin). simpl in Hall.
    rewrite <- count_primary_by_kind in Hall. exact Hall.
  - intros ast_context self' Hkind Htraverse Hseen Hnamespace Hchildren Hok Hids.
    pose proof (TraverseDecl_dedup_ok decl self self' Htraverse Hok) as Hok'.
    pose proof (TraverseDecl_ids_match decl self self' Htraverse Hids) as Hids'.
    destruct decl as [common kind children]. simpl in *. subst kind.
    destruct (translation_unit_emission _ _ _ _ _ Htraverse Hseen Hnamespace Hchildren)
      as (_ & _ & _ & Hitems & _).
    assert (map snd (sorted_items self') ≡ₚ recorded_items self') as Hperm.
    { rewrite (Permutation_map snd (sorted_items_keyed self')).
      by rewrite keyed_by_position_items. }
    destruct (primary_owners_spec (seen_decls_ self') Hok')
      as (Howners & Hdistinct & Hrecorded).
    exists (map snd (sorted_items self')), (primary_owners (seen_decls_ self')).
    split_and!.
    + exact Hitems.
    + exact Hperm.
    + rewrite Howners, (filter_Permutation _ _ _ Hperm).
      unfold recorded_items. rewrite List.filter_app.
      assert (List.filter is_primary
                (map comment_item (comments_ (comment_manager_ self'))) = []) as ->;
        [|by rewrite app_nil_r].
      by induction (comments_ (comment_manager_ self')).
    + exact Hdistinct.
    + intros canonical item Hin. by apply Hrecorded.
    + rewrite Hperm. unfold recorded_items. rewrite omap_app.
      assert (omap item_decl_id
                (map comment_item (comments_ (comment_manager_ self'))) = []) as ->.
      { by induction (comments_ (comment_manager_ self')). }
      rewrite app_nil_r. by apply dedup_ids_NoDup.
Qed.

Lemma canonical_dedup_witness :
  (∃ self' func,
     TraverseDecl Examples.Foo_twice Examples.visitor = Some self'
     ∧ seen_decls_ self' = [(Examples.Foo_canonical, [IR.ItemFunc func])]
     ∧ IR.items (ir_ self') = [IR.ItemFunc func]
     ∧ dedup_ok (seen_decls_ self'))
  ∧ (∃ self' record,
       TraverseDecl MoreExamples.T_twice Examples.visitor = Some self'
       ∧ IR.items (ir_ self') = [IR.ItemRecord record]
       ∧ Record_.id record = GenerateDeclId 40
       ∧ NoDup (omap item_decl_id (IR.items (ir_ self'))))
  ∧ ∃ self1 self2,
      TraverseDecl (MoreExamples.inner_ns 71 4) Examples.visitor = Some self1
      ∧ seen_contains (seen_decls_ self1) 71 = true
      ∧ TraverseDecl (MoreExamples.inner_ns 72 12) self1 = Some self2
      ∧ length (seen_lookup (seen_decls_ self2) 71) = 2%nat.
Proof.
  assert (dedup_ok (seen_decls_ Examples.visitor)) as Hok.
  { split; [apply NoDup_nil_2|constructor]. }
  split_and!.
  - destruct (TraverseDecl Examples.Foo_twice Examples.visitor) as [self'|] eqn:Hrun;
      [|vm_compute in Hrun; discriminate].
    pose proof (proj1 (proj1 (proj2 (proj2 (canonical_dedup Examples.Foo_twice
                                              Examples.visitor)))
                         self' Hrun Hok)) as Hok'.
    vm_compute in Hrun. injection Hrun as <-.
    eexists _, _. split_and!; [reflexivity|reflexivity|reflexivity|exact Hok'].
  - destruct (TraverseDecl MoreExamples.T_twice Examples.visitor) as [self'|] eqn:Hrun;
      [|vm_compute in Hrun; discriminate].
    destruct (proj2 (proj2 (proj2 (canonical_dedup MoreExamples.T_twice Examples.visitor)))
                Examples.ctx self' eq_refl Hrun eq_refl eq_refl)
      as (emitted & owners & Hitems & _ & _ & _ & _ & Hids);
      [repeat constructor|exact Hok|constructor|].
    simpl in Hitems. rewrite <-Hitems in Hids.
    vm_compute in Hrun. injection Hrun as <-.
    eexists _, _. split_and!; [reflexivity|reflexivity|reflexivity|exact Hids].
  - eexists _, _. split; [reflexivity|]. split; [reflexivity|].
    split;
      [rewrite (proj1 (proj2 (canonical_dedup (MoreExamples.inner_ns 72 12) _)) eq_refl);
       reflexivity
      |reflexivity].
Defined.

(** ** Emitter *)

Section SortedUnique.
Context {A : Type} (comp : A → A → bool).
Hypothesis comp_asymmetric : ∀ x y, comp x y = true → comp y x = false.
Hypothesis comp_negatively_transitive :
  ∀ x y z, comp x z = true → comp x y = true ∨ comp y z = true.

Lemma comp_irreflexive x : comp x x = false.
Proof.
  destruct (comp x x) eqn:Hx; [|done]. by rewrite (comp_asymmetric x x Hx) in Hx.
Qed.

Lemma tied_with_comp z a b : tied_with comp z a = true → tied_with comp z b = true → comp a b = false.
Proof.
  unfold tied_with. intros [Hza Haz]%andb_true_iff [Hzb Hbz]%andb_true_iff.
  apply negb_true_iff in Hza, Haz, Hzb, Hbz.
  destruct (comp a b) eqn:Hab; [|done].
  destruct (comp_negatively_transitive a z b Hab); congruence.
Qed.

Lemma sorted_unique l1 :
  ∀ l2,
    StronglySorted (λ a b, comp b a = false) l1 →
    StronglySorted (λ a b, comp b a = false) l2 →
    l1 ≡ₚ l2 →
    (∀ z, List.filter (tied_with comp z) l1 = List.filter (tied_with comp z) l2) →
    l1 = l2.
Proof.
  induction l1 as [|x t1 IH]; intros l2 Hsorted1 Hsorted2 Hperm Hties.
  { by apply Permutation_nil in Hperm. }
  destruct l2 as [|y t2]; [by apply Permutation_sym, Permutation_nil in Hperm|].
  apply StronglySorted_inv in Hsorted1 as [Hsorted1 Hx].
  apply StronglySorted_inv in Hsorted2 as [Hsorted2 Hy].
  assert (comp x y = false) as Hxy.
  { assert (x ∈ y :: t2) as [->|Hin]%elem_of_cons by (rewrite <-Hperm; left).
    - apply comp_irreflexive.
    - rewrite Forall_forall in Hy. by apply Hy. }
  assert (comp y x = false) as Hyx.
  { assert (y ∈ x :: t1) as [->|Hin]%elem_of_cons by (rewrite Hperm; left).
    - apply comp_irreflexive.
    - rewrite Forall_forall in Hx. by apply Hx. }
  assert (x = y) as <-.
  { pose proof (Hties x) as Hx'. simpl in Hx'.
    assert (tied_with comp x x = true) as Hxx
      by (unfold tied_with; by rewrite comp_irreflexive).
    assert (tied_with comp x y = true) as Hxy'
      by (unfold tied_with; by rewrite Hxy, Hyx).
    rewrite Hxx, Hxy' in Hx'. by injection Hx'. }
  f_equal. apply IH; [done|done|by apply Permutation_cons_inv in Hperm|].
  intros z. specialize (Hties z). simpl in Hties.
  destruct (tied_with comp z x); [by injection Hties|done].
Qed.

Lemma stable_sort_unique l1 l2 :
  l1 ≡ₚ l2 →
  (∀ z, List.filter (tied_with comp z) l1 = List.filter (tied_with comp z) l2) →
  stable_sort comp l1 = stable_sort comp l2.
Proof.
  intros Hperm Hties. apply sorted_unique.
  - by apply stable_sort_sorted.
  - by apply stable_sort_sorted.
  - by rewrite !stable_sort_Permutation.
  - intros z. rewrite !stable_sort_filter; [apply Hties|apply tied_with_comp..].
Qed.
End SortedUnique.

Section MapOrder.
Context (sm : SourceManager) (Horder : orders_translation_unit sm).

Lemma entries_apart_ordered e1 e2 a b :
  entries_apart e1 e2 → a ∈ keyed_items e1 → b ∈ keyed_items e2 →
  items_before sm a b = true ∨ items_before sm b a = true.
Proof.
  intros [Hvalid Hkeys] (item1 & -> & _)%list_elem_of_fmap (item2 & -> & _)%list_elem_of_fmap.
  unfold items_before. simpl.
  destruct (isValid (canon_getBeginLoc e1.1)) eqn:H1,
           (isValid (canon_getBeginLoc e2.1)) eqn:H2; simpl;
    [|by right|by left|by destruct Hvalid].
  destruct (decide (canon_getBeginLoc e1.1 = canon_getBeginLoc e2.1)) as [Heq|Hne].
  - destruct Hkeys as [?|Horders]; [done|].
    rewrite Heq, N.eqb_refl. simpl.
    destruct (Z.lt_trichotomy (local_order e1.1) (local_order e2.1)) as [?|[?|?]];
      [left|done|right]; apply orb_true_iff; right; lia.
  - destruct (before_total sm Horder _ _ H1 H2 Hne) as [->| ->]; [by left|by right].
Qed.

Lemma filter_tied_apart e1 e2 z :
  entries_apart e1 e2 →
  List.filter (tied_with (items_before sm) z) (keyed_items e1) = []
  ∨ List.filter (tied_with (items_before sm) z) (keyed_items e2) = [].
Proof.
  intros Hapart.
  destruct (List.filter _ (keyed_items e1)) as [|a ?] eqn:H1; [by left|].
  destruct (List.filter _ (keyed_items e2)) as [|b ?] eqn:H2; [by right|].
  exfalso.
  assert (In a (List.filter (tied_with (items_before sm) z) (keyed_items e1)))
    as [Ha Hza]%filter_In by (rewrite H1; by left).
  assert (In b (List.filter (tied_with (items_before sm) z) (keyed_items e2)))
    as [Hb Hzb]%filter_In by (rewrite H2; by left).
  pose proof (tied_with_comp _ (items_before_negatively_transitive sm Horder)
                _ _ _ Hza Hzb) as Hab.
  pose proof (tied_with_comp _ (items_before_negatively_transitive sm Horder)
                _ _ _ Hzb Hza) as Hba.
  destruct (entries_apart_ordered e1 e2 a b Hapart); [by apply list_elem_of_In..| |];
    congruence.
Qed.

Lemma filter_tied_Permutation l1 l2 :
  l1 ≡ₚ l2 →
  (∀ e1 e2, e1 ∈ l1 → e2 ∈ l1 → e1 = e2 ∨ entries_apart e1 e2) →
  ∀ z, List.filter (tied_with (items_before sm) z) (flat_map keyed_items l1)
       = List.filter (tied_with (items_before sm) z) (flat_map keyed_items l2).
Proof.
  induction 1 as [|e l1 l2 Hperm IH|e1 e2 l|l1 l2 l3 Hperm12 IH12 Hperm23 IH23];
    intros Hapart z.
  - done.
  - simpl. rewrite !List.filter_app. f_equal. apply IH.
    intros ?? ??. apply Hapart; by right.
  - simpl. rewrite !List.filter_app.
    destruct (Hapart e1 e2) as [->|Hentries]; [right; left|left|done|].
    destruct (filter_tied_apart e1 e2 z Hentries) as [-> | ->]; simpl;
      by rewrite ?app_nil_r.
  - etrans; [by apply IH12|]. apply IH23.
    intros ?? ??. apply Hapart; by rewrite Hperm12.
Qed.
End MapOrder.

(** X19. The emitted items do not depend on the order in which the hash map
    [seen_decls_] is iterated, as long as the comparator can tell the
    entries of the map apart: when no two of them share begin location and
    local order, or lack a valid location both, two visitors whose maps hold
    the same entries in any two orders emit the same sequence of items. *)
Theorem emission_independent_of_map_order self1 self2 :
  orders_translation_unit (getSourceManager (ctx_ self1)) →
  ctx_ self2 = ctx_ self1 →
  comment_manager_ self2 = comment_manager_ self1 →
  ir_ self2 = ir_ self1 →
  seen_decls_ self1 ≡ₚ seen_decls_ self2 →
  (∀ e1 e2, e1 ∈ seen_decls_ self1 → e2 ∈ seen_decls_ self1 →
            e1 = e2 ∨ entries_apart e1 e2) →
  sorted_items self1 = sorted_items self2
  ∧ IR.items (ir_ (EmitIRItems self1)) = IR.items (ir_ (EmitIRItems self2)).
Proof.
  intros Horder Hctx Hcomments Hir Hperm Hapart.
  assert (sorted_items self1 = sorted_items self2) as Hsorted.
  { unfold sorted_items. rewrite Hctx.
    apply stable_sort_unique.
    - by apply items_before_asymmetric.
    - by apply items_before_negatively_transitive.
    - unfold collect_items. rewrite Hcomments. apply Permutation_app_tail.
      by apply Permutation_flat_map.
    - intros z. unfold collect_items. rewrite Hcomments, !List.filter_app. f_equal.
      by apply (filter_tied_Permutation _ Horder). }
  split; [exact Hsorted|]. unfold EmitIRItems. simpl. by rewrite Hsorted, Hir.
Qed.

Lemma emission_independent_of_map_order_witness :
  IR.items (ir_ (EmitIRItems Examples.visitor_emitting))
  = IR.items (ir_ (EmitIRItems MoreExamples.visitor_emitting_reversed)).
Proof.
  refine (proj2 (emission_independent_of_map_order Examples.visitor_emitting
                   MoreExamples.visitor_emitting_reversed
                   Examples_sm_orders_translation_unit eq_refl eq_refl eq_refl _ _)).
  - apply (Permutation_sym (reverse_Permutation _)).
  - intros e1 e2 Hin1 Hin2.
    repeat (apply elem_of_cons in Hin1 as [->|Hin1]);
      [..|by apply elem_of_nil in Hin1];
      (repeat (apply elem_of_cons in Hin2 as [->|Hin2]);
       [..|by apply elem_of_nil in Hin2]);
      first [by left|right; split; simpl; [by eauto|by eauto]].
Defined.

(** ** Function importer *)

Lemma ImportThisParam_params decl function_decl st st' :
  ImportThisParam decl function_decl st = Some st' →
  fi_success st' = true →
  fi_self st' = fi_self st ∧ fi_success st = true
  ∧ ∃ ps, fi_params st' = fi_params st ++ ps
          ∧ this_param_imported (fi_self st) function_decl ps.
Proof.
  unfold ImportThisParam, this_param_imported.
  destruct (dyn_cast_CXXMethodDecl function_decl) as [method_decl|].
  2:{ intros [= <-] ?. split_and!; try done. exists []. by rewrite app_nil_r. }
  destruct (isInstance method_decl).
  2:{ intros [= <-] ?. split_and!; try done. exists []. by rewrite app_nil_r. }
  destruct (ConvertType _ _ _ _) as [[status|t]|]; simpl; [| |done].
  - by intros [= <-].
  - intros [= <-] ?. split_and!; try done. by eauto.
Qed.

Lemma ImportParam_params decl function_decl i param st st' :
  ImportParam decl function_decl i param st = Some st' →
  fi_success st' = true →
  fi_self st' = fi_self st ∧ fi_success st = true
  ∧ ∃ p, fi_params st' = fi_params st ++ [p]
         ∧ param_imported (fi_self st) function_decl i param p.
Proof.
  unfold ImportParam, param_imported, lifetimes_of_param, passable_by_value.
  destruct (GetLifetimeAnnotations function_decl) as [lifetimes|]; simpl.
  - destruct (devtools_rust.param_lifetimes lifetimes !! i) as [param_lifetimes|];
      simpl; [|done].
    destruct (ConvertType _ _ _ _) as [[status|t]|]; simpl; [by intros [= <-]| |done].
    destruct (GetTranslatedIdentifier _) as [param_name|]; simpl; [|done].
    destruct (dyn_cast_RecordType _) as [record_decl|];
      [destruct (canPassInRegisters record_decl)|]; simpl; intros [= <-]; try done;
      intros ?; split_and!; try done; by eexists (mkFuncParam _ _).
  - destruct (ConvertType _ _ _ _) as [[status|t]|]; simpl; [by intros [= <-]| |done].
    destruct (GetTranslatedIdentifier _) as [param_name|]; simpl; [|done].
    destruct (dyn_cast_RecordType _) as [record_decl|];
      [destruct (canPassInRegisters record_decl)|]; simpl; intros [= <-]; try done;
      intros ?; split_and!; try done; by eexists (mkFuncParam _ _).
Qed.

Lemma ImportParams_params decl function_decl params :
  ∀ i st st',
    ImportParams decl function_decl i params st = Some st' →
    fi_success st' = true →
    fi_self st' = fi_self st ∧ fi_success st = true
    ∧ ∃ ps, fi_params st' = fi_params st ++ ps
            ∧ params_imported (fi_self st) function_decl i params ps.
Proof.
  induction params as [|param rest IH]; intros i st st'; simpl.
  { intros [= <-] ?. split_and!; try done. exists []. by rewrite app_nil_r. }
  destruct (ImportParam decl function_decl i param st) as [st1|] eqn:H1; simpl; [|done].
  intros Hrest Hsuccess.
  destruct (IH _ _ _ Hrest Hsuccess) as (Eself & Hsuccess1 & ps & Eparams & Hps).
  destruct (ImportParam_params _ _ _ _ _ _ H1 Hsuccess1)
    as (Eself1 & Hsuccess0 & p & Eparams1 & Hp).
  split_and!; [congruence|done|]. exists (p :: ps). split.
  - by rewrite Eparams, Eparams1, <-app_assoc.
  - simpl. split; [done|]. by rewrite <-Eself1.
Qed.

Lemma ImportReturnType_params decl function_decl st st' return_type :
  ImportReturnType decl function_decl st = Some (st', return_type) →
  fi_success st' = true →
  fi_self st' = fi_self st ∧ fi_success st = true ∧ fi_params st' = fi_params st
  ∧ ConvertType (fi_self st) (getReturnType function_decl)
      (devtools_rust.return_lifetimes <$> GetLifetimeAnnotations function_decl)
      ConvertType_default_nullable = Some return_type
  ∧ ok return_type = true
  ∧ passable_by_value (getReturnType function_decl) = true.
Proof.
  unfold ImportReturnType, passable_by_value.
  destruct (dyn_cast_RecordType _) as [record_decl|];
    [destruct (canPassInRegisters record_decl)|]; simpl;
    destruct (ConvertType _ _ _ _) as [[status|t]|] eqn:Hconvert; simpl;
    try done; intros [= <- <-]; try done; intros ?; split_and!; done.
Qed.

Lemma ImportThisParam_lifetimes decl function_decl st st' :
  ImportThisParam decl function_decl st = Some st' →
  fi_all_lifetimes st'
  = fi_all_lifetimes st
    ++ match dyn_cast_CXXMethodDecl function_decl with
       | Some method_decl =>
           if isInstance method_decl then
             default [] (devtools_rust.this_lifetimes
                           <$> GetLifetimeAnnotations function_decl)
           else []
       | None => []
       end.
Proof.
  unfold ImportThisParam.
  destruct (dyn_cast_CXXMethodDecl function_decl) as [method_decl|];
    [|intros [= <-]; by rewrite app_nil_r].
  destruct (isInstance method_decl); [|intros [= <-]; by rewrite app_nil_r].
  destruct (ConvertType _ _ _ _) as [[status|t]|]; simpl; [| |done]; by intros [= <-].
Qed.

Lemma ImportParam_lifetimes decl function_decl i param st st' :
  ImportParam decl function_decl i param st = Some st' →
  match GetLifetimeAnnotations function_decl with
  | None => fi_all_lifetimes st' = fi_all_lifetimes st
  | Some lifetimes =>
      ∃ param_lifetimes,
        devtools_rust.param_lifetimes lifetimes !! i = Some param_lifetimes
        ∧ fi_all_lifetimes st' = fi_all_lifetimes st ++ param_lifetimes
  end.
Proof.
  unfold ImportParam.
  destruct (GetLifetimeAnnotations function_decl) as [lifetimes|]; simpl.
  - destruct (devtools_rust.param_lifetimes lifetimes !! i) as [param_lifetimes|];
      simpl; [|done].
    destruct (ConvertType _ _ _ _) as [[status|t]|]; simpl; [by intros [= <-]; eauto| |done].
    destruct (GetTranslatedIdentifier _) as [param_name|]; simpl; [|done].
    destruct (dyn_cast_RecordType _) as [record_decl|];
      [destruct (canPassInRegisters record_decl)|]; simpl; intros [= <-]; by eauto.
  - destruct (ConvertType _ _ _ _) as [[status|t]|]; simpl;
      [intros [= <-]; simpl; by rewrite app_nil_r| |done].
    destruct (GetTranslatedIdentifier _) as [param_name|]; simpl; [|done].
    destruct (dyn_cast_RecordType _) as [record_decl|];
      [destruct (canPassInRegisters record_decl)|]; simpl; intros [= <-]; simpl;
      by rewrite app_nil_r.
Qed.

Lemma ImportParams_lifetimes decl function_decl params :
  ∀ i st st',
    ImportParams decl function_decl i params st = Some st' →
    match GetLifetimeAnnotations function_decl with
    | None => fi_all_lifetimes st' = fi_all_lifetimes st
    | Some lifetimes =>
        fi_all_lifetimes st'
        = fi_all_lifetimes st
          ++ concat (take (length params) (drop i (devtools_rust.param_lifetimes lifetimes)))
    end.
Proof.
  induction params as [|param rest IH]; intros i st st'; simpl.
  { intros [= <-]. destruct (GetLifetimeAnnotations function_decl); [|done].
    by rewrite app_nil_r. }
  destruct (ImportParam decl function_decl i param st) as [st1|] eqn:H1; simpl; [|done].
  intros Hrest. specialize (IH _ _ _ Hrest).
  apply ImportParam_lifetimes in H1.
  destruct (GetLifetimeAnnotations function_decl) as [lifetimes|]; [|congruence].
  destruct H1 as (param_lifetimes & Hi & H1).
  rewrite IH, H1, <-app_assoc. f_equal.
  erewrite (drop_S _ _ i) by exact Hi. done.
Qed.

Lemma ImportReturnType_lifetimes decl function_decl st st' return_type :
  ImportReturnType decl function_decl st = Some (st', return_type) →
  fi_all_lifetimes st'
  = fi_all_lifetimes st
    ++ default [] (devtools_rust.return_lifetimes <$> GetLifetimeAnnotations function_decl).
Proof.
  unfold ImportReturnType.
  destruct (dyn_cast_RecordType _) as [record_decl|];
    [destruct (canPassInRegisters record_decl)|]; simpl;
    destruct (ConvertType _ _ _ _) as [[status|t]|]; simpl;
    try done; by intros [= <- <-].
Qed.

(** The lifetimes that [VisitFunctionDecl] has collected when it names them:
    those of the annotations of the function. *)
Lemma VisitFunctionDecl_collects decl function_decl st0 st1 st2 st3 return_type :
  fi_all_lifetimes st0 = [] →
  ImportThisParam decl function_decl st0 = Some st1 →
  match GetLifetimeAnnotations function_decl with
  | Some lifetimes =>
      CHECK (bool_decide (length (devtools_rust.param_lifetimes lifetimes)
                          = length (parameters function_decl)))
  | None => Some tt
  end = Some tt →
  ImportParams decl function_decl 0 (parameters function_decl) st1 = Some st2 →
  ImportReturnType decl function_decl st2 = Some (st3, return_type) →
  fi_all_lifetimes st3 = annotated_lifetimes function_decl.
Proof.
  intros H0 H1%ImportThisParam_lifetimes Hcheck H2%ImportParams_lifetimes
         H3%ImportReturnType_lifetimes.
  unfold annotated_lifetimes.
  destruct (GetLifetimeAnnotations function_decl) as [lifetimes|]; simpl in *.
  - destruct (bool_decide _) eqn:Hlen in Hcheck; [|done].
    apply bool_decide_eq_true in Hlen.
    rewrite H3, H2, H1, H0, <-Hlen. simpl. rewrite firstn_all, <-app_assoc. done.
  - rewrite H3, H2, H1, H0, app_nil_r.
    by destruct (dyn_cast_CXXMethodDecl function_decl) as [method_decl|];
      [destruct (isInstance method_decl)|].
Qed.

(** What [VisitFunctionDecl] records: unsupported items only, or, when the
    success flag is still set at the end, the name translates and the
    function is free or public, the one [Func] item. *)
Lemma VisitFunctionDecl_outcome self decl function_decl self' :
  VisitFunctionDecl self decl function_decl = Some self' →
  (∃ items, Forall (λ i, is_UnsupportedItem i = true) items
            ∧ self' = with_items self (getCanonicalDecl decl) items)
  ∨ ∃ this_params params return_type lifetime_params translated_name,
      IsFromCurrentTarget self decl = true
      ∧ isDeleted function_decl = false
      ∧ this_param_imported self function_decl this_params
      ∧ params_imported self function_decl 0 (parameters function_decl) params
      ∧ ConvertType self (getReturnType function_decl)
          (devtools_rust.return_lifetimes <$> GetLifetimeAnnotations function_decl)
          ConvertType_default_nullable = Some (inr return_type)
      ∧ passable_by_value (getReturnType function_decl) = true
      ∧ CollectLifetimeParams (lifetime_symbol_table function_decl)
                              (annotated_lifetimes function_decl)
        = Some lifetime_params
      ∧ GetTranslatedName (named decl) = Some translated_name
      ∧ (∀ method_decl, dyn_cast_CXXMethodDecl function_decl = Some method_decl →
                        getAccess method_decl = AS_public)
      ∧ self' = with_items self (getCanonicalDecl decl)
                  [IR.ItemFunc
                     (Func.mk translated_name (GetOwningTarget self decl)
                        (GetComment (getRawCommentForDeclNoCache decl))
                        (GetMangledName function_decl) return_type
                        (this_params ++ params) lifetime_params
                        (isInlined function_decl)
                        (GetMemberFuncMetadata <$> dyn_cast_CXXMethodDecl function_decl)
                        (ConvertSourceLocation self (getBeginLoc decl)))].
Proof.
  unfold VisitFunctionDecl.
  destruct (IsFromCurrentTarget self decl) eqn:Htarget; simpl;
    [|intros [= <-]; left; exists []; by rewrite with_items_nil].
  destruct (isDeleted function_decl) eqn:Hdeleted;
    [intros [= <-]; left; exists []; by rewrite with_items_nil|].
  set (st0 := mkFunctionImport self [] true []).
  destruct (ImportThisParam decl function_decl st0) as [st1|] eqn:H1; simpl; [|done].
  destruct (match GetLifetimeAnnotations function_decl with
            | Some lifetimes => _ | None => _ end) as [[]|] eqn:Hcheck; simpl; [|done].
  destruct (ImportParams decl function_decl 0 (parameters function_decl) st1)
    as [st2|] eqn:H2; simpl; [|done].
  destruct (ImportReturnType decl function_decl st2) as [[st3 return_type]|] eqn:H3;
    simpl; [|done].
  rewrite (VisitFunctionDecl_collects decl function_decl st0 st1 st2 st3 return_type
             eq_refl H1 Hcheck H2 H3).
  destruct (CollectLifetimeParams _ _) as [lifetime_params|] eqn:Hlifetimes; simpl; [|done].
  pose proof (ImportThisParam_step _ _ _ _ H1) as S1.
  pose proof (ImportParams_step _ _ _ _ _ _ H2) as S2.
  destruct (ImportReturnType_step _ _ _ _ _ H3) as [S3 _].
  pose proof (import_step_trans _ _ _ _ S1 (import_step_trans _ _ _ _ S2 S3))
    as [(items & Hitems & Hself3) _].
  simpl in Hself3.
  assert (∃ items, Forall (λ i, is_UnsupportedItem i = true) items
                   ∧ fi_self st3 = with_items self (getCanonicalDecl decl) items)
    as Hnothing by eauto.
  destruct (fi_success st3) eqn:Hsuccess.
  2:{ intros Hself'. left.
      destruct (dyn_cast_CXXMethodDecl function_decl) as [method_decl|];
        [destruct (getAccess method_decl)|]; injection Hself' as <-;
        by destruct (GetTranslatedName (named decl)), return_type. }
  destruct (ImportReturnType_params _ _ _ _ _ H3 Hsuccess)
    as (E3 & Hsuccess2 & P3 & Hreturn & Hok & Hpassable).
  destruct (ImportParams_params _ _ _ _ _ _ H2 Hsuccess2)
    as (E2 & Hsuccess1 & params & P2 & Hparams).
  destruct (ImportThisParam_params _ _ _ _ H1 Hsuccess1)
    as (E1 & _ & this_params & P1 & Hthis).
  simpl in E1, P1. rewrite E1 in E2, Hparams. rewrite E2 in E3, Hreturn.
  rewrite P3, P2, P1, E3.
  destruct return_type as [status|return_type]; [done|].
  destruct (GetTranslatedName (named decl)) as [translated_name|] eqn:Hname.
  2:{ intros Hself'. left. exists []. rewrite with_items_nil.
      destruct (dyn_cast_CXXMethodDecl function_decl) as [method_decl|];
        [destruct (getAccess method_decl)|]; by injection Hself' as <-. }
  destruct (dyn_cast_CXXMethodDecl function_decl) as [method_decl|] eqn:Hmethod.
  - destruct (getAccess method_decl) eqn:Haccess; intros [= <-];
      try (left; exists []; by rewrite with_items_nil).
    right. exists this_params, params, return_type, lifetime_params, translated_name.
    split_and!; try done. by intros ? [= <-].
  - intros [= <-]. right.
    exists this_params, params, return_type, lifetime_params, translated_name.
    split_and!; done.
Qed.

Lemma params_imported_length self function_decl params :
  ∀ i ps, params_imported self function_decl i params ps → length ps = length params.
Proof.
  induction params as [|param params IH]; intros i [|p ps]; simpl; try done.
  intros [_ Hrest]. f_equal. by eapply IH.
Qed.

(** X20. What the function importer records for a function is either
    unsupported items only, or exactly one item, the [Func]: then the
    function is from the current target, which is the item's owning target,
    is not deleted and is free or public; the item has the translated name,
    the mangled name, the doc comment, the inline flag and the location of
    the declaration, the translated return type, member function metadata
    exactly for a member function, and as parameters the implicit [__this]
    of a non-static member function followed by the declared parameters in
    order, each with its translated type and name. *)
Theorem imported_function_contents self decl function_decl self' :
  VisitFunctionDecl self decl function_decl = Some self' →
  (∃ items, Forall (λ i, is_UnsupportedItem i = true) items
            ∧ self' = with_items self (getCanonicalDecl decl) items)
  ∨ ∃ func this_params params,
      self' = with_items self (getCanonicalDecl decl) [IR.ItemFunc func]
      ∧ isDeleted function_decl = false
      ∧ (∀ method_decl, dyn_cast_CXXMethodDecl function_decl = Some method_decl →
                        getAccess method_decl = AS_public)
      ∧ Func.owning_target func = current_target_ self
      ∧ GetTranslatedName (named decl) = Some (Func.name func)
      ∧ Func.mangled_name func = GetMangledName function_decl
      ∧ Func.doc_comment func = GetComment (getRawCommentForDeclNoCache decl)
      ∧ Func.is_inline func = isInlined function_decl
      ∧ Func.source_loc func = ConvertSourceLocation self (getBeginLoc decl)
      ∧ Func.member_func_metadata func
        = GetMemberFuncMetadata <$> dyn_cast_CXXMethodDecl function_decl
      ∧ ConvertType self (getReturnType function_decl)
          (devtools_rust.return_lifetimes <$> GetLifetimeAnnotations function_decl)
          ConvertType_default_nullable = Some (inr (Func.return_type func))
      ∧ Func.params func = this_params ++ params
      ∧ this_param_imported self function_decl this_params
      ∧ params_imported self function_decl 0 (parameters function_decl) params
      ∧ length params = length (parameters function_decl).
Proof.
  intros [Hunsupported|Hfunc]%VisitFunctionDecl_outcome; [by left|right].
  destruct Hfunc as (this_params & params & return_type & lifetime_params
                     & translated_name & Htarget & Hdeleted & Hthis & Hparams & Hreturn
                     & _ & _ & Hname & Hpublic & ->).
  eexists _, this_params, params. split; [reflexivity|]. simpl.
  split_and!; try done.
  - unfold IsFromCurrentTarget in Htarget. by apply String.eqb_eq in Htarget.
  - by eapply params_imported_length.
Qed.

Lemma imported_function_contents_witness :
  ∃ func,
    VisitFunctionDecl Examples.visitor_knowing_S MoreExamples.method_get_common
                      MoreExamples.method_get
    = Some (with_items Examples.visitor_knowing_S
              (getCanonicalDecl MoreExamples.method_get_common) [IR.ItemFunc func])
    ∧ Func.owning_target func = Examples.target
    ∧ map param_identifier (Func.params func)
      = [mkIdentifier "__this"; mkIdentifier "__param_0"].
Proof.
  destruct (VisitFunctionDecl Examples.visitor_knowing_S MoreExamples.method_get_common
              MoreExamples.method_get) as [self'|] eqn:Hrun;
    [|vm_compute in Hrun; discriminate].
  destruct (imported_function_contents _ _ _ _ Hrun)
    as [(items & Hitems & Hself')|(func & this_params & params & Hself' & _ & _
                                   & Howner & _)].
  - exfalso. vm_compute in Hrun. injection Hrun as <-.
    apply (f_equal (λ s, seen_lookup (seen_decls_ s) 21)) in Hself'.
    unfold with_items in Hself'. simpl in Hself'.
    rewrite seen_lookup_push_all in Hself'. simpl in Hself'. subst items.
    by inversion Hitems.
  - exists func. split; [by rewrite Hself'|]. split; [exact Howner|].
    vm_compute in Hrun. injection Hrun as <-.
    apply (f_equal (λ s, seen_lookup (seen_decls_ s) 21)) in Hself'.
    vm_compute in Hself'. injection Hself' as <-. reflexivity.
Defined.

(** X21. A function of the current target without lifetime annotations
    that is not deleted, is free or public, has a translated name, and whose
    parameter and return types translate, with no record passed or returned
    by value that cannot be passed in registers, is imported: exactly one
    item is recorded for it, a [Func] with that name, without lifetime
    parameters, and nothing unsupported is reported. *)
Theorem translatable_function_imported self decl function_decl translated_name :
  IsFromCurrentTarget self decl = true →
  isDeleted function_decl = false →
  GetLifetimeAnnotations function_decl = None →
  (∀ method_decl, dyn_cast_CXXMethodDecl function_decl = Some method_decl →
                  getAccess method_decl = AS_public) →
  types_translate self function_decl = true →
  records_passable_by_value function_decl = true →
  Forall (λ param, is_Some (GetTranslatedIdentifier (parm_named param)))
         (parameters function_decl) →
  GetTranslatedName (named decl) = Some translated_name →
  ∃ func,
    VisitFunctionDecl self decl function_decl
    = Some (with_items self (getCanonicalDecl decl) [IR.ItemFunc func])
    ∧ Func.name func = translated_name
    ∧ Func.lifetime_params func = []
    ∧ seen_lookup (seen_decls_ (with_items self (getCanonicalDecl decl) [IR.ItemFunc func]))
                  (canon_ptr (getCanonicalDecl decl))
      = seen_lookup (seen_decls_ self) (canon_ptr (getCanonicalDecl decl))
        ++ [IR.ItemFunc func].
Proof.
  intros Htarget Hdeleted Hnone Hpublic Htypes Hpassable Hnames Hname.
  unfold types_translate, records_passable_by_value in Htypes, Hpassable.
  apply andb_true_iff in Htypes as [[Hthis Hparams]%andb_true_iff Hreturn].
  apply andb_true_iff in Hpassable as [Hpp Hpr].
  unfold VisitFunctionDecl. rewrite Htarget, Hdeleted. simpl.
  destruct (ImportThisParam_returns decl function_decl (mkFunctionImport self [] true [])
              Hnone eq_refl) as (st1 & H1 & Hall1).
  rewrite H1. simpl. rewrite Hnone. simpl.
  destruct (ImportThisParam_ok _ _ _ _ H1 Hthis) as [E1 F1]. simpl in E1, F1.
  destruct (ImportParams_returns decl function_decl (parameters function_decl)
              Hnone Hnames 0%nat st1 Hall1) as (st2 & H2 & Hall2).
  rewrite H2. simpl. rewrite <-E1 in Hparams.
  destruct (ImportParams_ok _ _ _ _ _ _ H2 Hparams Hpp) as [E2 F2].
  destruct (ImportReturnType_returns decl function_decl st2 Hnone Hall2)
    as (st3 & return_type & H3 & Hall3).
  rewrite H3. simpl. rewrite <-E1, <-E2 in Hreturn.
  destruct (ImportReturnType_ok _ _ _ _ _ H3 Hreturn Hpr) as [E3 F3].
  destruct (ImportReturnType_step _ _ _ _ _ H3) as [_ Hok].
  assert (fi_success st3 = true) as Hsuccess by congruence.
  specialize (Hok Hsuccess). destruct return_type as [status|return_type]; [done|].
  rewrite Hall3. simpl. rewrite Hname, Hsuccess.
  assert (fi_self st3 = self) as -> by congruence.
  assert (∀ metadata,
            ∃ func,
              Some (set_seen_decls_
                      (seen_push_back (seen_decls_ self) (getCanonicalDecl decl)
                         (IR.ItemFunc
                            (Func.mk translated_name (GetOwningTarget self decl)
                               (GetComment (getRawCommentForDeclNoCache decl))
                               (GetMangledName function_decl) return_type (fi_params st3)
                               [] (isInlined function_decl) metadata
                               (ConvertSourceLocation self (getBeginLoc decl)))))
                      self)
              = Some (with_items self (getCanonicalDecl decl) [IR.ItemFunc func])
              ∧ Func.name func = translated_name
              ∧ Func.lifetime_params func = []
              ∧ seen_lookup
                  (seen_decls_ (with_items self (getCanonicalDecl decl) [IR.ItemFunc func]))
                  (canon_ptr (getCanonicalDecl decl))
                = seen_lookup (seen_decls_ self) (canon_ptr (getCanonicalDecl decl))
                  ++ [IR.ItemFunc func]) as Hpublish.
  { intros metadata. eexists. split; [reflexivity|]. split_and!; try done.
    unfold with_items. simpl. by rewrite seen_lookup_push_back, N.eqb_refl. }
  destruct (dyn_cast_CXXMethodDecl function_decl) as [method_decl|]; [|apply Hpublish].
  rewrite (Hpublic method_decl eq_refl). apply Hpublish.
Qed.

Lemma translatable_function_imported_witness :
  ∃ func,
    VisitFunctionDecl Examples.visitor_knowing_S MoreExamples.method_get_common
                      MoreExamples.method_get
    = Some (with_items Examples.visitor_knowing_S
              (getCanonicalDecl MoreExamples.method_get_common) [IR.ItemFunc func])
    ∧ Func.name func = UI_Identifier (mkIdentifier "get")
    ∧ Func.lifetime_params func = [].
Proof.
  destruct (translatable_function_imported Examples.visitor_knowing_S
              MoreExamples.method_get_common MoreExamples.method_get
              (UI_Identifier (mkIdentifier "get")) eq_refl eq_refl eq_refl)
    as (func & Hvisit & Hname & Hlifetimes & _);
    [by intros ? [= <-]|reflexivity|reflexivity| |reflexivity|by eauto].
  constructor; [by eexists|constructor].
Defined.

Lemma String_compare_Lt_cotransitive x :
  ∀ y z, String.compare x z = Lt → String.compare x y = Lt ∨ String.compare y z = Lt.
Proof.
  induction x as [|a x IH]; intros [|b y] [|c z]; simpl; try done;
    try (by left); try (by right).
  unfold Ascii.compare.
  destruct (N.compare_spec (N_of_ascii a) (N_of_ascii c)) as [Hac|Hac|Hac]; [|intros _|done];
    destruct (N.compare_spec (N_of_ascii a) (N_of_ascii b)) as [Hab|Hab|Hab];
    destruct (N.compare_spec (N_of_ascii b) (N_of_ascii c)) as [Hbc|Hbc|Hbc];
    try lia; try (by left); try (by right).
  apply IH.
Qed.

Lemma String_ltb_asymmetric x y : String.ltb x y = true → String.ltb y x = false.
Proof.
  unfold String.ltb. rewrite (String.compare_antisym y x).
  by destruct (String.compare x y).
Qed.

Lemma String_ltb_negatively_transitive x y z :
  String.ltb x z = true → String.ltb x y = true ∨ String.ltb y z = true.
Proof.
  unfold String.ltb. destruct (String.compare x z) eqn:Hxz; try done. intros _.
  destruct (String_compare_Lt_cotransitive x y z Hxz) as [-> | ->]; by eauto.
Qed.

(** The lifetime parameters collected from a list of lifetimes: one per
    distinct lifetime, named by the symbol table and sorted by name. *)
Lemma CollectLifetimeParams_spec table all_lifetimes :
  match CollectLifetimeParams table all_lifetimes with
  | Some lifetime_params =>
      StronglySorted (λ l1 l2, String.ltb (lifetime_name l2) (lifetime_name l1) = false)
                     lifetime_params
      ∧ NoDup (map lifetime_id lifetime_params)
      ∧ length lifetime_params = length (remove_dups all_lifetimes)
      ∧ ∀ name id,
          mkIrLifetime name id ∈ lifetime_params
          ↔ ∃ lifetime, lifetime ∈ all_lifetimes
                        ∧ LookupLifetime table lifetime = Some name
                        ∧ id = lifetime_id_of lifetime
  | None => ∃ lifetime, lifetime ∈ all_lifetimes ∧ LookupLifetime table lifetime = None
  end.
Proof.
  unfold CollectLifetimeParams.
  destruct (mapM _ (remove_dups all_lifetimes)) as [named|] eqn:Hnamed; simpl.
  - apply mapM_Some_1 in Hnamed.
    set (comp := λ l1 l2 : Lifetime, String.ltb (lifetime_name l1) (lifetime_name l2)).
    assert (stable_sort comp named ≡ₚ named) as Hperm by apply stable_sort_Permutation.
    assert (map lifetime_id named = map lifetime_id_of (remove_dups all_lifetimes)) as Hids.
    { clear Hperm. induction Hnamed as [|lifetime p ?? Hp _ IH]; [done|].
      simpl. rewrite IH. f_equal.
      destruct (LookupLifetime table lifetime); simplify_eq/=. done. }
    split_and!.
    + apply stable_sort_sorted.
      * intros ??. apply String_ltb_asymmetric.
      * intros ???. apply String_ltb_negatively_transitive.
    + rewrite (Permutation_map lifetime_id Hperm), Hids.
      assert (Inj (=) (=) lifetime_id_of) by (by intros [x] [y] [= ->]).
      apply (NoDup_fmap_2 lifetime_id_of), NoDup_remove_dups.
    + rewrite Hperm. symmetry. by eapply Forall2_length.
    + intros name id. rewrite Hperm. split.
      * intros Hin. eapply list_elem_of_lookup in Hin as [i Hi].
        destruct (Forall2_lookup_r _ _ _ _ _ Hnamed Hi) as (lifetime & Hl & Hp).
        exists lifetime. split.
        { apply elem_of_remove_dups. by eapply list_elem_of_lookup_2. }
        destruct (LookupLifetime table lifetime); simplify_eq/=. done.
      * intros (lifetime & Hin & Hname & ->).
        apply elem_of_remove_dups, list_elem_of_lookup in Hin as [i Hi].
        destruct (Forall2_lookup_l _ _ _ _ _ Hnamed Hi) as (p & Hp & Hl).
        rewrite Hname in Hl. simplify_eq/=. by eapply list_elem_of_lookup_2.
  - apply mapM_None_1, Exists_exists in Hnamed as (lifetime & Hin & Hnone).
    exists lifetime. split; [by apply elem_of_remove_dups|].
    by destruct (LookupLifetime table lifetime).
Qed.

Lemma CollectLifetimeParams_unnamed table all_lifetimes lifetime :
  lifetime ∈ all_lifetimes → LookupLifetime table lifetime = None →
  CollectLifetimeParams table all_lifetimes = None.
Proof.
  intros Hin Hnone.
  pose proof (CollectLifetimeParams_spec table all_lifetimes) as Hspec.
  destruct (CollectLifetimeParams table all_lifetimes) as [lifetime_params|] eqn:Hcollect;
    [exfalso|done].
  unfold CollectLifetimeParams in Hcollect.
  destruct (mapM _ (remove_dups all_lifetimes)) as [named|] eqn:Hnamed; [|done].
  apply mapM_Some_1 in Hnamed.
  apply elem_of_remove_dups, list_elem_of_lookup in Hin as [i Hi].
  destruct (Forall2_lookup_l _ _ _ _ _ Hnamed Hi) as (p & _ & Hp).
  by rewrite Hnone in Hp.
Qed.

Lemma with_items_inj self decl items1 items2 :
  with_items self decl items1 = with_items self decl items2 → items1 = items2.
Proof.
  intros Heq.
  apply (f_equal (λ s, seen_lookup (seen_decls_ s) (canon_ptr decl))) in Heq.
  unfold with_items in Heq. simpl in Heq.
  rewrite !seen_lookup_push_all, N.eqb_refl in Heq. by apply app_inv_head in Heq.
Qed.

(** X22. The lifetime parameters of the [Func] recorded for a function are
    one per distinct lifetime that the annotations of the function name,
    for [this] of a non-static member function, for the parameters and for
    the return type, each with the name the symbol table gives the lifetime
    and with its id; they are sorted by name and their ids are pairwise
    distinct.  For a function of the current target that is not deleted the
    [CHECK(name.has_value())] fires when the symbol table does not name one
    of these lifetimes. *)
Theorem lifetime_params_sorted_by_name self decl function_decl :
  (∀ func,
     VisitFunctionDecl self decl function_decl
     = Some (with_items self (getCanonicalDecl decl) [IR.ItemFunc func]) →
     StronglySorted (λ l1 l2, String.ltb (lifetime_name l2) (lifetime_name l1) = false)
                    (Func.lifetime_params func)
     ∧ NoDup (map lifetime_id (Func.lifetime_params func))
     ∧ length (Func.lifetime_params func)
       = length (remove_dups (annotated_lifetimes function_decl))
     ∧ ∀ name id,
         mkIrLifetime name id ∈ Func.lifetime_params func
         ↔ ∃ lifetime, lifetime ∈ annotated_lifetimes function_decl
                       ∧ LookupLifetime (lifetime_symbol_table function_decl) lifetime
                         = Some name
                       ∧ id = lifetime_id_of lifetime)
  ∧ (IsFromCurrentTarget self decl = true →
     isDeleted function_decl = false →
     (∃ lifetime, lifetime ∈ annotated_lifetimes function_decl
                  ∧ LookupLifetime (lifetime_symbol_table function_decl) lifetime = None) →
     VisitFunctionDecl self decl function_decl = None).
Proof.
  split.
  - intros func [(items & Hitems & Heq)|Hfunc]%VisitFunctionDecl_outcome.
    { apply with_items_inj in Heq as <-. by inversion Hitems. }
    destruct Hfunc as (this_params & params & return_type & lifetime_params
                       & translated_name & _ & _ & _ & _ & _ & _ & Hcollect & _ & _ & Heq).
    apply with_items_inj in Heq. injection Heq as ->. simpl.
    pose proof (CollectLifetimeParams_spec (lifetime_symbol_table function_decl)
                  (annotated_lifetimes function_decl)) as Hspec.
    rewrite Hcollect in Hspec. exact Hspec.
  - intros Htarget Hdeleted (lifetime & Hin & Hnone).
    unfold VisitFunctionDecl. rewrite Htarget, Hdeleted. simpl.
    destruct (ImportThisParam decl function_decl _) as [st1|] eqn:H1; simpl; [|done].
    destruct (match GetLifetimeAnnotations function_decl with
              | Some lifetimes => _ | None => _ end) as [[]|] eqn:Hcheck; simpl; [|done].
    destruct (ImportParams decl function_decl 0 (parameters function_decl) st1)
      as [st2|] eqn:H2; simpl; [|done].
    destruct (ImportReturnType decl function_decl st2) as [[st3 return_type]|] eqn:H3;
      simpl; [|done].
    rewrite (VisitFunctionDecl_collects decl function_decl
               (mkFunctionImport self [] true []) st1 st2 st3 return_type
               eq_refl H1 Hcheck H2 H3).
    by rewrite (CollectLifetimeParams_unnamed _ _ lifetime Hin Hnone).
Qed.

Lemma lifetime_params_sorted_by_name_witness :
  ∃ func,
    VisitFunctionDecl Examples.visitor MoreExamples.pick_common MoreExamples.pick_function
    = Some (with_items Examples.visitor (getCanonicalDecl MoreExamples.pick_common)
              [IR.ItemFunc func])
    ∧ annotated_lifetimes MoreExamples.pick_function
      = [Examples.lifetime_a; Examples.lifetime_b; Examples.lifetime_a]
    ∧ Func.lifetime_params func
      = [mkIrLifetime "a" (mkLifetimeId 2); mkIrLifetime "b" (mkLifetimeId 1)]
    ∧ NoDup (map lifetime_id (Func.lifetime_params func)).
Proof.
  eexists. split; [reflexivity|]. split; [reflexivity|]. split; [reflexivity|].
  exact (proj1 (proj2 (proj1 (lifetime_params_sorted_by_name Examples.visitor
                                MoreExamples.pick_common MoreExamples.pick_function)
                             _ eq_refl))).
Defined.

(** ** Declarations of other targets and of namespaces *)




Lemma only_reported_refl ptrs self : only_reported ptrs self self.
Proof.
  split_and!; try done. intros ptr. split; [|by left].
  exists []. by rewrite app_nil_r.
Qed.

Lemma only_reported_trans ptrs self1 self2 self3 :
  only_reported ptrs self1 self2 → only_reported ptrs self2 self3 →
  only_reported ptrs self1 self3.
Proof.
  intros (K12 & I12 & C12 & H12) (K23 & I23 & C23 & H23).
  split_and!; try congruence. intros ptr.
  destruct (H12 ptr) as [(items12 & E12 & F12) S12].
  destruct (H23 ptr) as [(items23 & E23 & F23) S23]. split.
  - exists (items12 ++ items23). rewrite E23, E12, <-app_assoc. split; [done|].
    by apply Forall_app.
  - intros Hseen. destruct (S23 Hseen) as [?|?]; [by apply S12|by right].
Qed.

Lemma only_reported_mono ptrs ptrs' self self' :
  ptrs ⊆ ptrs' → only_reported ptrs self self' → only_reported ptrs' self self'.
Proof.
  intros Hsub (K & I & C & H). split_and!; try done. intros ptr.
  destruct (H ptr) as [Hitems Hseen]. split; [done|].
  intros Hptr. destruct (Hseen Hptr) as [?|?]; [by left|right; by apply Hsub].
Qed.

Lemma PushUnsupportedItem_only_reported self decl message loc :
  only_reported [canon_ptr (getCanonicalDecl decl)] self
                (PushUnsupportedItem self decl message loc).
Proof.
  destruct (PushUnsupportedItem_effect self decl message loc) as (items & Hitems & _ & ->).
  split_and!; try done. intros ptr. unfold with_items. simpl.
  rewrite seen_lookup_push_all. split.
  - destruct (canon_ptr (getCanonicalDecl decl) =? ptr); [by eauto|].
    exists []. by rewrite app_nil_r.
  - clear Hitems. revert self.
    induction items as [|item items IH] using rev_ind; intros self; [by left|].
    unfold push_all. rewrite fold_left_app. simpl.
    rewrite seen_push_back_contains. intros [Hseen|Heq]%orb_true_iff.
    + by apply IH.
    + right. apply N.eqb_eq in Heq. subst. apply list_elem_of_here.
Qed.

Lemma namespace_members_only_reported children :
  in_namespace_all children →
  ∀ self, ∃ self', TraverseDecls children self = Some self'
                   ∧ only_reported (canonical_ptrs children) self self'.
Proof.
  induction 1 as [|[[common kind grandchildren]|] children Hchild _ IH]; intros self.
  - exists self. split; [done|apply only_reported_refl].
  - simpl in Hchild.
    assert (∃ self1, TraverseDecl (mkDecl common kind grandchildren) self = Some self1
                     ∧ only_reported [canon_ptr (getCanonicalDecl common)] self self1)
      as (self1 & Hstep & Hself1).
    { rewrite TraverseDecl_unfold, Hchild.
      destruct (seen_contains _ _ && negb _).
      - exists self. split; [done|apply only_reported_refl].
      - eexists. split; [reflexivity|apply PushUnsupportedItem_only_reported]. }
    destruct (IH self1) as (self' & Hrest & Hself').
    exists self'. split.
    { change (TraverseDecls (Some (mkDecl common kind grandchildren) :: children) self)
        with (self1 ← TraverseDecl (mkDecl common kind grandchildren) self;
              TraverseDecls children self1).
      by rewrite Hstep. }
    eapply only_reported_trans.
    + eapply only_reported_mono; [|exact Hself1].
      intros ? ->%list_elem_of_singleton. simpl. apply list_elem_of_here.
    + eapply only_reported_mono; [|exact Hself']. intros ??. simpl. by right.
  - destruct (IH self) as (self' & Hrest & Hself'). by exists self'.
Qed.

(** X24. Nothing in a namespace is imported: the traversal of a namespace
    whose members are declared in it returns and, apart from the comments
    collected for the namespace itself, only records unsupported items, and
    those under the members alone; no type becomes known, nothing is put
    into the IR, and no declaration below a member is recorded. *)
Theorem namespace_contents_only_reported common children self :
  from_option isNamespace false (getDeclContext common) = false →
  in_namespace_all children →
  ∃ self',
    TraverseDecl (mkDecl common Kind_Namespace children) self = Some self'
    ∧ known_type_decls_ self' = known_type_decls_ self
    ∧ ir_ self' = ir_ self
    ∧ comment_manager_ self'
      = CommentManager_TraverseDecl (ctx_ self) (comment_manager_ self) common
                                    Kind_Namespace
    ∧ ∀ ptr,
        (∃ items, seen_lookup (seen_decls_ self') ptr
                  = seen_lookup (seen_decls_ self) ptr ++ items
                  ∧ Forall (λ i, is_UnsupportedItem i = true) items)
        ∧ (seen_contains (seen_decls_ self') ptr = true →
           seen_contains (seen_decls_ self) ptr = true
           ∨ ptr ∈ canonical_ptrs children).
Proof.
  intros Htop Hmembers. rewrite TraverseDecl_unfold, Htop.
  simpl negb. rewrite andb_false_r. cbv zeta.
  destruct (namespace_members_only_reported children Hmembers
              (set_comment_manager_
                 (CommentManager_TraverseDecl (ctx_ self) (comment_manager_ self) common
                                              Kind_Namespace) self))
    as (self' & -> & (Hknown & Hir & Hcomments & Hseen)).
  exists self'. split; [done|]. split_and!; done.
Qed.

Lemma namespace_contents_only_reported_witness :
  ∃ self',
    TraverseDecl MoreExamples.namespace_ns Examples.visitor = Some self'
    ∧ known_type_decls_ self' = ∅
    ∧ map fst (seen_decls_ self') = [Examples.Foo_canonical; Examples.T_canonical].
Proof.
  destruct (namespace_contents_only_reported (decl_common MoreExamples.namespace_ns)
              (decl_children MoreExamples.namespace_ns) Examples.visitor eq_refl)
    as (self' & Hrun & Hknown & _).
  { repeat constructor. }
  exists self'. split; [exact Hrun|]. split; [exact Hknown|].
  vm_compute in Hrun. by injection Hrun as <-.
Defined.

(** ** No [CHECK] fires *)

Lemma VisitRecordDecl_returns self decl record_decl :
  is_Some (VisitRecordDecl self decl record_decl).
Proof.
  destruct (from_option isFunctionOrMethod false (getDeclContext decl)) eqn:Hlocal.
  { unfold VisitRecordDecl. rewrite Hlocal. by eexists. }
  destruct (from_option isRecord false (getDeclContext decl)) eqn:Hnested.
  { unfold VisitRecordDecl. rewrite Hlocal, Hnested. by eexists. }
  destruct (isUnion record_decl) eqn:Hunion.
  { unfold VisitRecordDecl. rewrite Hlocal, Hnested, Hunion. by eexists. }
  destruct (getDefinition record_decl) as [definition|] eqn:Hdef.
  2:{ unfold VisitRecordDecl. rewrite Hlocal, Hnested, Hunion, Hdef. by eexists. }
  destruct (isInvalidDecl definition || negb (isCompleteDefinition definition))
    eqn:Hcomplete.
  { unfold VisitRecordDecl. rewrite Hlocal, Hnested, Hunion, Hdef, Hcomplete.
    by eexists. }
  destruct (from_option (λ cxx, getDescribedClassTemplate cxx
                                || isa_ClassTemplateSpecializationDecl cxx)
                        false (dyn_cast_CXXRecordDecl definition)) eqn:Htemplate.
  { unfold VisitRecordDecl. rewrite Hlocal, Hnested, Hunion, Hdef, Hcomplete, Htemplate.
    by eexists. }
  destruct (GetTranslatedIdentifier (def_named definition)) as [record_name|] eqn:Hname.
  2:{ unfold VisitRecordDecl. rewrite Hlocal, Hnested, Hunion, Hdef, Hcomplete, Htemplate.
      change (named (def_common decl definition)) with (def_named definition).
      rewrite Hname. by eexists. }
  destruct (VisitRecordDecl_fields self decl record_decl definition record_name)
    as (items & -> & _); [by constructor|by eexists].
Qed.

Lemma VisitTypedefNameDecl_returns self decl typedef_name_decl :
  is_Some (GetTranslatedIdentifier (named decl)) →
  is_Some (VisitTypedefNameDecl self decl typedef_name_decl).
Proof.
  intros [identifier Hidentifier]. unfold VisitTypedefNameDecl.
  destruct (from_option isFunctionOrMethod false _); [by eexists|].
  destruct (from_option isRecord false _); [by eexists|].
  destruct (fixed_flat_map_contains _ _); [by eexists|].
  rewrite Hidentifier. simpl.
  destruct (ConvertType_no_lifetimes_total self (getUnderlyingType typedef_name_decl)
              ConvertType_default_nullable) as [[status|t] Hconvert];
    change ConvertType_default_lifetimes with (@None (list devtools_rust.Lifetime));
    rewrite Hconvert; by eexists.
Qed.

Lemma TraverseDecls_returns children :
  Forall (λ child,
            from_option (λ decl, checks_hold decl = true →
                                 ∀ self, is_Some (TraverseDecl decl self))
                        True child) children →
  forallb (λ child, from_option checks_hold true child) children = true →
  ∀ self, is_Some (TraverseDecls children self).
Proof.
  induction 1 as [|[child|] children Hchild _ IH]; simpl; intros Hchecks self.
  - by eexists.
  - apply andb_true_iff in Hchecks as [Hcheck Hchecks].
    destruct (Hchild Hcheck self) as [self1 ->]. simpl. by apply IH.
  - by apply IH.
Qed.

(** X25. In a tree of declarations in which no function has lifetime
    annotations and every parameter and every typedef has a translated
    name, no [CHECK] of the visitor fires: the traversal returns, from any
    state of the visitor. *)
Theorem traversal_without_lifetimes_returns decl :
  checks_hold decl = true → ∀ self, is_Some (TraverseDecl decl self).
Proof.
  induction decl as [common kind children IH] using Decl_children_ind.
  intros [Hkind Hchildren]%andb_true_iff self.
  pose proof (TraverseDecls_returns children IH Hchildren) as Hrest.
  rewrite TraverseDecl_unfold.
  destruct (seen_contains _ _ && negb _); [by eexists|].
  destruct (from_option isNamespace false (getDeclContext common)); [by eexists|].
  cbv zeta.
  destruct kind as [ast_context| |function_decl|record_decl|typedef_name_decl|].
  - destruct (Hrest (set_ir_ (IR.mk (IR.used_headers (ir_ self) ++ public_header_names_ self)
                                (current_target_ self) (IR.items (ir_ self)))
                       (set_ctx_ ast_context
                          (set_comment_manager_
                             (CommentManager_TraverseDecl ast_context
                                (comment_manager_ self) common
                                (Kind_TranslationUnit ast_context)) self))))
      as [self1 Hself1].
    simpl in Hself1 |- *. rewrite Hself1. by eexists.
  - apply Hrest.
  - simpl in Hkind. apply andb_true_iff in Hkind as [Hnone Hnames].
    destruct (VisitFunctionDecl_returns
                (set_comment_manager_
                   (CommentManager_TraverseDecl (ctx_ self) (comment_manager_ self) common
                                                (Kind_Function function_decl)) self)
                common function_decl) as [self1 ->].
    + by destruct (GetLifetimeAnnotations function_decl).
    + apply Forall_forall. intros param Hin.
      rewrite forallb_forall in Hnames.
      apply list_elem_of_In, Hnames in Hin. by apply bool_decide_eq_true in Hin.
    + simpl. apply Hrest.
  - destruct (VisitRecordDecl_returns
                (set_comment_manager_
                   (CommentManager_TraverseDecl (ctx_ self) (comment_manager_ self) common
                                                (Kind_Record record_decl)) self)
                common record_decl) as [self1 ->].
    simpl. apply Hrest.
  - simpl in Hkind. apply bool_decide_eq_true in Hkind.
    destruct (VisitTypedefNameDecl_returns
                (set_comment_manager_
                   (CommentManager_TraverseDecl (ctx_ self) (comment_manager_ self) common
                                                (Kind_TypedefName typedef_name_decl)) self)
                common typedef_name_decl Hkind) as [self1 ->].
    simpl. apply Hrest.
  - apply Hrest.
Qed.

Lemma traversal_without_lifetimes_returns_witness :
  is_Some (TraverseDecl MoreExamples.commented_unit Examples.visitor).
Proof.
  exact (traversal_without_lifetimes_returns MoreExamples.commented_unit eq_refl
           Examples.visitor).
Defined.

(** ** What the function importer reports *)

Section Reports.
Context (self : AstVisitor) (decl : DeclCommon) (function_decl : FunctionDecl).
Hypothesis Htarget : IsFromCurrentTarget self decl = true.

Lemma reporting_converts st qual_type lifetimes nullable :
  reporting self decl st →
  ConvertType (fi_self st) qual_type lifetimes nullable
  = ConvertType self qual_type lifetimes nullable.
Proof. intros [items ->]. apply ConvertType_with_items. Qed.

Lemma reporting_push st message loc :
  reporting self decl st →
  ∃ item, is_UnsupportedItem item = true
          ∧ PushUnsupportedItem (fi_self st) decl message loc
            = with_items (fi_self st) (getCanonicalDecl decl) [item].
Proof.
  intros [items Hst].
  destruct (PushUnsupportedItem_effect (fi_self st) decl message loc)
    as (pushed & Hpushed & Hlength & ->).
  assert (IsFromCurrentTarget (fi_self st) decl = true) as Hcurrent
    by (by rewrite Hst).
  rewrite Hcurrent in Hlength.
  destruct pushed as [|item [|]]; try done.
  exists item. split; [by inversion Hpushed|done].
Qed.

Lemma reports_step_reporting k st st' :
  reporting self decl st → reports_step decl k st st' → reporting self decl st'.
Proof.
  intros [items Hst] (pushed & _ & _ & Hst' & _).
  exists (items ++ pushed). by rewrite Hst', Hst, with_items_app.
Qed.

Lemma reports_step_trans k1 k2 st1 st2 st3 :
  reports_step decl k1 st1 st2 → reports_step decl k2 st2 st3 →
  reports_step decl (k1 + k2) st1 st3.
Proof.
  intros (items1 & F1 & L1 & E1 & S1) (items2 & F2 & L2 & E2 & S2).
  exists (items1 ++ items2). split_and!.
  - by apply Forall_app.
  - rewrite length_app. lia.
  - by rewrite E2, E1, with_items_app.
  - rewrite S2, S1, <-andb_assoc. f_equal.
    destruct k1, k2; simpl; by rewrite ?bool_decide_eq_true_2, ?bool_decide_eq_false_2.
Qed.

Lemma reports_step_none st params all_lifetimes :
  reports_step decl 0 st (mkFunctionImport (fi_self st) params (fi_success st) all_lifetimes).
Proof.
  exists []. split_and!; try done.
  - by rewrite with_items_nil.
  - simpl. by rewrite andb_true_r.
Qed.

Lemma reports_step_one st message loc params all_lifetimes :
  reporting self decl st →
  reports_step decl 1 st
    (mkFunctionImport (PushUnsupportedItem (fi_self st) decl message loc)
                      params false all_lifetimes).
Proof.
  intros Hst. destruct (reporting_push st message loc Hst) as (item & Hitem & ->).
  exists [item]. split_and!; try done; [by constructor|].
  simpl. by rewrite andb_false_r.
Qed.

Lemma ImportThisParam_reports st st' :
  reporting self decl st →
  ImportThisParam decl function_decl st = Some st' →
  reports_step decl (this_reports self function_decl) st st'.
Proof.
  intros Hst. unfold ImportThisParam, this_reports, converts.
  destruct (dyn_cast_CXXMethodDecl function_decl) as [method_decl|].
  2:{ intros [= <-]. destruct st. apply reports_step_none. }
  destruct (isInstance method_decl); simpl.
  2:{ intros [= <-]. destruct st. apply reports_step_none. }
  rewrite (reporting_converts st) by done.
  destruct (ConvertType self _ _ _) as [[status|t]|]; simpl; [| |done]; intros [= <-].
  - by apply reports_step_one.
  - apply reports_step_none.
Qed.

Lemma ImportParam_reports i param st st' :
  reporting self decl st →
  ImportParam decl function_decl i param st = Some st' →
  reports_step decl (param_reports self function_decl i param) st st'.
Proof.
  intros Hst. unfold ImportParam, param_reports, converts, lifetimes_of_param,
    passable_by_value.
  assert (∀ param_lifetimes,
            (param_type ← ConvertType (fi_self st) (parm_getType param) param_lifetimes
                                      ConvertType_default_nullable;
             match param_type with
             | inl _ =>
                 Some (mkFunctionImport
                         (PushUnsupportedItem (fi_self st) decl
                            ("Parameter type '" +:+ getAsString (parm_getType param)
                               +:+ "' is not supported")
                            (parm_getBeginLoc param))
                         (fi_params st) false
                         (fi_all_lifetimes st ++ default [] param_lifetimes))
             | inr t =>
                 let st :=
                   match dyn_cast_RecordType (parm_getType param) with
                   | Some record_decl =>
                       if negb (canPassInRegisters record_decl) then
                         mkFunctionImport
                           (PushUnsupportedItem (fi_self st) decl
                              ("Non-trivial_abi type '" +:+ getAsString (parm_getType param)
                                 +:+ "' is not supported by value as a parameter")
                              (parm_getBeginLoc param))
                           (fi_params st) false
                           (fi_all_lifetimes st ++ default [] param_lifetimes)
                       else mkFunctionImport (fi_self st) (fi_params st) (fi_success st)
                              (fi_all_lifetimes st ++ default [] param_lifetimes)
                   | None => mkFunctionImport (fi_self st) (fi_params st) (fi_success st)
                               (fi_all_lifetimes st ++ default [] param_lifetimes)
                   end in
                 param_name ← GetTranslatedIdentifier (parm_named param);
                 Some (mkFunctionImport (fi_self st)
                         (fi_params st ++ [mkFuncParam t param_name])
                         (fi_success st) (fi_all_lifetimes st))
             end) = Some st' →
            reports_step decl
              (if match ConvertType self (parm_getType param) param_lifetimes
                          ConvertType_default_nullable with
                  | Some (inr _) => true
                  | _ => false
                  end
                  && match dyn_cast_RecordType (parm_getType param) with
                     | Some record_decl => canPassInRegisters record_decl
                     | None => true
                     end
               then 0%nat else 1%nat) st st') as Hbody.
  { intros param_lifetimes. rewrite (reporting_converts st) by done.
    destruct (ConvertType self _ _ _) as [[status|t]|]; simpl; [| |done].
    { intros [= <-]. by apply reports_step_one. }
    destruct (dyn_cast_RecordType _) as [record_decl|];
      [destruct (canPassInRegisters record_decl)|]; simpl;
      (destruct (GetTranslatedIdentifier _) as [param_name|]; simpl; [|done]);
      intros [= <-].
    - apply reports_step_none.
    - by apply reports_step_one.
    - apply reports_step_none. }
  destruct (GetLifetimeAnnotations function_decl) as [lifetimes|]; simpl.
  - destruct (devtools_rust.param_lifetimes lifetimes !! i) as [param_lifetimes|];
      simpl; [|done].
    apply Hbody.
  - apply Hbody.
Qed.
Lemma ImportParams_reports params :
  ∀ i st st',
    reporting self decl st →
    ImportParams decl function_decl i params st = Some st' →
    reports_step decl (params_reports self function_decl i params) st st'.
Proof.
  induction params as [|param rest IH]; intros i st st' Hst; simpl.
  { intros [= <-]. destruct st. apply reports_step_none. }
  destruct (ImportParam decl function_decl i param st) as [st1|] eqn:H1; simpl; [|done].
  intros Hrest. pose proof (ImportParam_reports _ _ _ _ Hst H1) as Hstep.
  eapply reports_step_trans; [exact Hstep|].
  apply IH; [|done]. by eapply reports_step_reporting.
Qed.

Lemma ImportReturnType_reports st st' return_type :
  reporting self decl st →
  ImportReturnType decl function_decl st = Some (st', return_type) →
  reports_step decl (return_reports self function_decl) st st'
  ∧ ConvertType self (getReturnType function_decl)
      (devtools_rust.return_lifetimes <$> GetLifetimeAnnotations function_decl)
      ConvertType_default_nullable = Some return_type.
Proof.
  intros Hst. unfold ImportReturnType, return_reports, converts, passable_by_value.
  set (st1 := match dyn_cast_RecordType (getReturnType function_decl) with
              | Some record_decl => _ | None => _ end).
  assert (reports_step decl
            (if match dyn_cast_RecordType (getReturnType function_decl) with
                | Some record_decl => canPassInRegisters record_decl
                | None => true
                end then 0 else 1) st st1) as Hstep1.
  { subst st1. destruct (dyn_cast_RecordType _) as [record_decl|];
      [destruct (canPassInRegisters record_decl)|]; simpl.
    - destruct st. apply reports_step_none.
    - by apply reports_step_one.
    - destruct st. apply reports_step_none. }
  pose proof (reports_step_reporting _ _ _ Hst Hstep1) as Hst1.
  clearbody st1. rewrite (reporting_converts st1) by done.
  destruct (ConvertType self _ _ _) as [[status|t]|]; simpl; [| |done];
    intros [= <- <-]; (split; [|done]);
    (eapply reports_step_trans; [exact Hstep1|]).
  - by apply reports_step_one.
  - apply reports_step_none.
Qed.

Lemma VisitFunctionDecl_reports self' :
  isDeleted function_decl = false →
  VisitFunctionDecl self decl function_decl = Some self' →
  ∃ items published,
    self' = with_items self (getCanonicalDecl decl) (items ++ published)
    ∧ Forall (λ i, is_UnsupportedItem i = true) items
    ∧ length items = expected_reports self function_decl
    ∧ (published = [] ∨ ∃ func, published = [IR.ItemFunc func])
    ∧ (published ≠ []
       ↔ expected_reports self function_decl = 0%nat
         ∧ is_Some (GetTranslatedName (named decl))
         ∧ ∀ method_decl, dyn_cast_CXXMethodDecl function_decl = Some method_decl →
                          getAccess method_decl = AS_public).
Proof.
  intros Hdeleted. unfold VisitFunctionDecl. rewrite Htarget, Hdeleted. simpl.
  set (st0 := mkFunctionImport self [] true []).
  assert (reporting self decl st0) as Hst0 by (exists []; by rewrite with_items_nil).
  destruct (ImportThisParam decl function_decl st0) as [st1|] eqn:H1; simpl; [|done].
  destruct (match GetLifetimeAnnotations function_decl with
            | Some lifetimes => _ | None => _ end) as [[]|]; simpl; [|done].
  destruct (ImportParams decl function_decl 0 (parameters function_decl) st1)
    as [st2|] eqn:H2; simpl; [|done].
  destruct (ImportReturnType decl function_decl st2) as [[st3 return_type]|] eqn:H3;
    simpl; [|done].
  destruct (CollectLifetimeParams _ _) as [lifetime_params|]; simpl; [|done].
  pose proof (ImportThisParam_reports _ _ Hst0 H1) as S1.
  pose proof (reports_step_reporting _ _ _ Hst0 S1) as Hst1.
  pose proof (ImportParams_reports _ _ _ _ Hst1 H2) as S2.
  pose proof (reports_step_reporting _ _ _ Hst1 S2) as Hst2.
  destruct (ImportReturnType_reports _ _ _ Hst2 H3) as [S3 Hreturn].
  pose proof (reports_step_trans _ _ _ _ _ (reports_step_trans _ _ _ _ _ S1 S2) S3)
    as (items & Hitems & Hlength & Hself3 & Hsuccess).
  fold (expected_reports self function_decl) in Hlength, Hsuccess.
  simpl in Hself3, Hsuccess.
  intros Hself'. exists items.
  assert (∀ metadata, ∃ published,
            match GetTranslatedName (named decl), return_type with
            | Some translated_name, inr return_type =>
                if fi_success st3 then
                  set_seen_decls_
                    (seen_push_back (seen_decls_ (fi_self st3)) (getCanonicalDecl decl)
                       (IR.ItemFunc
                          (Func.mk translated_name (GetOwningTarget (fi_self st3) decl)
                             (GetComment (getRawCommentForDeclNoCache decl))
                             (GetMangledName function_decl) return_type (fi_params st3)
                             lifetime_params (isInlined function_decl) metadata
                             (ConvertSourceLocation (fi_self st3) (getBeginLoc decl)))))
                    (fi_self st3)
                else fi_self st3
            | _, _ => fi_self st3
            end = with_items self (getCanonicalDecl decl) (items ++ published)
            ∧ (published = [] ∨ ∃ func, published = [IR.ItemFunc func])
            ∧ (published ≠ []
               ↔ expected_reports self function_decl = 0%nat
                 ∧ is_Some (GetTranslatedName (named decl)))) as Hpublish.
  { intros metadata.
    assert (expected_reports self function_decl = 0%nat → ok return_type = true) as Hok.
    { unfold expected_reports, return_reports, converts. rewrite Hreturn.
      destruct return_type; [|done]. intros. destruct (passable_by_value _); lia. }
    rewrite Hsuccess.
    destruct (GetTranslatedName (named decl)) as [translated_name|].
    2:{ exists []. rewrite app_nil_r. split_and!; [done|by left|].
        split; [done|]. by intros (_ & [? [=]]). }
    destruct (decide (expected_reports self function_decl = 0%nat)) as [Hnone|Hsome].
    - rewrite bool_decide_eq_true_2 by done. specialize (Hok Hnone).
      destruct return_type as [status|t]; [done|].
      eexists [IR.ItemFunc _]. split_and!.
      + rewrite Hself3, <-with_items_app. reflexivity.
      + right. by eexists.
      + split; [by eauto|done].
    - rewrite bool_decide_eq_false_2 by done.
      exists []. rewrite app_nil_r. split_and!; [by destruct return_type|by left|].
      split; [done|]. by intros [? _]. }
  destruct (dyn_cast_CXXMethodDecl function_decl) as [method_decl|].
  - destruct (getAccess method_decl) eqn:Haccess; injection Hself' as <-.
    + destruct (Hpublish (Some (GetMemberFuncMetadata method_decl)))
        as (published & -> & Hshape & Hiff).
      exists published. split_and!; try done. rewrite Hiff.
      split; [intros [? ?]; split_and!; try done; by intros ? [= <-]|by intros (? & ? & _)].
    + exists []. rewrite app_nil_r. split_and!; try done; [by left|].
      split; [done|]. intros (_ & _ & Hpublic). specialize (Hpublic _ eq_refl). congruence.
    + exists []. rewrite app_nil_r. split_and!; try done; [by left|].
      split; [done|]. intros (_ & _ & Hpublic). specialize (Hpublic _ eq_refl). congruence.
    + exists []. rewrite app_nil_r. split_and!; try done; [by left|].
      split; [done|]. intros (_ & _ & Hpublic). specialize (Hpublic _ eq_refl). congruence.
  - injection Hself' as <-.
    destruct (Hpublish None) as (published & -> & Hshape & Hiff).
    exists published. split_and!; try done. rewrite Hiff.
    split; [intros [? ?]; split_and!; done|by intros (? & ? & _)].
Qed.
End Reports.

(** X26. For a function of the current target that is not deleted, the
    function importer reports every failure and only failures: it records
    one unsupported item for a [this] type that does not translate, one for
    each parameter whose type does not translate or else is a record that
    cannot be passed in registers, one for such a record returned by value
    and one for a return type that does not translate, and after them the
    [Func] item exactly when there was nothing to report, the name
    translates and the function is free or public; no type becomes known. *)
Theorem function_reports_every_failure self decl function_decl self' :
  IsFromCurrentTarget self decl = true →
  isDeleted function_decl = false →
  VisitFunctionDecl self decl function_decl = Some self' →
  ∃ items published,
    seen_lookup (seen_decls_ self') (canon_ptr (getCanonicalDecl decl))
    = seen_lookup (seen_decls_ self) (canon_ptr (getCanonicalDecl decl))
      ++ items ++ published
    ∧ known_type_decls_ self' = known_type_decls_ self
    ∧ Forall (λ i, is_UnsupportedItem i = true) items
    ∧ length items = expected_reports self function_decl
    ∧ (published = [] ∨ ∃ func, published = [IR.ItemFunc func])
    ∧ (published ≠ []
       ↔ expected_reports self function_decl = 0%nat
         ∧ is_Some (GetTranslatedName (named decl))
         ∧ ∀ method_decl, dyn_cast_CXXMethodDecl function_decl = Some method_decl →
                          getAccess method_decl = AS_public).
Proof.
  intros Htarget Hdeleted Hvisit.
  destruct (VisitFunctionDecl_reports self decl function_decl Htarget self' Hdeleted Hvisit)
    as (items & published & -> & Hitems & Hlength & Hshape & Hiff).
  exists items, published. unfold with_items. simpl.
  rewrite seen_lookup_push_all, N.eqb_refl. split_and!; done.
Qed.

Lemma function_reports_every_failure_witness :
  ∃ self' items,
    VisitFunctionDecl Examples.visitor_knowing_N MoreExamples.Wide_common
                      MoreExamples.Wide_function = Some self'
    ∧ seen_lookup (seen_decls_ self') 52 = [] ++ items ++ []
    ∧ length items = 3%nat.
Proof.
  destruct (VisitFunctionDecl Examples.visitor_knowing_N MoreExamples.Wide_common
              MoreExamples.Wide_function) as [self'|] eqn:Hrun;
    [|vm_compute in Hrun; discriminate].
  destruct (function_reports_every_failure Examples.visitor_knowing_N
              MoreExamples.Wide_common MoreExamples.Wide_function self'
              eq_refl eq_refl Hrun)
    as (items & published & Hseen & _ & _ & Hlength & Hshape & Hiff).
  destruct Hshape as [->|[func ->]].
  - exists self', items. split; [reflexivity|]. split; [exact Hseen|exact Hlength].
  - exfalso. assert ([IR.ItemFunc func] ≠ []) as Hpublished by done.
    apply Hiff in Hpublished as [Hnone _]. vm_compute in Hnone. discriminate.
Defined.
